(** * Retention Watch: risk scoring, driver attribution, ranking and cohort roll-up

    Shallow embedding of [src/main.c].

    - A C [double] is an IEEE-754 binary64 value: Rocq's primitive [float],
      whose operations are specified by [SpecFloat] through [Prim2SF].
      Every arithmetic operation rounds to binary64, to nearest-even (no
      fused multiply-add, no wider intermediate format); a decimal literal
      denotes the nearest binary64 value, as in C.
    - A C [int] is a [Z] in the range [int_min .. int_max].  The counters
      of [main] never exceed the number of records and are not wrapped.
    - A C string is a [string]; [strcmp (a, b) == 0] is [String.eqb a b].
    - The library routine [qsort] is modelled twice.  Its contract
      ([qsort_post]) is what the C standard promises: the array is
      permuted, and when the comparator is a total ordering on the array
      no element compares greater than a later one; the order of
      elements that compare equal is left open, and so is the order when
      the comparator is not a total ordering (a NaN key).  [msort] is the
      merge sort by which the GNU C library implements [qsort]; it meets
      the contract, and it fixes what the contract leaves open.
    - Text rendering ([printf], [snprintf]) is not modelled:
      [format_drivers] yields the list of drivers it would print, [main_run]
      the data each report is rendered from.  Of the file system only
      whether the export and the summary file can be opened matters
      ([Files]).  Rows rejected for having fewer than ten fields never
      reach [load].
    - The input file is the list of lines that [getline] returns; a line
      is a buffer that may hold NUL characters, and the C string in it
      ends before the first one.  The library routines [strsep], [strstr]
      and [isspace] (in the C locale) are modelled by what the C library
      documents; [atof] and [atoi] are section variables, about which
      nothing is assumed. *)

From Stdlib Require Import ZArith Lia List Bool String Ascii Floats Permutation Sorted.
Import ListNotations.

Set Warnings "-inexact-float".
Open Scope Z_scope.

(** ** Data model *)

Record Scholar := mkScholar {
  id : string;
  name : string;
  cohort : string;
  days_inactive : float;
  attendance_rate : float;
  engagement_score : float;
  gpa : float;
  last_contact_days : float;
  survey_score : float;
  open_flags : Z;
  risk_score : float
}.

Record CohortSummary := mkCohortSummary {
  cs_name : string;
  total : Z;
  high : Z;
  medium : Z;
  low : Z;
  avg_risk : float
}.

Record Driver := mkDriver {
  label : string;
  value : float
}.

Definition int_min : Z := - 2 ^ 31.
Definition int_max : Z := 2 ^ 31 - 1.

(** Conversion of an [int] operand to [double] (usual arithmetic
    conversions in [s->open_flags * 6.0]). *)
Definition double_of_int (n : Z) : float :=
  if n <? 0 then (- of_uint63 (Uint63.of_Z (- n)))%float
  else of_uint63 (Uint63.of_Z n).

(** ** [qsort]: its contract, and the merge sort of the GNU C library *)

(** What [qsort] requires of its comparator: the results on the objects
    of the array are consistent with one another and define a total
    ordering on the array. *)
Definition total_order_on {A : Type} (l : list A) (cmp : A -> A -> Z) : Prop :=
  (forall a b, In a l -> In b l -> Z.sgn (cmp b a) = - Z.sgn (cmp a b)) /\
  (forall a b c, In a l -> In b l -> In c l ->
     cmp a b <= 0 -> cmp b c <= 0 -> cmp a c <= 0).

(** The contract: the array is permuted; it is in comparator order when
    the comparator is a total ordering on it.  With any other comparator
    the C standard promises nothing; a sort that only moves elements
    still leaves a permutation, in no particular order. *)
Definition qsort_post {A : Type} (cmp : A -> A -> Z) (input output : list A) : Prop :=
  Permutation input output /\
  (total_order_on input cmp -> StronglySorted (fun a b => cmp a b <= 0) output).

(** The merge step of [msort_with_tmp]: the head of [b1] is taken when
    [cmp (b1, b2) <= 0], the head of [b2] otherwise; what is left of
    either run follows. *)
Fixpoint merge {A : Type} (cmp : A -> A -> Z) (b1 : list A) : list A -> list A :=
  fix merge_b1 (b2 : list A) : list A :=
    match b1, b2 with
    | [], _ => b2
    | _, [] => b1
    | x :: b1', y :: b2' =>
        if cmp x y <=? 0 then x :: merge cmp b1' b2
        else y :: merge_b1 b2'
    end.

(** [msort_with_tmp]: the first [n / 2] elements and the rest are sorted
    and merged.  [depth] bounds the recursion; [List.length b] is always
    enough ([msort_depth]). *)
Fixpoint msort_with_tmp {A : Type} (cmp : A -> A -> Z) (depth : nat) (b : list A)
  : list A :=
  match depth with
  | O => b
  | S depth' =>
      let n := List.length b in
      if (n <=? 1)%nat then b
      else
        let n1 := (n / 2)%nat in
        merge cmp (msort_with_tmp cmp depth' (firstn n1 b))
                  (msort_with_tmp cmp depth' (skipn n1 b))
  end.

(** [qsort] as the GNU C library runs it (its fallback for an array too
    large for a temporary copy is not modelled). *)
Definition msort {A : Type} (cmp : A -> A -> Z) (b : list A) : list A :=
  msort_with_tmp cmp (List.length b) b.

(** ** RiskModel *)

Definition clamp (v min max : float) : float :=
  if (v <? min)%float then min
  else if (max <? v)%float then max
  else v.

Definition gpa_gap (s : Scholar) : float := clamp (4.0 - gpa s) 0.0 4.0.
Definition attendance_gap (s : Scholar) : float :=
  clamp (100.0 - attendance_rate s) 0.0 100.0.
Definition engagement_gap (s : Scholar) : float :=
  clamp (100.0 - engagement_score s) 0.0 100.0.
Definition survey_gap (s : Scholar) : float :=
  clamp (100.0 - survey_score s) 0.0 100.0.

Definition compute_risk (s : Scholar) : float :=
  let score := 0.0%float in
  let score := (score + days_inactive s * 0.6)%float in
  let score := (score + last_contact_days s * 0.4)%float in
  let score := (score + attendance_gap s * 0.35)%float in
  let score := (score + engagement_gap s * 0.25)%float in
  let score := (score + gpa_gap s * 12.5)%float in
  let score := (score + survey_gap s * 0.15)%float in
  let score := (score + double_of_int (open_flags s) * 6.0)%float in
  clamp score 0.0 100.0.

(** ** DriverAnalyzer *)

Definition compare_driver_desc (da db : Driver) : Z :=
  if (value da <? value db)%float then 1
  else if (value db <? value da)%float then -1
  else 0.

(** The seven additive terms, as [format_drivers] recomputes them. *)
Definition inactivity (s : Scholar) : float := (days_inactive s * 0.6)%float.
Definition contact_gap (s : Scholar) : float := (last_contact_days s * 0.4)%float.
Definition attendance (s : Scholar) : float := (attendance_gap s * 0.35)%float.
Definition engagement (s : Scholar) : float := (engagement_gap s * 0.25)%float.
Definition gpa_term (s : Scholar) : float := (gpa_gap s * 12.5)%float.
Definition survey (s : Scholar) : float := (survey_gap s * 0.15)%float.
Definition flags (s : Scholar) : float := (double_of_int (open_flags s) * 6.0)%float.

(** [if (v > 0.1) drivers[count++] = (Driver){l, v};] *)
Definition push_driver (l : string) (v : float) (drivers : list Driver) : list Driver :=
  if (0.1 <? v)%float then drivers ++ [mkDriver l v] else drivers.

Definition collect_drivers (s : Scholar) : list Driver :=
  let drivers := [] in
  let drivers := push_driver "inactivity" (inactivity s) drivers in
  let drivers := push_driver "contact gap" (contact_gap s) drivers in
  let drivers := push_driver "attendance" (attendance s) drivers in
  let drivers := push_driver "engagement" (engagement s) drivers in
  let drivers := push_driver "gpa" (gpa_term s) drivers in
  let drivers := push_driver "survey" (survey s) drivers in
  let drivers := push_driver "open flags" (flags s) drivers in
  drivers.

(** What [format_drivers] writes: the word "stable", or the first
    [min count 3] entries of the sorted driver array. *)
Inductive DriverText :=
| Stable
| Listed (shown : list Driver).

Inductive format_drivers (s : Scholar) : DriverText -> Prop :=
| format_stable :
    collect_drivers s = [] ->
    format_drivers s Stable
| format_listed sorted :
    collect_drivers s <> [] ->
    qsort_post compare_driver_desc (collect_drivers s) sorted ->
    format_drivers s (Listed (firstn 3 sorted)).

(** ** Classifier *)

Definition risk_tier (score : float) : string :=
  if (75.0 <=? score)%float then "high"
  else if (50.0 <=? score)%float then "medium"
  else "low".

Definition action_hint (s : Scholar) : string :=
  if (30.0 <=? days_inactive s)%float then "re-engage outreach"
  else if (attendance_rate s <? 70.0)%float then "attendance support"
  else if (gpa s <? 2.5)%float then "academic support"
  else if 0 <? open_flags s then "resolve open flags"
  else if (engagement_score s <? 60.0)%float then "engagement nudge"
  else "lightweight check-in".

(** ** Ranker *)

Definition compare_risk_desc (sa sb : Scholar) : Z :=
  if (risk_score sa <? risk_score sb)%float then 1
  else if (risk_score sb <? risk_score sa)%float then -1
  else 0.

(** [qsort (scholars, count, sizeof (Scholar), compare_risk_desc)] *)
Definition ranked (loaded scholars : list Scholar) : Prop :=
  qsort_post compare_risk_desc loaded scholars.

(** ** CohortAggregator *)

(** The linear scan of [find_or_create_cohort]: index of the first summary
    with this name. *)
Fixpoint find_cohort (cohorts : list CohortSummary) (n : string) : option nat :=
  match cohorts with
  | [] => None
  | cs :: rest =>
      if (cs_name cs =? n)%string then Some O
      else option_map S (find_cohort rest n)
  end.

Definition find_or_create_cohort (cohorts : list CohortSummary) (n : string)
  : list CohortSummary * nat :=
  match find_cohort cohorts n with
  | Some i => (cohorts, i)
  | None => (cohorts ++ [mkCohortSummary n 0 0 0 0 0.0], List.length cohorts)
  end.

(** Update through the pointer [cs] returned by [find_or_create_cohort]. *)
Fixpoint update_at {A : Type} (l : list A) (i : nat) (f : A -> A) : list A :=
  match l, i with
  | [], _ => []
  | x :: rest, O => f x :: rest
  | x :: rest, S j => x :: update_at rest j f
  end.

Definition add_record (r : float) (cs : CohortSummary) : CohortSummary :=
  let tier := risk_tier r in
  let cs := mkCohortSummary (cs_name cs) (total cs + 1) (high cs) (medium cs) (low cs)
              (avg_risk cs + r) in
  if (tier =? "high")%string then
    mkCohortSummary (cs_name cs) (total cs) (high cs + 1) (medium cs) (low cs) (avg_risk cs)
  else if (tier =? "medium")%string then
    mkCohortSummary (cs_name cs) (total cs) (high cs) (medium cs + 1) (low cs) (avg_risk cs)
  else
    mkCohortSummary (cs_name cs) (total cs) (high cs) (medium cs) (low cs + 1) (avg_risk cs).

(** One iteration of the aggregation loop of [main]. *)
Definition fold_record (cohorts : list CohortSummary) (s : Scholar) : list CohortSummary :=
  let '(cohorts, i) := find_or_create_cohort cohorts (cohort s) in
  update_at cohorts i (add_record (risk_score s)).

Definition aggregate (scholars : list Scholar) : list CohortSummary :=
  fold_left fold_record scholars [].

(** ** main: loading, export and action queue *)

(** The options that decide the outcome of a run: [export] and [summary]
    say whether an [-export] and a [-summary] path were given. *)
Record Options := mkOptions {
  limit : Z;
  min_risk : float;
  cohort_filter : option string;
  export : bool;
  summary : bool;
  json : bool
}.

Definition default_options : Options := mkOptions 10 0.0 None false false false.

(** The file system as far as a run depends on it: whether
    [fopen (export_path, "w")] and [fopen (summary_path, "w")] succeed. *)
Record Files := mkFiles {
  export_opens : bool;
  summary_opens : bool
}.

Definition with_risk (s : Scholar) (r : float) : Scholar :=
  mkScholar (id s) (name s) (cohort s) (days_inactive s) (attendance_rate s)
    (engagement_score s) (gpa s) (last_contact_days s) (survey_score s)
    (open_flags s) r.

(** The reading loop, over the rows that have the ten required fields:
    each is scored, then dropped when a cohort filter is set and does not
    match. *)
Fixpoint load (filter : option string) (rows : list Scholar) : list Scholar :=
  match rows with
  | [] => []
  | row :: rest =>
      let s := with_risk row (compute_risk row) in
      match filter with
      | Some c =>
          if negb (cohort s =? c)%string then load filter rest
          else s :: load filter rest
      | None => s :: load filter rest
      end
  end.

(** The export loop: every ranked scholar not below the threshold. *)
Fixpoint export_rows (threshold : float) (scholars : list Scholar) : list Scholar :=
  match scholars with
  | [] => []
  | s :: rest =>
      if (risk_score s <? threshold)%float then export_rows threshold rest
      else s :: export_rows threshold rest
  end.

(** The action-queue loop (the JSON and the text report run the same
    loop): [for (i = 0; i < count && printed < limit; i++)]. *)
Fixpoint action_queue_from (lim : Z) (threshold : float) (scholars : list Scholar)
    (printed : Z) : list Scholar :=
  match scholars with
  | [] => []
  | s :: rest =>
      if printed <? lim then
        if (risk_score s <? threshold)%float
        then action_queue_from lim threshold rest printed
        else s :: action_queue_from lim threshold rest (printed + 1)
      else []
  end.

Definition action_queue (lim : Z) (threshold : float) (scholars : list Scholar)
  : list Scholar :=
  action_queue_from lim threshold scholars 0.

Inductive Outcome :=
| NoRecordsLoaded
    (* "No records loaded." on stderr, exit status 1 *)
| ExportFailed
    (* "Failed to write export" through perror, exit status 1 *)
| SummaryFailed (exported : option (list Scholar))
    (* "Failed to write summary" through perror, exit status 1; the
       export, when one was asked for, is already written *)
| Report (count : Z) (exported : option (list Scholar)) (queue : list Scholar)
    (no_match_line : bool).
    (* exit status 0; [no_match_line]: the text report printed
       "No scholars met the minimum risk threshold." *)

(** The export file of a run, once it could be opened. *)
Definition exported_rows (o : Options) (scholars : list Scholar)
  : option (list Scholar) :=
  if export o then Some (export_rows (min_risk o) scholars) else None.

(** A run of [main] from the point where the input file has been read:
    [rows] are its accepted lines, parsed. *)
Inductive main_run (o : Options) (fs : Files) (rows : list Scholar) : Outcome -> Prop :=
| run_no_records :
    load (cohort_filter o) rows = [] ->
    main_run o fs rows NoRecordsLoaded
| run_export_failed :
    load (cohort_filter o) rows <> [] ->
    export o = true -> export_opens fs = false ->
    main_run o fs rows ExportFailed
| run_summary_failed scholars :
    load (cohort_filter o) rows <> [] ->
    ranked (load (cohort_filter o) rows) scholars ->
    (export o = true -> export_opens fs = true) ->
    summary o = true -> summary_opens fs = false ->
    main_run o fs rows (SummaryFailed (exported_rows o scholars))
| run_report scholars :
    load (cohort_filter o) rows <> [] ->
    ranked (load (cohort_filter o) rows) scholars ->
    (export o = true -> export_opens fs = true) ->
    (summary o = true -> summary_opens fs = true) ->
    main_run o fs rows
      (Report (Z.of_nat (List.length scholars))
         (exported_rows o scholars)
         (action_queue (limit o) (min_risk o) scholars)
         (negb (json o) &&
          (List.length (action_queue (limit o) (min_risk o) scholars) =? 0)%nat)).

(** ** Input: trimming, field splitting and the reading loop *)

(** [isspace] in the "C" locale: space, and the controls \t \n \v \f \r. *)
Definition isspace (c : ascii) : bool :=
  let n := nat_of_ascii c in
  (n =? 32)%nat || ((9 <=? n)%nat && (n <=? 13)%nat).

(** [while ( *s && isspace ( *s)) s++;] *)
Fixpoint skip_space (s : list ascii) : list ascii :=
  match s with
  | [] => []
  | c :: rest => if isspace c then skip_space rest else s
  end.

(** [while (end > s && isspace ( *end)) end--;] with [end] an index into [s]. *)
Fixpoint scan_back (s : list ascii) (e : nat) : nat :=
  match e with
  | O => O
  | S e' => if isspace (nth e s Ascii.zero) then scan_back s e' else e
  end.

Definition trim_chars (s : list ascii) : list ascii :=
  let s := skip_space s in
  match s with
  | [] => s
  | _ :: _ =>
      let e := scan_back s (List.length s - 1) in
      firstn (S e) s
  end.

(** [trim] of a C string (a token of [strsep] holds no NUL). *)
Definition trim (s : string) : string :=
  string_of_list_ascii (trim_chars (list_ascii_of_string s)).

Definition MAX_FIELDS : nat := 16.

Definition NUL : ascii := Ascii.zero.

(** The C string held in a buffer: the characters before the first NUL. *)
Fixpoint c_string (buf : string) : string :=
  match buf with
  | EmptyString => EmptyString
  | String c rest => if Ascii.eqb c NUL then EmptyString else String c (c_string rest)
  end.

(** [strsep (&cursor, ",")] on a non-null cursor into a buffer: the token
    before the first comma and the new cursor behind it; the token ends
    at the end of the C string, and the cursor is null, when there is no
    comma. *)
Fixpoint strsep (s : string) : string * option string :=
  match s with
  | EmptyString => (EmptyString, None)
  | String c rest =>
      if Ascii.eqb c NUL then (EmptyString, None)
      else if Ascii.eqb c "," then (EmptyString, Some rest)
      else let '(token, cursor) := strsep rest in (String c token, cursor)
  end.

(** The field loop; [room] is [MAX_FIELDS - field_count]. *)
Fixpoint split_fields (room : nat) (cursor : option string) : list string :=
  match room with
  | O => []
  | S room' =>
      match cursor with
      | None => []
      | Some s =>
          let '(token, cursor') := strsep s in
          trim token :: split_fields room' cursor'
      end
  end.

Definition fields_of_line (line : string) : list string :=
  split_fields MAX_FIELDS (Some line).

(** [strstr (hay, needle) != NULL] for a needle without NUL: the search
    ends at the first NUL of the buffer [hay]. *)
Fixpoint contains (needle hay : string) : bool :=
  if String.prefix needle hay then true
  else match hay with
       | EmptyString => false
       | String c rest => if Ascii.eqb c NUL then false else contains needle rest
       end.

Fixpoint count_commas (s : string) : nat :=
  match s with
  | EmptyString => O
  | String c rest => if Ascii.eqb c "," then S (count_commas rest) else count_commas rest
  end.

(** The lines after an optional header. *)
Definition data_lines (lines : list string) : list string :=
  match lines with
  | first :: rest => if contains "scholar_id" first then rest else lines
  | [] => []
  end.

Definition accepted (line : string) : bool :=
  (10 <=? List.length (fields_of_line line))%nat.

Section Reader.

(** The C library's [atof] and [atoi]. *)
Variable atof : string -> float.
Variable atoi : string -> Z.

Definition parse_double (s : string) : float :=
  match s with
  | EmptyString => 0.0%float
  | _ => atof s
  end.

Definition parse_int (s : string) : Z :=
  match s with
  | EmptyString => 0
  | _ => atoi s
  end.

(** The record built from the first ten fields, before it is scored. *)
Definition scholar_of_fields (fields : list string) : Scholar :=
  let f i := nth i fields EmptyString in
  mkScholar (f 0%nat) (f 1%nat) (f 2%nat)
    (parse_double (f 3%nat)) (parse_double (f 4%nat)) (parse_double (f 5%nat))
    (parse_double (f 6%nat)) (parse_double (f 7%nat)) (parse_double (f 8%nat))
    (parse_int (f 9%nat)) 0.0.

(** The reading loop of [main]: [line_no] lines were read before [lines]. *)
Fixpoint read_lines (filter : option string) (line_no : Z) (lines : list string)
    (scholars : list Scholar) (skipped : Z) : list Scholar * Z :=
  match lines with
  | [] => (scholars, skipped)
  | line :: rest =>
      let line_no := line_no + 1 in
      if (line_no =? 1) && contains "scholar_id" line
      then read_lines filter line_no rest scholars skipped
      else
        let fields := fields_of_line line in
        if (List.length fields <? 10)%nat
        then read_lines filter line_no rest scholars (skipped + 1)
        else
          let s := scholar_of_fields fields in
          let s := with_risk s (compute_risk s) in
          match filter with
          | Some c =>
              if negb (cohort s =? c)%string
              then read_lines filter line_no rest scholars skipped
              else read_lines filter line_no rest (scholars ++ [s]) skipped
          | None => read_lines filter line_no rest (scholars ++ [s]) skipped
          end
  end.

Definition read_file (filter : option string) (lines : list string) : list Scholar * Z :=
  read_lines filter 0 lines [] 0.

(** The rows that reach scoring. *)
Definition rows_of (lines : list string) : list Scholar :=
  map (fun line => scholar_of_fields (fields_of_line line))
      (filter accepted (data_lines lines)).

End Reader.

(** ** Command line *)

Module Cli.

(** The option variables of [main]. *)
Record Args := mkArgs {
  path : option string;
  limit : Z;
  min_risk : float;
  json : bool;
  json_full : bool;
  drivers : bool;
  cohort_filter : option string;
  export_path : option string;
  summary_path : option string
}.

Definition initial : Args := mkArgs None 10 0.0 false false false None None None.

(** [argv[i][0] != '-'] *)
Definition positional (arg : string) : bool :=
  match arg with
  | String c _ => negb (Ascii.eqb c "-")
  | EmptyString => true
  end.

(** The branches that consume no value. *)
Definition flag (arg : string) (a : Args) : Args :=
  if (arg =? "-json")%string then
    mkArgs (path a) (limit a) (min_risk a) true (json_full a) (drivers a)
      (cohort_filter a) (export_path a) (summary_path a)
  else if (arg =? "-json-full")%string then
    mkArgs (path a) (limit a) (min_risk a) true true (drivers a)
      (cohort_filter a) (export_path a) (summary_path a)
  else if (arg =? "-drivers")%string then
    mkArgs (path a) (limit a) (min_risk a) (json a) (json_full a) true
      (cohort_filter a) (export_path a) (summary_path a)
  else if positional arg then
    mkArgs (Some arg) (limit a) (min_risk a) (json a) (json_full a) (drivers a)
      (cohort_filter a) (export_path a) (summary_path a)
  else a.

Section Parse.

Variable atof : string -> float.
Variable atoi : string -> Z.

(** The argument loop of [main], from [argv[1]] on. *)
Fixpoint parse_args (args : list string) (a : Args) : Args :=
  match args with
  | [] => a
  | arg :: rest =>
      match rest with
      | v :: rest' =>
          if (arg =? "-limit")%string then
            parse_args rest'
              (mkArgs (path a) (atoi v) (min_risk a) (json a) (json_full a) (drivers a)
                 (cohort_filter a) (export_path a) (summary_path a))
          else if (arg =? "-min-risk")%string then
            parse_args rest'
              (mkArgs (path a) (limit a) (parse_double atof v) (json a) (json_full a)
                 (drivers a) (cohort_filter a) (export_path a) (summary_path a))
          else if (arg =? "-cohort")%string then
            parse_args rest'
              (mkArgs (path a) (limit a) (min_risk a) (json a) (json_full a) (drivers a)
                 (Some v) (export_path a) (summary_path a))
          else if (arg =? "-export")%string then
            parse_args rest'
              (mkArgs (path a) (limit a) (min_risk a) (json a) (json_full a) (drivers a)
                 (cohort_filter a) (Some v) (summary_path a))
          else if (arg =? "-summary")%string then
            parse_args rest'
              (mkArgs (path a) (limit a) (min_risk a) (json a) (json_full a) (drivers a)
                 (cohort_filter a) (export_path a) (Some v))
          else parse_args rest (flag arg a)
      | [] => flag arg a
      end
  end.

End Parse.

End Cli.

(** ** Roll-up: totals, cohort means and cohort focus *)

(** The running totals of the aggregation loop of [main]. *)
Record Totals := mkTotals {
  total_risk : float;
  high_count : Z;
  medium_count : Z;
  low_count : Z;
  cohorts : list CohortSummary
}.

Definition count_record (t : Totals) (s : Scholar) : Totals :=
  let tier := risk_tier (risk_score s) in
  mkTotals (total_risk t + risk_score s)
    (if (tier =? "high")%string then high_count t + 1 else high_count t)
    (if (tier =? "high")%string then medium_count t
     else if (tier =? "medium")%string then medium_count t + 1 else medium_count t)
    (if (tier =? "high")%string then low_count t
     else if (tier =? "medium")%string then low_count t else low_count t + 1)
    (fold_record (cohorts t) s).

Definition summarize (scholars : list Scholar) : Totals :=
  fold_left count_record scholars (mkTotals 0.0 0 0 0 []).

(** [avg_risk = total_risk / (double)count] *)
Definition average_risk (scholars : list Scholar) : float :=
  (total_risk (summarize scholars) / double_of_int (Z.of_nat (List.length scholars)))%float.

(** [cs->avg_risk / (double)cs->total] *)
Definition cohort_mean (cs : CohortSummary) : float :=
  (avg_risk cs / double_of_int (total cs))%float.

Definition compare_cohort_avg_desc (ca cb : CohortSummary) : Z :=
  let avg_a := cohort_mean ca in
  let avg_b := cohort_mean cb in
  if (avg_a <? avg_b)%float then 1
  else if (avg_b <? avg_a)%float then -1
  else 0.

(** The [focus] array after [qsort], and the [focus_max] entries printed. *)
Definition focus_sorted (cohorts focus : list CohortSummary) : Prop :=
  qsort_post compare_cohort_avg_desc cohorts focus.

Definition focus_shown (focus : list CohortSummary) : list CohortSummary :=
  firstn 3 focus.

(** ** Notions used to state the properties *)

Definition in_int_range (n : Z) : bool := (int_min <=? n) && (n <=? int_max).

Definition finite_signals (s : Scholar) : bool :=
  is_finite (days_inactive s) && is_finite (attendance_rate s) &&
  is_finite (engagement_score s) && is_finite (gpa s) &&
  is_finite (last_contact_days s) && is_finite (survey_score s).

(** A record as the reading loop can build it from finite numbers. *)
Definition valid_record (s : Scholar) : bool :=
  finite_signals s && in_int_range (open_flags s).

(** [x] is a number (not a NaN). *)
Definition is_num (x : float) : bool := negb (is_nan x).

Definition numeric_signals (s : Scholar) : bool :=
  is_num (days_inactive s) && is_num (attendance_rate s) &&
  is_num (engagement_score s) && is_num (gpa s) &&
  is_num (last_contact_days s) && is_num (survey_score s).

(** The seven additive terms in declaration order. *)
Definition driver_terms (s : Scholar) : list Driver :=
  [ mkDriver "inactivity" (inactivity s);
    mkDriver "contact gap" (contact_gap s);
    mkDriver "attendance" (attendance s);
    mkDriver "engagement" (engagement s);
    mkDriver "gpa" (gpa_term s);
    mkDriver "survey" (survey s);
    mkDriver "open flags" (flags s) ].

(** Descending order of a key: no element has a smaller key than a later one. *)
Definition descending {A : Type} (key : A -> float) (l : list A) : Prop :=
  StronglySorted (fun a b => (key a <? key b)%float = false) l.

(** Stability: for every key, the elements carrying it come out in the
    order they went in. *)
Definition stable_order {A : Type} (key : A -> float) (input output : list A) : Prop :=
  forall k : float,
    filter (fun a => (key a =? k)%float) output
    = filter (fun a => (key a =? k)%float) input.

(** The decision list of the specification, first match wins. *)
Definition action_rules : list ((Scholar -> bool) * string) :=
  [ (fun s => (30.0 <=? days_inactive s)%float, "re-engage outreach"%string);
    (fun s => (attendance_rate s <? 70.0)%float, "attendance support"%string);
    (fun s => (gpa s <? 2.5)%float, "academic support"%string);
    (fun s => 0 <? open_flags s, "resolve open flags"%string);
    (fun s => (engagement_score s <? 60.0)%float, "engagement nudge"%string) ].

Fixpoint first_match (rules : list ((Scholar -> bool) * string)) (default : string)
    (s : Scholar) : string :=
  match rules with
  | [] => default
  | (applies, action) :: rest =>
      if applies s then action else first_match rest default s
  end.

(** Number of records of a cohort among those folded. *)
Definition cohort_size (n : string) (scholars : list Scholar) : Z :=
  Z.of_nat (List.length (filter (fun s => (cohort s =? n)%string) scholars)).

(** One signal changed, all else fixed. *)
Definition with_days_inactive (s : Scholar) (v : float) : Scholar :=
  mkScholar (id s) (name s) (cohort s) v (attendance_rate s)
    (engagement_score s) (gpa s) (last_contact_days s) (survey_score s)
    (open_flags s) (risk_score s).
Definition with_attendance_rate (s : Scholar) (v : float) : Scholar :=
  mkScholar (id s) (name s) (cohort s) (days_inactive s) v
    (engagement_score s) (gpa s) (last_contact_days s) (survey_score s)
    (open_flags s) (risk_score s).
Definition with_engagement_score (s : Scholar) (v : float) : Scholar :=
  mkScholar (id s) (name s) (cohort s) (days_inactive s) (attendance_rate s)
    v (gpa s) (last_contact_days s) (survey_score s)
    (open_flags s) (risk_score s).
Definition with_gpa (s : Scholar) (v : float) : Scholar :=
  mkScholar (id s) (name s) (cohort s) (days_inactive s) (attendance_rate s)
    (engagement_score s) v (last_contact_days s) (survey_score s)
    (open_flags s) (risk_score s).
Definition with_last_contact_days (s : Scholar) (v : float) : Scholar :=
  mkScholar (id s) (name s) (cohort s) (days_inactive s) (attendance_rate s)
    (engagement_score s) (gpa s) v (survey_score s)
    (open_flags s) (risk_score s).
Definition with_survey_score (s : Scholar) (v : float) : Scholar :=
  mkScholar (id s) (name s) (cohort s) (days_inactive s) (attendance_rate s)
    (engagement_score s) (gpa s) (last_contact_days s) v
    (open_flags s) (risk_score s).
Definition with_open_flags (s : Scholar) (n : Z) : Scholar :=
  mkScholar (id s) (name s) (cohort s) (days_inactive s) (attendance_rate s)
    (engagement_score s) (gpa s) (last_contact_days s) (survey_score s)
    n (risk_score s).

(** A record whose signals are numbers, possibly infinite. *)
Definition numeric_record (s : Scholar) : bool :=
  numeric_signals s && in_int_range (open_flags s).

(** The materiality test of [format_drivers]. *)
Definition material (d : Driver) : bool := (0.1 <? value d)%float.

(** The threshold test shared by the export and the action queue. *)
(** A row that the cohort filter drops. *)
Definition excluded (filter : option string) (row : Scholar) : bool :=
  match filter with
  | Some c => negb (cohort row =? c)%string
  | None => false
  end.

Definition at_or_above (threshold : float) (s : Scholar) : bool :=
  negb (risk_score s <? threshold)%float.

(** The running sum of [compute_risk], as a function of its seven terms. *)
Definition risk_sum (t1 t2 t3 t4 t5 t6 t7 : float) : float :=
  (0.0 + t1 + t2 + t3 + t4 + t5 + t6 + t7)%float.

(** One aggregation step by recursion on the summaries: what
    [fold_record] computes through an index. *)
Fixpoint tally (n : string) (r : float) (cohorts : list CohortSummary)
  : list CohortSummary :=
  match cohorts with
  | [] => [add_record r (mkCohortSummary n 0 0 0 0 0.0)]
  | cs :: rest =>
      if (cs_name cs =? n)%string then add_record r cs :: rest
      else cs :: tally n r rest
  end.

Definition summary_ok (l : list Scholar) (cs : CohortSummary) : Prop :=
  high cs + medium cs + low cs = total cs /\
  total cs = cohort_size (cs_name cs) l.

(** Invariant of the aggregation loop after the records [l]. *)
Definition agg_inv (l : list Scholar) (cohorts : list CohortSummary) : Prop :=
  NoDup (map cs_name cohorts) /\
  Forall (summary_ok l) cohorts /\
  (forall s, In s l -> In (cohort s) (map cs_name cohorts)).

(** Sample records. *)
Definition sample (c : string) (d a e g l v : float) (f : Z) : Scholar :=
  mkScholar "S-001" "Sample Scholar" c d a e g l v f 0.0.

Definition example_record : Scholar := sample "alpha" 40 50 80 3.0 10 90 1.

(** Two rows with the same signals, in this input order. *)
Definition row_a : Scholar :=
  mkScholar "A-1" "Ada" "alpha" 40 50 80 3.0 10 90 1 0.0.
Definition row_b : Scholar :=
  mkScholar "B-2" "Bo" "alpha" 40 50 80 3.0 10 90 1 0.0.

(** A row that scores 82.5, one that scores 0, and one whose
    days_inactive is NaN (the field reads "nan"). *)
Definition row_c : Scholar :=
  mkScholar "C-3" "Cy" "beta" 60 50 80 3.0 10 90 1 0.0.
Definition row_zero : Scholar :=
  mkScholar "Z-0" "Zed" "gamma" 0 100 100 4.0 0 100 0 0.0.
Definition row_nan : Scholar :=
  mkScholar "N-9" "Nan" "gamma" nan 100 100 4.0 0 100 0 0.0.

(** A record whose inactivity and open-flags terms are both 6.0. *)
Definition tied_record : Scholar := sample "alpha" 10 100 100 4.0 0 100 1.

(** A cohort filter that matches no sample row. *)
Definition other_cohort_options : Options :=
  mkOptions 10 0.0 (Some "beta"%string) false false false.

(** A threshold no sample row reaches. *)
Definition strict_options : Options :=
  mkOptions 10 99.0 None false false false.

(** An export and a summary are asked for; three of the four sample rows
    reach the threshold; the limit leaves room, or cuts the queue. *)
Definition sample_rows : list Scholar := [row_a; row_zero; row_c; row_b].

(** Rows that score 0, NaN and 82.5, in this input order. *)
Definition nan_rows : list Scholar := [row_zero; row_nan; row_c].
Definition roomy_options : Options := mkOptions 5 50.0 None true true false.
Definition tight_options : Options := mkOptions 2 50.0 None true true false.

Definition open_files : Files := mkFiles true true.

(** The sample rows as [main] ranks them with the merge sort. *)
Definition sample_ranked : list Scholar :=
  msort compare_risk_desc (load None sample_rows).

(** A row that scores 27, in a fourth cohort, and the summaries of four
    cohorts whose means are 82.5, 70.5, 27 and 0. *)
Definition row_d : Scholar :=
  mkScholar "D-4" "Di" "delta" 20 90 90 3.5 5 95 0 0.0.
Definition sample_cohorts : list CohortSummary :=
  aggregate (msort compare_risk_desc (load None [row_a; row_zero; row_c; row_d; row_b])).

(** Number of records of cohort [n] whose tier is [t]. *)
Definition tier_size (n t : string) (scholars : list Scholar) : Z :=
  Z.of_nat (List.length
    (filter (fun s => (cohort s =? n)%string && (risk_tier (risk_score s) =? t)%string)
       scholars)).

(** The risk scores of cohort [n], in input order. *)
Definition cohort_scores (n : string) (scholars : list Scholar) : list float :=
  map risk_score (filter (fun s => (cohort s =? n)%string) scholars).

(** Left-to-right binary64 sum, starting from 0.0. *)
Definition float_sum (l : list float) : float := fold_left PrimFloat.add l 0.0%float.

(** The distinct names of a sequence, each at its first occurrence. *)
Fixpoint first_seen (seen names : list string) : list string :=
  match names with
  | [] => seen
  | n :: rest =>
      if existsb (String.eqb n) seen then first_seen seen rest
      else first_seen (seen ++ [n]) rest
  end.

Definition summary_exact (l : list Scholar) (cs : CohortSummary) : Prop :=
  high cs = tier_size (cs_name cs) "high" l /\
  medium cs = tier_size (cs_name cs) "medium" l /\
  low cs = tier_size (cs_name cs) "low" l /\
  avg_risk cs = float_sum (cohort_scores (cs_name cs) l) /\
  1 <= total cs.

Definition sum_of (f : CohortSummary -> Z) (l : list CohortSummary) : Z :=
  fold_right (fun cs acc => f cs + acc) 0 l.

Definition score_in_range (r : float) : bool := ((0 <=? r) && (r <=? 100))%float.

Definition all_space (s : string) : bool :=
  forallb isspace (list_ascii_of_string s).

(** The shape shared by the three comparators handed to [qsort]. *)
Definition compare_desc {A : Type} (key : A -> float) (a b : A) : Z :=
  if (key a <? key b)%float then 1
  else if (key b <? key a)%float then -1
  else 0.

(** What [qsort] asks of a comparator on the elements it is given. *)
Definition consistent_on {A : Type} (P : A -> Prop) (cmp : A -> A -> Z) : Prop :=
  (forall a b, cmp a b = - cmp b a) /\
  (forall a b c, P a -> P b -> P c -> cmp a b <= 0 -> cmp b c <= 0 -> cmp a c <= 0) /\
  (forall a b c, P a -> P b -> P c -> cmp a b = 0 -> cmp b c = 0 -> cmp a c = 0).

(** ** Binary64 arithmetic on a common integer scale

    Every finite binary64 value is an integer multiple of [2 ^ -1074], and
    every exact product of two of them a multiple of [2 ^ -2148].  A value
    [v] is represented by the integer [v * 2 ^ 2148]; the infinities by
    [+- INF]. *)

(** [m / 2 ^ n] rounded to the nearest integer, ties to even. *)
Definition rne_shift (m n : Z) : Z :=
  if n <=? 0 then m
  else
    let q := m / 2 ^ n in
    match (m mod 2 ^ n) ?= 2 ^ (n - 1) with
    | Lt => q
    | Gt => q + 1
    | Eq => if Z.even q then q else q + 1
    end.

(** Exponent of the unit in the last place of [N], on the common scale. *)
Definition grid (N : Z) : Z := Z.max (Z.log2 N + 1 - 53) 1074.

Definition INF : Z := 2 ^ 3172.

Definition round_pos (N : Z) : Z :=
  Z.min (rne_shift N (grid N) * 2 ^ grid N) INF.

(** Rounding to nearest-even binary64, overflow to infinity. *)
Definition ROUND (N : Z) : Z :=
  match N with
  | Z0 => 0
  | Zpos _ => round_pos N
  | Zneg p => - round_pos (Zpos p)
  end.

(** Closed form of [n] applications of [shr_1] to an exact mantissa. *)
Definition shr_closed (m n : Z) : shr_record :=
  {| shr_m := m / 2 ^ n;
     shr_r := Z.odd (m / 2 ^ (n - 1));
     shr_s := negb (m mod 2 ^ (n - 1) =? 0) |}.

(** Scaled value of a [spec_float]. *)
Definition V (x : spec_float) : Z :=
  match x with
  | S754_zero _ => 0
  | S754_infinity s => cond_Zopp s INF
  | S754_nan => 0
  | S754_finite s m e => cond_Zopp s (Zpos m * 2 ^ (e + 2148))
  end.

Definition sf_finite (x : spec_float) : bool :=
  match x with
  | S754_zero _ | S754_finite _ _ _ => true
  | _ => false
  end.

Definition sf_num (x : spec_float) : bool :=
  match x with
  | S754_nan => false
  | _ => true
  end.

(** Scaled value of a [double]. *)
Definition FV (x : float) : Z := V (Prim2SF x).

(** Two extra mantissa bits that stand for the position of a remainder. *)
Definition loc_code (l : location) : Z :=
  match l with
  | loc_Exact => 0
  | loc_Inexact Lt => 1
  | loc_Inexact Eq => 2
  | loc_Inexact Gt => 3
  end.

Create HintDb b64.
#[global] Hint Resolve Prim2SF_valid : b64.

(** ** Integer rounding *)

Lemma rne_shift_bounds m n :
  0 < n -> m / 2 ^ n <= rne_shift m n <= m / 2 ^ n + 1.
Proof.
  intros Hn. unfold rne_shift.
  destruct (Z.leb_spec n 0); [lia|].
  destruct (_ ?= _); [destruct (Z.even _)|..]; lia.
Qed.

Lemma rne_shift_mono m1 m2 n :
  0 <= m1 <= m2 -> rne_shift m1 n <= rne_shift m2 n.
Proof.
  intros Hm. unfold rne_shift.
  destruct (Z.leb_spec n 0); [lia|].
  assert (Hp : 0 < 2 ^ n) by (apply Z.pow_pos_nonneg; lia).
  assert (Hh : 2 ^ n = 2 * 2 ^ (n - 1)).
  { rewrite <- Z.pow_succ_r by lia. f_equal. lia. }
  pose proof (Z.div_le_mono m1 m2 (2 ^ n) Hp (proj2 Hm)) as Hq.
  pose proof (Z.div_mod m1 (2 ^ n) ltac:(lia)) as E1.
  pose proof (Z.div_mod m2 (2 ^ n) ltac:(lia)) as E2.
  pose proof (Z.mod_pos_bound m1 (2 ^ n) Hp) as B1.
  pose proof (Z.mod_pos_bound m2 (2 ^ n) Hp) as B2.
  set (q1 := m1 / 2 ^ n) in *. set (q2 := m2 / 2 ^ n) in *.
  set (r1 := m1 mod 2 ^ n) in *. set (r2 := m2 mod 2 ^ n) in *.
  set (h := 2 ^ (n - 1)) in *. set (P := 2 ^ n) in *.
  destruct (Z.eq_dec q1 q2) as [Heq|Hne].
  - rewrite <- Heq in *. assert (r1 <= r2) by nia.
    destruct (Z.compare_spec r1 h), (Z.compare_spec r2 h);
      destruct (Z.even q1); lia.
  - assert (q1 + 1 <= q2) by lia.
    destruct (Z.compare_spec r1 h), (Z.compare_spec r2 h);
      destruct (Z.even q1), (Z.even q2); lia.
Qed.

Lemma rne_shift_exact m n : 0 <= n -> rne_shift (m * 2 ^ n) n = m.
Proof.
  intros Hn. unfold rne_shift.
  destruct (Z.leb_spec n 0).
  - replace n with 0 by lia. simpl. lia.
  - assert (Hp : 0 < 2 ^ n) by (apply Z.pow_pos_nonneg; lia).
    rewrite Z.div_mul by lia. rewrite Z.mod_mul by lia.
    assert (0 < 2 ^ (n - 1)) by (apply Z.pow_pos_nonneg; lia).
    destruct (Z.compare_spec 0 (2 ^ (n - 1))); lia.
Qed.

Lemma rne_shift_scale m n j :
  0 <= j -> 0 <= n -> rne_shift (m * 2 ^ j) (n + j) = rne_shift m n.
Proof.
  intros Hj Hn.
  destruct (Z.eq_dec n 0) as [->|Hn0].
  { simpl. rewrite rne_shift_exact by lia. unfold rne_shift. reflexivity. }
  unfold rne_shift.
  destruct (Z.leb_spec (n + j) 0); [lia|].
  destruct (Z.leb_spec n 0); [lia|].
  assert (Hpj : 0 < 2 ^ j) by (apply Z.pow_pos_nonneg; lia).
  assert (Hpn : 0 < 2 ^ n) by (apply Z.pow_pos_nonneg; lia).
  rewrite Z.pow_add_r by lia.
  rewrite (Z.mul_comm (2 ^ n) (2 ^ j)).
  rewrite (Z.mul_comm m (2 ^ j)).
  rewrite Z.div_mul_cancel_l by lia.
  rewrite Z.mul_mod_distr_l by lia.
  replace (n + j - 1) with (j + (n - 1)) by lia.
  rewrite Z.pow_add_r by lia.
  rewrite <- Zmult_compare_compat_l by lia. reflexivity.
Qed.

Lemma log2_bounds N : 0 <= N -> N < 2 ^ (Z.log2 N + 1) /\ (0 < N -> 2 ^ Z.log2 N <= N).
Proof.
  intros HN. destruct (Z.eq_dec N 0) as [->|Hne].
  - simpl. lia.
  - pose proof (Z.log2_spec N ltac:(lia)). replace (Z.log2 N + 1) with (Z.succ (Z.log2 N)) by lia. lia.
Qed.

Lemma grid_ge N : 1074 <= grid N.
Proof. unfold grid. lia. Qed.

Lemma grid_mono N1 N2 : 0 <= N1 <= N2 -> grid N1 <= grid N2.
Proof.
  intros H. unfold grid.
  pose proof (Z.log2_le_mono N1 N2 ltac:(lia)). lia.
Qed.

Lemma rne_shift_small N f : 0 <= N < 2 ^ (f - 1) -> 0 < f -> rne_shift N f = 0.
Proof.
  intros HN Hf. unfold rne_shift.
  destruct (Z.leb_spec f 0); [lia|].
  assert (2 ^ f = 2 * 2 ^ (f - 1)).
  { rewrite <- Z.pow_succ_r by lia. f_equal. lia. }
  rewrite Z.div_small by lia. rewrite Z.mod_small by lia.
  destruct (Z.compare_spec N (2 ^ (f - 1))); lia.
Qed.

Lemma rne_shift_nonneg m n : 0 <= m -> 0 <= rne_shift m n.
Proof.
  intros Hm. unfold rne_shift.
  destruct (Z.leb_spec n 0); [lia|].
  assert (0 < 2 ^ n) by (apply Z.pow_pos_nonneg; lia).
  pose proof (Z.div_pos m (2 ^ n) Hm ltac:(lia)).
  destruct (_ ?= _); [destruct (Z.even _)|..]; lia.
Qed.

Lemma round_pos_mono N1 N2 : 0 <= N1 <= N2 -> round_pos N1 <= round_pos N2.
Proof.
  intros H. unfold round_pos.
  apply Z.min_le_compat_r.
  pose proof (grid_mono _ _ H) as Hg.
  pose proof (grid_ge N1) as G1. pose proof (grid_ge N2) as G2.
  destruct (Z.eq_dec (grid N1) (grid N2)) as [E|NE].
  - rewrite E. apply Z.mul_le_mono_nonneg_r.
    + apply Z.pow_nonneg; lia.
    + apply rne_shift_mono; lia.
  - assert (Hlt : grid N1 < grid N2) by lia.
    set (k1 := Z.log2 N1 + 1). set (k2 := Z.log2 N2 + 1).
    pose proof (Z.log2_nonneg N1). pose proof (Z.log2_nonneg N2).
    assert (Hf2 : grid N2 = k2 - 53) by (unfold grid in *; subst k2; lia).
    assert (Hk : k1 < k2) by (unfold grid in *; subst k1 k2; lia).
    assert (HN1 : N1 < 2 ^ k1) by (apply log2_bounds; lia).
    assert (HN2 : 2 ^ (k2 - 1) <= N2).
    { assert (0 < N2).
      { destruct (Z.eq_dec N2 0) as [E0|]; [|lia].
        subst N2. assert (N1 = 0) by lia. subst N1. lia. }
      replace (k2 - 1) with (Z.log2 N2) by (subst k2; lia).
      apply log2_bounds; lia. }
    apply Z.le_trans with (2 ^ (k2 - 1)).
    + apply Z.le_trans with (2 ^ k1).
      * destruct (Z_lt_le_dec k1 (grid N1)) as [Hs|Hs].
        -- rewrite rne_shift_small; [| |lia].
           ++ simpl. apply Z.pow_nonneg; lia.
           ++ split; [lia|]. eapply Z.lt_le_trans; [exact HN1|].
              apply Z.pow_le_mono_r; lia.
        -- replace (2 ^ k1) with (rne_shift (2 ^ (k1 - grid N1) * 2 ^ grid N1) (grid N1) * 2 ^ grid N1).
           ++ apply Z.mul_le_mono_nonneg_r; [apply Z.pow_nonneg; lia|].
              apply rne_shift_mono. rewrite <- Z.pow_add_r by lia.
              replace (k1 - grid N1 + grid N1) with k1 by lia. lia.
           ++ rewrite rne_shift_exact by lia. rewrite <- Z.pow_add_r by lia.
              f_equal. lia.
      * apply Z.pow_le_mono_r; lia.
    + replace (2 ^ (k2 - 1)) with (rne_shift (2 ^ (k2 - 1 - grid N2) * 2 ^ grid N2) (grid N2) * 2 ^ grid N2).
      * apply Z.mul_le_mono_nonneg_r; [apply Z.pow_nonneg; lia|].
        apply rne_shift_mono. rewrite <- Z.pow_add_r by lia.
        replace (k2 - 1 - grid N2 + grid N2) with (k2 - 1) by lia.
        split; [apply Z.pow_nonneg; lia | lia].
      * rewrite rne_shift_exact by lia. rewrite <- Z.pow_add_r by lia.
        f_equal. lia.
Qed.

Lemma round_pos_nonneg N : 0 <= N -> 0 <= round_pos N.
Proof.
  intros H. unfold round_pos. apply Z.min_glb.
  - apply Z.mul_nonneg_nonneg; [apply rne_shift_nonneg; lia | apply Z.pow_nonneg; lia].
  - unfold INF. apply Z.pow_nonneg; lia.
Qed.

Lemma ROUND_mono N1 N2 : N1 <= N2 -> ROUND N1 <= ROUND N2.
Proof.
  intros H. destruct N1 as [|p1|p1], N2 as [|p2|p2]; simpl; try lia.
  - apply round_pos_nonneg; lia.
  - apply round_pos_mono; lia.
  - pose proof (round_pos_nonneg (Z.pos p1)); lia.
  - pose proof (round_pos_nonneg (Z.pos p1)); pose proof (round_pos_nonneg (Z.pos p2)); lia.
  - pose proof (round_pos_mono (Z.pos p2) (Z.pos p1)); lia.
Qed.

Lemma ROUND_opp N : ROUND (- N) = - ROUND N.
Proof. destruct N; simpl; lia. Qed.

Lemma round_pos_id M N :
  0 <= N -> N = M * 2 ^ grid N -> N < INF -> round_pos N = N.
Proof.
  intros HN E Hlt. unfold round_pos.
  rewrite E at 1. rewrite rne_shift_exact by (pose proof (grid_ge N); lia).
  rewrite <- E. lia.
Qed.

(** ** The shift-right loop of [SpecFloat] *)

Lemma digits2_log2 p : Zpos (digits2_pos p) = Z.log2 (Zpos p) + 1.
Proof.
  assert (H : forall q, digits2_pos q = Pos.size q).
  { induction q; simpl; congruence. }
  destruct p; simpl; rewrite ?H; lia.
Qed.

Lemma iter_pos_nat {A} (f : A -> A) p x :
  iter_pos f p x = Nat.iter (Pos.to_nat p) f x.
Proof.
  revert x. induction p as [p IH|p IH|]; intros x; cbn [iter_pos].
  - rewrite !IH. rewrite Pos2Nat.inj_xI.
    replace (S (2 * Pos.to_nat p)) with (Pos.to_nat p + (Pos.to_nat p + 1))%nat by lia.
    rewrite !Nat.iter_add. simpl. reflexivity.
  - rewrite !IH. rewrite Pos2Nat.inj_xO.
    replace (2 * Pos.to_nat p)%nat with (Pos.to_nat p + Pos.to_nat p)%nat by lia.
    rewrite Nat.iter_add. reflexivity.
  - reflexivity.
Qed.

Lemma shr_1_nonneg m r s :
  0 <= m ->
  shr_1 (Build_shr_record m r s) = Build_shr_record (m / 2) (Z.odd m) (r || s).
Proof.
  intros Hm. destruct m as [|p|p]; [reflexivity| |lia].
  destruct p; simpl shr_1; f_equal.
  - rewrite Pos2Z.inj_xI. rewrite Z.mul_comm, Z.div_add_l by lia.
    change (1 / 2) with 0. lia.
  - rewrite Pos2Z.inj_xO. rewrite Z.mul_comm, Z.div_mul by lia. reflexivity.
Qed.

Lemma shr_closed_first m : 0 <= m ->
  shr_1 (Build_shr_record m false false) = shr_closed m 1.
Proof.
  intros Hm. rewrite shr_1_nonneg by assumption. unfold shr_closed. simpl.
  rewrite Z.div_1_r, Z.mod_1_r. reflexivity.
Qed.

Lemma shr_closed_step m n : 0 <= m -> 1 <= n ->
  shr_1 (shr_closed m n) = shr_closed m (n + 1).
Proof.
  intros Hm Hn. unfold shr_closed.
  assert (Hp : 0 < 2 ^ n) by (apply Z.pow_pos_nonneg; lia).
  assert (Hp1 : 0 < 2 ^ (n - 1)) by (apply Z.pow_pos_nonneg; lia).
  rewrite shr_1_nonneg by (apply Z.div_pos; lia).
  replace (n + 1 - 1) with n by lia.
  f_equal.
  - rewrite Z.div_div by lia. rewrite Z.pow_add_r by lia. reflexivity.
  - replace (2 ^ n) with (2 ^ (n - 1) * 2).
    2:{ rewrite Z.mul_comm, <- Z.pow_succ_r by lia. f_equal; lia. }
    rewrite Z.rem_mul_r by lia.
    rewrite Zodd_mod.
    pose proof (Z.mod_pos_bound (m / 2 ^ (n - 1)) 2 ltac:(lia)) as B.
    pose proof (Z.mod_pos_bound m (2 ^ (n - 1)) ltac:(lia)) as B'.
    set (b := (m / 2 ^ (n - 1)) mod 2) in *.
    set (l := m mod 2 ^ (n - 1)) in *.
    destruct (Z.eqb_spec b 1), (Z.eqb_spec l 0), (Z.eqb_spec (l + 2 ^ (n - 1) * b) 0);
      simpl; try reflexivity; try nia.
Qed.

Lemma shr_iter m n : 0 <= m ->
  Nat.iter (S n) shr_1 (Build_shr_record m false false) = shr_closed m (Z.of_nat (S n)).
Proof.
  intros Hm. induction n as [|n IH].
  - simpl Nat.iter. apply shr_closed_first; assumption.
  - change (Nat.iter (S (S n)) shr_1 ?x) with (shr_1 (Nat.iter (S n) shr_1 x)).
    rewrite IH. rewrite shr_closed_step by lia. f_equal. lia.
Qed.

Lemma rne_closed m n : 0 <= m -> 1 <= n ->
  round_nearest_even (shr_m (shr_closed m n)) (loc_of_shr_record (shr_closed m n))
  = rne_shift m n.
Proof.
  intros Hm Hn. unfold shr_closed, rne_shift. simpl shr_m.
  destruct (Z.leb_spec n 0); [lia|].
  assert (Hp1 : 0 < 2 ^ (n - 1)) by (apply Z.pow_pos_nonneg; lia).
  replace (2 ^ n) with (2 ^ (n - 1) * 2).
  2:{ rewrite Z.mul_comm, <- Z.pow_succ_r by lia. f_equal; lia. }
  rewrite Z.rem_mul_r by lia.
  rewrite Zodd_mod.
  pose proof (Z.mod_pos_bound (m / 2 ^ (n - 1)) 2 ltac:(lia)) as B.
  pose proof (Z.mod_pos_bound m (2 ^ (n - 1)) ltac:(lia)) as B'.
  set (b := (m / 2 ^ (n - 1)) mod 2) in *.
  set (l := m mod 2 ^ (n - 1)) in *.
  set (h := 2 ^ (n - 1)) in *.
  unfold loc_of_shr_record.
  destruct (Z.eqb_spec b 1), (Z.eqb_spec l 0), (Z.compare_spec (l + h * b) h);
    simpl; try reflexivity; try nia.
Qed.

Lemma shr_spec m e n : 0 <= m ->
  exists rec, shr (Build_shr_record m false false) e n = (rec, e + Z.max n 0)
    /\ shr_m rec = m / 2 ^ Z.max n 0
    /\ round_nearest_even (shr_m rec) (loc_of_shr_record rec) = rne_shift m n.
Proof.
  intros Hm. destruct n as [|q|q].
  - eexists; split; [simpl; f_equal; lia|]. simpl. rewrite Z.div_1_r. split; reflexivity.
  - eexists; split; [unfold shr; f_equal; lia|].
    rewrite iter_pos_nat.
    destruct (Pos.to_nat q) as [|k] eqn:Ek; [lia|].
    rewrite shr_iter by assumption.
    replace (Z.max (Z.pos q) 0) with (Z.of_nat (S k)) by lia.
    split; [reflexivity|].
    rewrite rne_closed by lia. f_equal. lia.
  - eexists; split; [simpl; f_equal; lia|]. simpl. rewrite Z.div_1_r. split; reflexivity.
Qed.

(** ** [binary_round_aux] rounds to nearest-even *)

Lemma pow_bound_lt M a b c :
  M < 2 ^ a -> a + b <= c -> 0 <= a -> 0 <= b -> M * 2 ^ b < 2 ^ c.
Proof.
  intros HM Hc Ha Hb.
  assert (0 < 2 ^ b) by (apply Z.pow_pos_nonneg; lia).
  apply Z.lt_le_trans with (2 ^ a * 2 ^ b); [nia|].
  rewrite <- Z.pow_add_r by lia. apply Z.pow_le_mono_r; lia.
Qed.

Lemma pow_bound_ge M a b c :
  2 ^ a <= M -> c <= a + b -> 0 <= a -> 0 <= b -> 2 ^ c <= M * 2 ^ b.
Proof.
  intros HM Hc Ha Hb.
  assert (0 < 2 ^ b) by (apply Z.pow_pos_nonneg; lia).
  apply Z.le_trans with (2 ^ a * 2 ^ b); [|nia].
  rewrite <- Z.pow_add_r by lia. apply Z.pow_le_mono_r; lia.
Qed.

Lemma fexp_eq k : fexp prec emax k = Z.max (k - 53) (-1074).
Proof. reflexivity. Qed.

Lemma log2_mul_pow2 m j : 0 < m -> 0 <= j -> Z.log2 (m * 2 ^ j) = Z.log2 m + j.
Proof. intros. rewrite Z.log2_mul_pow2; lia. Qed.

Lemma bra_spec s p e :
  e <= fexp prec emax (Zpos (digits2_pos p) + e) -> -2148 <= e ->
  binary_round_aux prec emax s (Zpos p) e loc_Exact <> S754_nan /\
  V (binary_round_aux prec emax s (Zpos p) e loc_Exact)
  = cond_Zopp s (round_pos (Zpos p * 2 ^ (e + 2148))).
Proof.
  intros Hal He.
  unfold binary_round_aux, shr_fexp. cbn [Zdigits2 shr_record_of_loc].
  rewrite digits2_log2 in *. rewrite fexp_eq in *.
  set (d := Z.log2 (Z.pos p) + 1) in *.
  pose proof (log2_bounds (Z.pos p) ltac:(lia)) as [Hpu Hpl].
  specialize (Hpl ltac:(lia)). fold d in Hpu.
  replace (Z.log2 (Z.pos p)) with (d - 1) in Hpl by (subst d; lia).
  assert (Hd : 1 <= d) by (subst d; pose proof (Z.log2_nonneg (Z.pos p)); lia).
  set (f := Z.max (d + e - 53) (-1074)) in *.
  set (n := f - e).
  destruct (shr_spec (Z.pos p) e n ltac:(lia)) as (rec & E & Hm & Hr).
  rewrite E, Hr. clear E Hr Hm rec.
  replace (e + Z.max n 0) with f by lia.
  (* the rounded value on the common scale *)
  assert (HN : round_pos (Z.pos p * 2 ^ (e + 2148))
               = Z.min (rne_shift (Z.pos p) n * 2 ^ (f + 2148)) INF).
  { unfold round_pos, grid. rewrite log2_mul_pow2 by lia.
    replace (Z.max (Z.log2 (Z.pos p) + (e + 2148) + 1 - 53) 1074) with (n + (e + 2148))
      by (subst n f d; lia).
    rewrite rne_shift_scale by lia. f_equal. f_equal. f_equal. lia. }
  rewrite HN. clear HN.
  set (M := rne_shift (Z.pos p) n).
  assert (HM0 : 0 <= M) by (apply rne_shift_nonneg; lia).
  (* bounds on the rounded mantissa *)
  assert (HMub : 0 < M -> n <= d /\ M <= 2 ^ (d - n)).
  { intros HMpos. destruct (Z_lt_le_dec d n) as [Hdn|Hdn].
    - exfalso. subst M. rewrite rne_shift_small in HMpos; [lia| |lia].
      split; [lia|]. eapply Z.lt_le_trans; [exact Hpu|]. apply Z.pow_le_mono_r; lia.
    - split; [lia|]. destruct (Z.eq_dec n 0) as [En|En].
      + subst M. rewrite En. unfold rne_shift. simpl. rewrite Z.sub_0_r. lia.
      + pose proof (rne_shift_bounds (Z.pos p) n ltac:(lia)) as B. fold M in B.
        assert (Z.pos p / 2 ^ n < 2 ^ (d - n)).
        { apply Z.div_lt_upper_bound; [apply Z.pow_pos_nonneg; lia|].
          rewrite <- Z.pow_add_r by lia. replace (n + (d - n)) with d by lia. lia. }
        lia. }
  assert (HMlb : n < d -> 2 ^ (d - 1 - n) <= M).
  { intros Hnd. destruct (Z.eq_dec n 0) as [En|En].
    - subst M. rewrite En. unfold rne_shift. simpl. rewrite Z.sub_0_r. lia.
    - pose proof (rne_shift_bounds (Z.pos p) n ltac:(lia)) as B. fold M in B.
      assert (2 ^ (d - 1 - n) <= Z.pos p / 2 ^ n).
      { apply Z.div_le_lower_bound; [apply Z.pow_pos_nonneg; lia|].
        rewrite <- Z.pow_add_r by lia. replace (n + (d - 1 - n)) with (d - 1) by lia. lia. }
      lia. }
  destruct (Z.eq_dec M 0) as [EM|NM].
  { rewrite EM. cbn [Zdigits2 shr_record_of_loc].
    destruct (shr_spec 0 f (fexp prec emax (0 + f) - f) ltac:(lia)) as (rec2 & E2 & Hm2 & _).
    rewrite E2, Hm2. rewrite Z.div_0_l by (apply Z.pow_nonzero; lia).
    split; [discriminate|]. destruct s; reflexivity. }
  assert (HMpos : 0 < M) by lia.
  destruct (HMub HMpos) as [Hnd HMle].
  pose proof (log2_bounds M ltac:(lia)) as [HMu HMl]. specialize (HMl HMpos).
  pose proof (Z.log2_nonneg M) as HlM.
  assert (HdM : Z.log2 M + 1 <= d - n + 1).
  { destruct (Z_lt_le_dec (d - n + 1) (Z.log2 M + 1)); [|lia].
    exfalso. assert (2 ^ (d - n + 1) <= 2 ^ Z.log2 M) by (apply Z.pow_le_mono_r; lia).
    assert (2 ^ (d - n) < 2 ^ (d - n + 1)) by (apply Z.pow_lt_mono_r; lia). lia. }
  assert (HZd : Zdigits2 M = Z.log2 M + 1).
  { destruct M as [|q|q]; try lia. cbn [Zdigits2]. apply digits2_log2. }
  rewrite HZd.
  set (n2 := Z.max (Z.log2 M + 1 + f - 53) (-1074) - f).
  destruct (shr_spec M f n2 HM0) as (rec2 & E2 & Hm2 & _).
  assert (Hrec : Build_shr_record M false false = shr_record_of_loc M loc_Exact) by reflexivity.
  rewrite fexp_eq. fold n2. rewrite E2, Hm2. clear E2 Hm2 rec2 Hrec.
  assert (Hn2 : n2 <= 1) by (subst n2 f n; lia).
  destruct (Z_le_gt_dec n2 0) as [Hn2'|Hn2'].
  - (* no renormalisation *)
    replace (Z.max n2 0) with 0 by lia. rewrite Z.div_1_r, Z.add_0_r.
    assert (HM53 : M < 2 ^ 53).
    { eapply Z.lt_le_trans; [exact HMu|]. apply Z.pow_le_mono_r; subst n2 f n; lia. }
    destruct M as [|q|q]; try lia.
    destruct (Z.leb_spec f (emax - prec)) as [Hf|Hf]; change (emax - prec) with 971 in Hf.
    + split; [discriminate|]. cbn [V]. f_equal.
      assert (Z.pos q * 2 ^ (f + 2148) < INF); [|lia].
      unfold INF. apply pow_bound_lt with 53; lia.
    + split; [discriminate|]. cbn [V]. f_equal.
      assert (INF <= Z.pos q * 2 ^ (f + 2148)); [|lia].
      unfold INF. apply pow_bound_ge with 52; try lia.
      eapply Z.le_trans; [|apply HMlb; subst f n; lia].
      apply Z.pow_le_mono_r; subst f n; lia.
  - (* the mantissa overflowed to 2^53 *)
    assert (n2 = 1) by lia.
    assert (HlogM : Z.log2 M = 53) by (subst n2 f n; lia).
    assert (Hdn : d - n = 53) by (subst n2 f n; lia).
    assert (EM : M = 2 ^ 53).
    { rewrite Hdn in HMle. rewrite HlogM in HMl. lia. }
    replace (Z.max n2 0) with 1 by lia. rewrite EM.
    change (2 ^ 53 / 2 ^ 1) with (Z.pos (2 ^ 52)).
    destruct (Z.leb_spec (f + 1) (emax - prec)) as [Hf|Hf]; change (emax - prec) with 971 in Hf.
    + split; [discriminate|]. cbn [V]. f_equal.
      replace (f + 1 + 2148) with (1 + (f + 2148)) by lia.
      rewrite Z.pow_add_r by lia.
      assert (2 ^ 53 * 2 ^ (f + 2148) < INF); [|change (2 ^ 1) with 2; change (Z.pos (2 ^ 52)) with (2 ^ 52); change (2 ^ 53) with (2 * 2 ^ 52) in *; lia].
      unfold INF. rewrite <- Z.pow_add_r by lia. apply Z.pow_lt_mono_r; lia.
    + split; [discriminate|]. cbn [V]. f_equal.
      assert (INF <= 2 ^ 53 * 2 ^ (f + 2148)); [|lia].
      unfold INF. rewrite <- Z.pow_add_r by lia. apply Z.pow_le_mono_r; lia.
Qed.

(** ** Comparison of valid binary64 values *)

Lemma valid_finite_inv s m e :
  valid_binary (S754_finite s m e) = true ->
  let d := Z.log2 (Zpos m) + 1 in
  Z.max (d + e - 53) (-1074) = e /\ e <= 971
  /\ 2 ^ (d - 1) <= Zpos m < 2 ^ d /\ 1 <= d.
Proof.
  unfold valid_binary, bounded, canonical_mantissa. intros H.
  apply andb_true_iff in H. destruct H as [H1 H2].
  apply Z.eqb_eq in H1. apply Z.leb_le in H2.
  rewrite fexp_eq, digits2_log2 in H1. change (emax - prec) with 971 in H2.
  pose proof (log2_bounds (Zpos m) ltac:(lia)) as [Hu Hl]. specialize (Hl ltac:(lia)).
  pose proof (Z.log2_nonneg (Zpos m)).
  cbv zeta. replace (Z.log2 (Z.pos m) + 1 - 1) with (Z.log2 (Z.pos m)) by lia. lia.
Qed.

Lemma V_finite_pos_bounds m e :
  valid_binary (S754_finite false m e) = true ->
  0 < Zpos m * 2 ^ (e + 2148) < INF.
Proof.
  intros H. apply valid_finite_inv in H. cbv zeta in H.
  destruct H as (Hc & He & Hm & Hd).
  split.
  - apply Z.mul_pos_pos; [lia|]. apply Z.pow_pos_nonneg; lia.
  - unfold INF. apply pow_bound_lt with (Z.log2 (Z.pos m) + 1); lia.
Qed.

Lemma V_bounds x : valid_binary x = true -> sf_finite x = true -> - INF < V x < INF.
Proof.
  intros Hv Hf. assert (0 < INF) by (unfold INF; apply Z.pow_pos_nonneg; lia).
  destruct x as [s|s| |s m e]; try discriminate; cbn [V]; try lia.
  pose proof (V_finite_pos_bounds m e Hv). destruct s; cbn [cond_Zopp]; lia.
Qed.

Lemma V_finite_lt m1 e1 m2 e2 :
  valid_binary (S754_finite false m1 e1) = true ->
  valid_binary (S754_finite false m2 e2) = true ->
  e1 < e2 -> Zpos m1 * 2 ^ (e1 + 2148) < Zpos m2 * 2 ^ (e2 + 2148).
Proof.
  intros H1 H2 He. apply valid_finite_inv in H1, H2. cbv zeta in H1, H2.
  destruct H1 as (Hc1 & Hb1 & Hm1 & Hd1). destruct H2 as (Hc2 & Hb2 & Hm2 & Hd2).
  apply Z.lt_le_trans with (2 ^ (53 + e1 + 2148)).
  - apply pow_bound_lt with (Z.log2 (Z.pos m1) + 1); lia.
  - apply pow_bound_ge with (Z.log2 (Z.pos m2) + 1 - 1); lia.
Qed.

Ltac cmp_cases sx sy :=
  destruct sx; try destruct sy; cbn [cond_Zopp];
  match goal with
  | |- Some _ = Some (?a ?= ?b) => destruct (Z.compare_spec a b); try reflexivity; lia
  end.

Lemma SFcompare_V x y :
  valid_binary x = true -> valid_binary y = true ->
  sf_num x = true -> sf_num y = true ->
  SFcompare x y = Some (V x ?= V y).
Proof.
  intros Hx Hy Nx Ny.
  assert (HI : 0 < INF) by (unfold INF; apply Z.pow_pos_nonneg; lia).
  destruct x as [sx|sx| |sx mx ex]; try discriminate;
  destruct y as [sy|sy| |sy my ey]; try discriminate; cbn [SFcompare V].
  - reflexivity.
  - cmp_cases sy sy.
  - pose proof (V_finite_pos_bounds my ey Hy). cmp_cases sy sy.
  - cmp_cases sx sx.
  - cmp_cases sx sy.
  - pose proof (V_finite_pos_bounds my ey Hy). cmp_cases sx sy.
  - pose proof (V_finite_pos_bounds mx ex Hx). cmp_cases sx sx.
  - pose proof (V_finite_pos_bounds mx ex Hx). cmp_cases sx sy.
  - pose proof (V_finite_pos_bounds mx ex Hx) as Bx.
    pose proof (V_finite_pos_bounds my ey Hy) as By.
    assert (Hpp : forall m1 e1 m2 e2,
      valid_binary (S754_finite false m1 e1) = true ->
      valid_binary (S754_finite false m2 e2) = true ->
      match e1 ?= e2 with
      | Eq => Pos.compare_cont Eq m1 m2
      | Lt => Lt
      | Gt => Gt
      end = (Zpos m1 * 2 ^ (e1 + 2148) ?= Zpos m2 * 2 ^ (e2 + 2148))).
    { intros m1 e1 m2 e2 H1 H2. destruct (Z.compare_spec e1 e2) as [E|L|G].
      - subst e2. change (Pos.compare_cont Eq m1 m2) with (Z.pos m1 ?= Z.pos m2).
        assert (0 < 2 ^ (e1 + 2148)).
        { apply Z.pow_pos_nonneg; [lia|]. apply valid_finite_inv in H1. cbv zeta in H1. lia. }
        rewrite !(Z.mul_comm (Z.pos _)). apply Zmult_compare_compat_l. lia.
      - symmetry. apply Z.compare_lt_iff. apply V_finite_lt; assumption.
      - symmetry. apply Z.compare_gt_iff. apply V_finite_lt; assumption. }
    destruct sx, sy; cbn [cond_Zopp]; f_equal.
    + change (valid_binary (S754_finite true mx ex)) with (valid_binary (S754_finite false mx ex)) in Hx.
      change (valid_binary (S754_finite true my ey)) with (valid_binary (S754_finite false my ey)) in Hy.
      rewrite Z.compare_opp. rewrite <- (Hpp my ey mx ex Hy Hx).
      rewrite (Z.compare_antisym ex ey).
      change (Pos.compare_cont Eq mx my) with (Pos.compare mx my).
      change (Pos.compare_cont Eq my mx) with (Pos.compare my mx).
      destruct (ex ?= ey); cbn [CompOpp]; try reflexivity.
      symmetry. apply Pos.compare_antisym.
    + symmetry. apply Z.compare_lt_iff. lia.
    + symmetry. apply Z.compare_gt_iff. lia.
    + apply Hpp; assumption.
Qed.

Lemma ROUND_pos N : 0 < N -> ROUND N = round_pos N.
Proof. destruct N; simpl; lia. Qed.

Lemma ROUND_cond_Zopp s N : 0 < N -> ROUND (cond_Zopp s N) = cond_Zopp s (round_pos N).
Proof.
  intros H. destruct s; cbn [cond_Zopp].
  - rewrite ROUND_opp, ROUND_pos by lia. reflexivity.
  - apply ROUND_pos; lia.
Qed.

Lemma ROUND_V x : valid_binary x = true -> sf_finite x = true -> ROUND (V x) = V x.
Proof.
  intros Hv Hf. destruct x as [s|s| |s m e]; try discriminate; cbn [V]; try reflexivity.
  change (valid_binary (S754_finite s m e)) with (valid_binary (S754_finite false m e)) in Hv.
  pose proof (V_finite_pos_bounds m e Hv) as B.
  apply valid_finite_inv in Hv. cbv zeta in Hv. destruct Hv as (Hc & Hb & Hm & Hd).
  rewrite ROUND_cond_Zopp by lia. f_equal.
  apply round_pos_id with (Zpos m); try lia.
  f_equal. f_equal. unfold grid. rewrite log2_mul_pow2 by lia. lia.
Qed.

(** ** Multiplication, addition and subtraction round the exact result *)

Lemma iter_xO p d : Zpos (Pos.iter xO p d) = Zpos p * 2 ^ Zpos d.
Proof.
  induction d as [|d IH] using Pos.peano_ind.
  - simpl. lia.
  - rewrite Pos.iter_succ. rewrite Pos2Z.inj_xO, IH.
    rewrite Pos2Z.inj_succ, Z.pow_succ_r by lia. lia.
Qed.

Lemma shl_align_spec p e e' :
  let '(m', e'') := shl_align p e e' in
  e'' = Z.min e e' /\ Zpos m' = Zpos p * 2 ^ (e - e'').
Proof.
  unfold shl_align. destruct (e' - e) as [|d|d] eqn:E.
  - split; [lia|]. rewrite Z.sub_diag. simpl. lia.
  - split; [lia|]. rewrite Z.sub_diag. simpl. lia.
  - split; [lia|]. rewrite iter_xO. f_equal. f_equal. lia.
Qed.

Lemma binary_round_spec s p e :
  -2148 <= e ->
  binary_round prec emax s p e <> S754_nan /\
  V (binary_round prec emax s p e) = cond_Zopp s (round_pos (Zpos p * 2 ^ (e + 2148))).
Proof.
  intros He. unfold binary_round.
  pose proof (shl_align_spec p e (fexp prec emax (Z.pos (digits2_pos p) + e))) as H.
  destruct (shl_align p e _) as [m' e'']. destruct H as [He'' Hm'].
  rewrite fexp_eq, digits2_log2 in He''.
  assert (Hal : e'' <= fexp prec emax (Z.pos (digits2_pos m') + e'')).
  { rewrite fexp_eq, digits2_log2, Hm'. rewrite log2_mul_pow2 by lia. lia. }
  destruct (bra_spec s m' e'' Hal ltac:(lia)) as [Hn HV].
  split; [exact Hn|]. rewrite HV. f_equal. f_equal.
  rewrite Hm'. rewrite <- Z.mul_assoc, <- Z.pow_add_r by lia. f_equal. f_equal. lia.
Qed.

Lemma binary_normalize_spec z e :
  -2148 <= e ->
  binary_normalize prec emax z e false <> S754_nan /\
  V (binary_normalize prec emax z e false) = ROUND (z * 2 ^ (e + 2148)).
Proof.
  intros He. assert (0 < 2 ^ (e + 2148)) by (apply Z.pow_pos_nonneg; lia).
  destruct z as [|p|p]; cbn [binary_normalize].
  - split; [discriminate|reflexivity].
  - destruct (binary_round_spec false p e He) as [Hn HV]. split; [exact Hn|].
    rewrite HV. cbn [cond_Zopp]. rewrite ROUND_pos by lia. reflexivity.
  - destruct (binary_round_spec true p e He) as [Hn HV]. split; [exact Hn|].
    rewrite HV. cbn [cond_Zopp].
    replace (Z.neg p * 2 ^ (e + 2148)) with (- (Z.pos p * 2 ^ (e + 2148))) by lia.
    rewrite ROUND_opp, ROUND_pos by lia. reflexivity.
Qed.

Lemma cond_Zopp_mul s1 s2 a b :
  cond_Zopp s1 a * cond_Zopp s2 b = cond_Zopp (xorb s1 s2) (a * b).
Proof. destruct s1, s2; cbn; lia. Qed.

Lemma SFmul_spec x y :
  valid_binary x = true -> valid_binary y = true ->
  sf_finite x = true -> sf_finite y = true ->
  SF64mul x y <> S754_nan /\
  V (SF64mul x y) = ROUND (V x * V y / 2 ^ 2148).
Proof.
  intros Hx Hy Fx Fy.
  destruct x as [sx|sx| |sx mx ex]; try discriminate;
  destruct y as [sy|sy| |sy my ey]; try discriminate;
  unfold SF64mul; cbn [SFmul V];
  try (split; [discriminate | rewrite ?Z.mul_0_l, ?Z.mul_0_r; reflexivity]).
  change (valid_binary (S754_finite sx mx ex)) with (valid_binary (S754_finite false mx ex)) in Hx.
  change (valid_binary (S754_finite sy my ey)) with (valid_binary (S754_finite false my ey)) in Hy.
  apply valid_finite_inv in Hx, Hy. cbv zeta in Hx, Hy.
  destruct Hx as (Hcx & Hbx & Hmx & Hdx). destruct Hy as (Hcy & Hby & Hmy & Hdy).
  assert (Hal : ex + ey <= fexp prec emax (Z.pos (digits2_pos (mx * my)) + (ex + ey))).
  { rewrite fexp_eq, digits2_log2. rewrite Pos2Z.inj_mul.
    pose proof (Z.log2_mul_below (Z.pos mx) (Z.pos my) ltac:(lia) ltac:(lia)). lia. }
  destruct (bra_spec (xorb sx sy) (mx * my) (ex + ey) Hal ltac:(lia)) as [Hn HV].
  split; [exact Hn|]. rewrite HV.
  rewrite cond_Zopp_mul.
  replace (Z.pos mx * 2 ^ (ex + 2148) * (Z.pos my * 2 ^ (ey + 2148)))
    with (Z.pos (mx * my) * 2 ^ (ex + ey + 2148) * 2 ^ 2148).
  2:{ rewrite Pos2Z.inj_mul.
      assert (E : 2 ^ (ex + 2148) * 2 ^ (ey + 2148) = 2 ^ (ex + ey + 2148) * 2 ^ 2148).
      { rewrite <- !Z.pow_add_r by lia. f_equal. lia. }
      transitivity (Z.pos mx * Z.pos my * (2 ^ (ex + 2148) * 2 ^ (ey + 2148)));
        [rewrite E; ring | ring]. }
  assert (Hpos : 0 < Z.pos (mx * my) * 2 ^ (ex + ey + 2148)).
  { apply Z.mul_pos_pos; [lia|]. apply Z.pow_pos_nonneg; lia. }
  destruct (xorb sx sy); cbn [cond_Zopp].
  - rewrite <- Z.mul_opp_l. rewrite Z.div_mul by (apply Z.pow_nonzero; lia).
    rewrite ROUND_opp, ROUND_pos by lia. reflexivity.
  - rewrite Z.div_mul by (apply Z.pow_nonzero; lia).
    rewrite ROUND_pos by lia. reflexivity.
Qed.

Lemma V_align s m e ez :
  ez <= e ->
  cond_Zopp s (Z.pos (fst (shl_align m e ez))) * 2 ^ (ez + 2148)
  = cond_Zopp s (Zpos m * 2 ^ (e + 2148)) \/ ez + 2148 < 0.
Proof.
  intros Hez. destruct (Z_lt_le_dec (ez + 2148) 0); [right; assumption|left].
  pose proof (shl_align_spec m e ez) as H.
  destruct (shl_align m e ez) as [m' e'']. destruct H as [He'' Hm'].
  cbn [fst]. rewrite Hm'. replace e'' with ez by lia.
  assert (Zpos m * 2 ^ (e - ez) * 2 ^ (ez + 2148) = Zpos m * 2 ^ (e + 2148)).
  { rewrite <- Z.mul_assoc, <- Z.pow_add_r by lia. f_equal. f_equal. lia. }
  destruct s; cbn [cond_Zopp]; lia.
Qed.

Lemma SFadd_spec x y :
  valid_binary x = true -> valid_binary y = true ->
  sf_finite x = true -> sf_finite y = true ->
  SF64add x y <> S754_nan /\
  V (SF64add x y) = ROUND (V x + V y).
Proof.
  intros Hx Hy Fx Fy.
  destruct x as [sx|sx| |sx mx ex]; try discriminate;
  destruct y as [sy|sy| |sy my ey]; try discriminate;
  unfold SF64add; cbn [SFadd].
  - destruct sx, sy; (split; [discriminate|reflexivity]).
  - split; [discriminate|]. change (V (S754_zero sx)) with 0. rewrite Z.add_0_l.
    rewrite ROUND_V by assumption. reflexivity.
  - split; [discriminate|]. change (V (S754_zero sy)) with 0. rewrite Z.add_0_r.
    rewrite ROUND_V by assumption. reflexivity.
  - pose proof Hx as Hx'. pose proof Hy as Hy'.
    change (valid_binary (S754_finite sx mx ex)) with (valid_binary (S754_finite false mx ex)) in Hx'.
    change (valid_binary (S754_finite sy my ey)) with (valid_binary (S754_finite false my ey)) in Hy'.
    apply valid_finite_inv in Hx', Hy'. cbv zeta in Hx', Hy'.
    set (ez := Z.min ex ey).
    destruct (binary_normalize_spec
      (cond_Zopp sx (Z.pos (fst (shl_align mx ex ez))) + cond_Zopp sy (Z.pos (fst (shl_align my ey ez))))
      ez ltac:(lia)) as [Hn HV].
    split; [exact Hn|]. rewrite HV. f_equal.
    rewrite Z.mul_add_distr_r.
    destruct (V_align sx mx ex ez ltac:(lia)) as [->|]; [|lia].
    destruct (V_align sy my ey ez ltac:(lia)) as [->|]; [|lia].
    reflexivity.
Qed.

Lemma SFsub_spec x y :
  valid_binary x = true -> valid_binary y = true ->
  sf_finite x = true -> sf_finite y = true ->
  SF64sub x y <> S754_nan /\
  V (SF64sub x y) = ROUND (V x - V y).
Proof.
  intros Hx Hy Fx Fy.
  destruct x as [sx|sx| |sx mx ex]; try discriminate;
  destruct y as [sy|sy| |sy my ey]; try discriminate;
  unfold SF64sub; cbn [SFsub].
  - destruct sx, sy; (split; [discriminate|reflexivity]).
  - split; [discriminate|]. change (V (S754_zero sx)) with 0.
    replace (0 - V (S754_finite sy my ey)) with (V (S754_finite (negb sy) my ey)).
    2:{ cbn [V]. destruct sy; cbn [cond_Zopp negb]; lia. }
    rewrite ROUND_V by assumption. reflexivity.
  - split; [discriminate|]. change (V (S754_zero sy)) with 0. rewrite Z.sub_0_r.
    rewrite ROUND_V by assumption. reflexivity.
  - pose proof Hx as Hx'. pose proof Hy as Hy'.
    change (valid_binary (S754_finite sx mx ex)) with (valid_binary (S754_finite false mx ex)) in Hx'.
    change (valid_binary (S754_finite sy my ey)) with (valid_binary (S754_finite false my ey)) in Hy'.
    apply valid_finite_inv in Hx', Hy'. cbv zeta in Hx', Hy'.
    set (ez := Z.min ex ey).
    destruct (binary_normalize_spec
      (cond_Zopp sx (Z.pos (fst (shl_align mx ex ez))) - cond_Zopp sy (Z.pos (fst (shl_align my ey ez))))
      ez ltac:(lia)) as [Hn HV].
    split; [exact Hn|]. rewrite HV. f_equal.
    rewrite Z.mul_sub_distr_r.
    destruct (V_align sx mx ex ez ltac:(lia)) as [->|]; [|lia].
    destruct (V_align sy my ey ez ltac:(lia)) as [->|]; [|lia].
    reflexivity.
Qed.

(** ** The same facts on primitive floats *)

Lemma INF_pos : 0 < INF.
Proof. unfold INF. apply Z.pow_pos_nonneg; lia. Qed.

Lemma is_num_spec x : is_num x = sf_num (Prim2SF x).
Proof.
  unfold is_num, is_nan. rewrite negb_involutive, eqb_spec. unfold SFeqb.
  destruct (sf_num (Prim2SF x)) eqn:E.
  - rewrite SFcompare_V by (auto with b64). rewrite Z.compare_refl. reflexivity.
  - destruct (Prim2SF x); try discriminate. reflexivity.
Qed.

Lemma is_finite_spec x : is_finite x = sf_finite (Prim2SF x).
Proof.
  unfold is_finite.
  replace (is_nan x) with (negb (is_num x)) by (unfold is_num; apply negb_involutive).
  rewrite is_num_spec. unfold is_infinity. rewrite eqb_spec, abs_spec.
  change (Prim2SF infinity) with (S754_infinity false).
  destruct (Prim2SF x) as [s|s| |s m e]; try reflexivity; destruct s; reflexivity.
Qed.

Lemma finite_num x : is_finite x = true -> is_num x = true.
Proof. rewrite is_finite_spec, is_num_spec. destruct (Prim2SF x); simpl; congruence. Qed.

#[global] Hint Resolve finite_num : b64.

Lemma ltb_FV x y : is_num x = true -> is_num y = true ->
  (x <? y)%float = (FV x <? FV y).
Proof.
  rewrite !is_num_spec. intros Hx Hy. rewrite ltb_spec. unfold SFltb, FV.
  rewrite SFcompare_V by (auto with b64). unfold Z.ltb.
  destruct (_ ?= _); reflexivity.
Qed.

Lemma leb_FV x y : is_num x = true -> is_num y = true ->
  (x <=? y)%float = (FV x <=? FV y).
Proof.
  rewrite !is_num_spec. intros Hx Hy. rewrite leb_spec. unfold SFleb, FV.
  rewrite SFcompare_V by (auto with b64). unfold Z.leb.
  destruct (_ ?= _); reflexivity.
Qed.

Lemma leb_true_num x y : (x <=? y)%float = true -> is_num x = true /\ is_num y = true.
Proof.
  rewrite leb_spec, !is_num_spec. unfold SFleb.
  destruct (Prim2SF x), (Prim2SF y); simpl; intuition congruence.
Qed.

Lemma ltb_true_num x y : (x <? y)%float = true -> is_num x = true /\ is_num y = true.
Proof.
  rewrite ltb_spec, !is_num_spec. unfold SFltb.
  destruct (Prim2SF x), (Prim2SF y); simpl; intuition congruence.
Qed.

Lemma leb_iff x y :
  (x <=? y)%float = true <-> is_num x = true /\ is_num y = true /\ FV x <= FV y.
Proof.
  split.
  - intros H. destruct (leb_true_num _ _ H) as [Hx Hy].
    rewrite leb_FV in H by assumption. apply Z.leb_le in H. auto.
  - intros (Hx & Hy & H). rewrite leb_FV by assumption. apply Z.leb_le. exact H.
Qed.

Lemma ltb_iff x y :
  (x <? y)%float = true <-> is_num x = true /\ is_num y = true /\ FV x < FV y.
Proof.
  split.
  - intros H. destruct (ltb_true_num _ _ H) as [Hx Hy].
    rewrite ltb_FV in H by assumption. apply Z.ltb_lt in H. auto.
  - intros (Hx & Hy & H). rewrite ltb_FV by assumption. apply Z.ltb_lt. exact H.
Qed.

Lemma FV_range x : - INF <= FV x <= INF.
Proof.
  unfold FV. pose proof INF_pos. pose proof (Prim2SF_valid x) as Hv.
  destruct (Prim2SF x) as [s|s| |s m e] eqn:E; cbn [V]; try lia.
  - destruct s; cbn [cond_Zopp]; lia.
  - pose proof (V_bounds (S754_finite s m e) Hv eq_refl) as B. cbn [V] in B. lia.
Qed.

Lemma finite_iff x :
  is_finite x = true <-> is_num x = true /\ - INF < FV x < INF.
Proof.
  rewrite is_finite_spec, is_num_spec. unfold FV.
  pose proof INF_pos. pose proof (Prim2SF_valid x) as Hv.
  destruct (Prim2SF x) as [s|s| |s m e] eqn:E; cbn [V sf_finite sf_num].
  - intuition lia.
  - destruct s; cbn [cond_Zopp]; intuition (try congruence; try lia).
  - intuition congruence.
  - pose proof (V_bounds (S754_finite s m e) Hv eq_refl) as B. cbn [V] in B. intuition lia.
Qed.

Lemma mul_FV x y :
  is_finite x = true -> is_finite y = true ->
  is_num (x * y) = true /\ FV (x * y) = ROUND (FV x * FV y / 2 ^ 2148).
Proof.
  rewrite !is_finite_spec, is_num_spec. intros Hx Hy. unfold FV. rewrite mul_spec.
  destruct (SFmul_spec (Prim2SF x) (Prim2SF y)) as [Hn HV]; auto with b64.
  split; [|exact HV]. destruct (SF64mul _ _); try reflexivity. congruence.
Qed.

Lemma add_FV x y :
  is_finite x = true -> is_finite y = true ->
  is_num (x + y) = true /\ FV (x + y) = ROUND (FV x + FV y).
Proof.
  rewrite !is_finite_spec, is_num_spec. intros Hx Hy. unfold FV. rewrite add_spec.
  destruct (SFadd_spec (Prim2SF x) (Prim2SF y)) as [Hn HV]; auto with b64.
  split; [|exact HV]. destruct (SF64add _ _); try reflexivity. congruence.
Qed.

Lemma sub_FV x y :
  is_finite x = true -> is_finite y = true ->
  is_num (x - y) = true /\ FV (x - y) = ROUND (FV x - FV y).
Proof.
  rewrite !is_finite_spec, is_num_spec. intros Hx Hy. unfold FV. rewrite sub_spec.
  destruct (SFsub_spec (Prim2SF x) (Prim2SF y)) as [Hn HV]; auto with b64.
  split; [|exact HV]. destruct (SF64sub _ _); try reflexivity. congruence.
Qed.

Lemma add_inf_l x y :
  is_num x = true -> is_finite x = false -> is_finite y = true -> (x + y)%float = x.
Proof.
  rewrite is_num_spec, !is_finite_spec. intros Nx Ix Fy.
  apply Prim2SF_inj. rewrite add_spec. unfold SF64add.
  destruct (Prim2SF x) as [s|s| |s m e]; try discriminate.
  destruct (Prim2SF y) as [s'|s'| |s' m' e']; try discriminate; reflexivity.
Qed.

Lemma ROUND_FV x : is_finite x = true -> ROUND (FV x) = FV x.
Proof.
  rewrite is_finite_spec. intros H. apply ROUND_V; auto with b64.
Qed.

Lemma opp_FV x : FV (- x) = - FV x /\ is_finite (- x) = is_finite x /\ is_num (- x) = is_num x.
Proof.
  rewrite !is_finite_spec, !is_num_spec. unfold FV. rewrite opp_spec.
  destruct (Prim2SF x) as [s|s| |s m e]; cbn [SFopp V sf_finite sf_num];
    repeat split; try destruct s; cbn [cond_Zopp negb]; lia.
Qed.

Lemma of_uint63_FV n :
  (0 <= n < 2 ^ 53)%Z ->
  is_finite (of_uint63 (Uint63.of_Z n)) = true /\
  FV (of_uint63 (Uint63.of_Z n)) = n * 2 ^ 2148.
Proof.
  intros Hn.
  assert (HV : FV (of_uint63 (Uint63.of_Z n)) = n * 2 ^ 2148
               /\ is_num (of_uint63 (Uint63.of_Z n)) = true).
  { rewrite is_num_spec. unfold FV. rewrite of_uint63_spec.
    rewrite Uint63.of_Z_spec.
    rewrite Z.mod_small by (change Uint63.wB with (2 ^ 63); split; [lia|];
      apply Z.lt_trans with (2 ^ 53); [lia | reflexivity]).
    destruct (binary_normalize_spec n 0 ltac:(lia)) as [Hnn HV'].
    split.
    - rewrite HV'. change (0 + 2148) with 2148.
      destruct (Z.eq_dec n 0) as [->|Hn0]; [reflexivity|].
      assert (0 < 2 ^ 2148) by (apply Z.pow_pos_nonneg; lia).
      rewrite ROUND_pos by nia.
      pose proof (log2_bounds n ltac:(lia)) as [Hu Hl]. specialize (Hl ltac:(lia)).
      pose proof (Z.log2_nonneg n).
      assert (Z.log2 n < 53).
      { apply Z.log2_lt_pow2; lia. }
      assert (Hg : grid (n * 2 ^ 2148) = Z.log2 n + 2096).
      { unfold grid. rewrite log2_mul_pow2 by lia. lia. }
      apply round_pos_id with (n * 2 ^ (52 - Z.log2 n)).
      + nia.
      + rewrite Hg. rewrite <- Z.mul_assoc, <- Z.pow_add_r by lia. f_equal. f_equal. lia.
      + unfold INF. apply pow_bound_lt with 53; lia.
    - destruct (binary_normalize _ _ _ _); try reflexivity. congruence. }
  destruct HV as [HV Hnum]. split; [|exact HV].
  apply finite_iff. split; [exact Hnum|]. rewrite HV.
  assert (0 < 2 ^ 2148) by (apply Z.pow_pos_nonneg; lia).
  pose proof INF_pos. split; [nia|].
  unfold INF. apply pow_bound_lt with 53; lia.
Qed.

(** ** Clamp, products and sums on the common scale *)

Lemma FV_zero : FV 0%float = 0.
Proof. reflexivity. Qed.

Lemma pow2148_pos : 0 < 2 ^ 2148.
Proof. apply Z.pow_pos_nonneg; lia. Qed.

Lemma clamp_FV v lo hi :
  is_num v = true -> is_num lo = true -> is_num hi = true -> FV lo <= FV hi ->
  is_num (clamp v lo hi) = true /\
  FV (clamp v lo hi) = Z.max (FV lo) (Z.min (FV v) (FV hi)).
Proof.
  intros Hv Hlo Hhi Hle. unfold clamp.
  rewrite !ltb_FV by assumption.
  destruct (Z.ltb_spec (FV v) (FV lo)); [split; [assumption|lia]|].
  destruct (Z.ltb_spec (FV hi) (FV v)); split; try assumption; lia.
Qed.

Lemma between_finite x lo hi :
  is_num x = true -> is_finite lo = true -> is_finite hi = true ->
  FV lo <= FV x <= FV hi -> is_finite x = true.
Proof.
  intros Hx Hlo Hhi H. apply finite_iff in Hlo, Hhi. apply finite_iff.
  split; [assumption|lia].
Qed.

Lemma clamp_finite v lo hi :
  is_num v = true -> is_finite lo = true -> is_finite hi = true -> FV lo <= FV hi ->
  is_finite (clamp v lo hi) = true /\ FV lo <= FV (clamp v lo hi) <= FV hi.
Proof.
  intros Hv Hlo Hhi Hle.
  destruct (clamp_FV v lo hi Hv (finite_num _ Hlo) (finite_num _ Hhi) Hle) as [Hn HV].
  assert (FV lo <= FV (clamp v lo hi) <= FV hi) by lia.
  split; [|assumption]. apply between_finite with lo hi; assumption.
Qed.

Lemma sub_num c x :
  is_finite c = true -> is_num x = true -> is_num (c - x) = true.
Proof.
  intros Hc Hx. destruct (is_finite x) eqn:Fx.
  - apply sub_FV; assumption.
  - rewrite is_finite_spec in Hc, Fx. rewrite is_num_spec in *. rewrite sub_spec.
    unfold SF64sub. destruct (Prim2SF c), (Prim2SF x); try discriminate; reflexivity.
Qed.

Lemma sub_anti c x y :
  is_finite c = true -> is_finite x = true -> is_finite y = true ->
  FV x <= FV y -> FV (c - y) <= FV (c - x).
Proof.
  intros Hc Hx Hy H.
  destruct (sub_FV c x Hc Hx) as [_ ->]. destruct (sub_FV c y Hc Hy) as [_ ->].
  apply ROUND_mono. lia.
Qed.

Lemma mul_num x c :
  is_num x = true -> is_finite c = true -> FV c <> 0 -> is_num (x * c) = true.
Proof.
  intros Hx Hc Hc0. destruct (is_finite x) eqn:Fx.
  - apply mul_FV; assumption.
  - unfold FV in Hc0. rewrite is_finite_spec in Hc, Fx. rewrite is_num_spec in *.
    rewrite mul_spec. unfold SF64mul.
    destruct (Prim2SF c), (Prim2SF x); try discriminate; try reflexivity.
    contradiction Hc0; reflexivity.
Qed.

Lemma mul_mono x y c :
  is_finite x = true -> is_finite y = true -> is_finite c = true ->
  0 <= FV c -> FV x <= FV y -> FV (x * c) <= FV (y * c).
Proof.
  intros Hx Hy Hc Hc0 H.
  destruct (mul_FV x c Hx Hc) as [_ ->]. destruct (mul_FV y c Hy Hc) as [_ ->].
  apply ROUND_mono. apply Z.div_le_mono; [apply pow2148_pos|].
  apply Z.mul_le_mono_nonneg_r; assumption.
Qed.

Lemma mul_finite_between x c lo hi :
  is_finite x = true -> is_finite c = true -> 0 <= FV c ->
  is_finite lo = true -> is_finite hi = true -> FV lo <= FV x <= FV hi ->
  is_finite (lo * c) = true -> is_finite (hi * c) = true ->
  is_finite (x * c) = true /\ FV (lo * c) <= FV (x * c) <= FV (hi * c).
Proof.
  intros Hx Hc Hc0 Hlo Hhi H Flo Fhi.
  assert (B : FV (lo * c) <= FV (x * c) <= FV (hi * c)).
  { split; apply mul_mono; try assumption; lia. }
  split; [|exact B].
  apply between_finite with (lo * c)%float (hi * c)%float; try assumption.
  apply mul_FV; assumption.
Qed.

Lemma mul_finite_small x c :
  is_finite x = true -> is_finite c = true -> 0 <= FV c <= 2 ^ 2148 ->
  is_finite (x * c) = true.
Proof.
  intros Hx Hc Hc0.
  destruct (mul_FV x c Hx Hc) as [Hn HV].
  apply finite_iff. split; [assumption|]. rewrite HV.
  pose proof (proj1 (finite_iff x) Hx) as [_ Bx].
  pose proof (ROUND_FV x Hx) as Rx.
  pose proof pow2148_pos as Hp.
  destruct (Z_le_gt_dec 0 (FV x)) as [Hpos|Hneg].
  - assert (0 <= FV x * FV c / 2 ^ 2148 <= FV x).
    { split; [apply Z.div_pos; nia|].
      apply Z.div_le_upper_bound; [lia|]. nia. }
    pose proof (ROUND_mono 0 (FV x * FV c / 2 ^ 2148) ltac:(lia)) as H1.
    pose proof (ROUND_mono (FV x * FV c / 2 ^ 2148) (FV x) ltac:(lia)) as H2.
    change (ROUND 0) with 0 in H1. lia.
  - assert (FV x <= FV x * FV c / 2 ^ 2148 <= 0).
    { split; [apply Z.div_le_lower_bound; [lia|nia]|].
      assert (FV x * FV c / 2 ^ 2148 <= 0 / 2 ^ 2148) by (apply Z.div_le_mono; nia).
      rewrite Z.div_0_l in H by lia. lia. }
    pose proof (ROUND_mono (FV x * FV c / 2 ^ 2148) 0 ltac:(lia)) as H1.
    pose proof (ROUND_mono (FV x) (FV x * FV c / 2 ^ 2148) ltac:(lia)) as H2.
    change (ROUND 0) with 0 in H1. lia.
Qed.

Lemma add_ext a x :
  is_num a = true -> is_finite x = true ->
  is_num (a + x) = true /\
  FV (a + x) = if is_finite a then ROUND (FV a + FV x) else FV a.
Proof.
  intros Ha Hx. destruct (is_finite a) eqn:Fa.
  - apply add_FV; assumption.
  - rewrite add_inf_l by assumption. auto.
Qed.

Lemma ROUND_range N : - INF <= ROUND N <= INF.
Proof.
  pose proof INF_pos.
  destruct N as [|p|p]; cbn [ROUND]; try lia.
  - pose proof (round_pos_nonneg (Z.pos p) ltac:(lia)). unfold round_pos in *. lia.
  - pose proof (round_pos_nonneg (Z.pos p) ltac:(lia)). unfold round_pos in *. lia.
Qed.

Lemma infinite_FV a : is_num a = true -> is_finite a = false -> FV a = INF \/ FV a = - INF.
Proof.
  intros Ha Fa. pose proof (FV_range a).
  destruct (Z.eq_dec (FV a) INF); [auto|]. destruct (Z.eq_dec (FV a) (- INF)); [auto|].
  exfalso. assert (is_finite a = true); [|congruence].
  apply finite_iff. split; [assumption|lia].
Qed.

Lemma add_mono a a' x x' :
  is_num a = true -> is_num a' = true ->
  is_finite x = true -> is_finite x' = true ->
  FV a <= FV a' -> FV x <= FV x' ->
  FV (a + x) <= FV (a' + x').
Proof.
  intros Ha Ha' Hx Hx' Hle Hxle.
  destruct (add_ext a x Ha Hx) as [_ ->]. destruct (add_ext a' x' Ha' Hx') as [_ ->].
  destruct (is_finite a) eqn:Fa, (is_finite a') eqn:Fa'.
  - apply ROUND_mono; lia.
  - pose proof (proj1 (finite_iff a) Fa) as [_ B].
    destruct (infinite_FV a' Ha' Fa') as [E|E]; rewrite E in *; [|lia].
    destruct (ROUND_range (FV a + FV x)) as [_ U]. exact U.
  - pose proof (proj1 (finite_iff a') Fa') as [_ B].
    destruct (infinite_FV a Ha Fa) as [E|E]; rewrite E in *; [lia|].
    destruct (ROUND_range (FV a' + FV x')) as [L _]. exact L.
  - assumption.
Qed.

Lemma double_of_int_FV n :
  in_int_range n = true ->
  is_finite (double_of_int n) = true /\ FV (double_of_int n) = n * 2 ^ 2148.
Proof.
  unfold in_int_range, int_min, int_max. intros H.
  apply andb_true_iff in H. destruct H as [H1 H2].
  apply Z.leb_le in H1, H2.
  assert (2 ^ 31 < 2 ^ 53) by reflexivity.
  unfold double_of_int. destruct (Z.ltb_spec n 0).
  - destruct (of_uint63_FV (- n) ltac:(lia)) as [F E].
    destruct (opp_FV (of_uint63 (Uint63.of_Z (- n)))) as (E1 & E2 & _).
    rewrite E2, E1, E. split; [assumption|lia].
  - apply of_uint63_FV. lia.
Qed.

(** ** The seven terms of the score *)

Lemma compute_risk_terms s :
  compute_risk s
  = clamp (risk_sum (inactivity s) (contact_gap s) (attendance s) (engagement s)
             (gpa_term s) (survey s) (flags s)) 0.0 100.0.
Proof. reflexivity. Qed.

Ltac by_computation := vm_compute; first [reflexivity | discriminate].

Lemma FV_nonneg_of_leb c : (0 <=? c)%float = true -> 0 <= FV c.
Proof. intros H. apply leb_iff in H. rewrite FV_zero in H. lia. Qed.

Lemma FV_le_of_leb x y : (x <=? y)%float = true -> FV x <= FV y.
Proof. intros H. apply leb_iff in H. lia. Qed.

Lemma FV_one : FV 1%float = 2 ^ 2148.
Proof. vm_compute. reflexivity. Qed.

(** A gap term: how far a signal lies below its ceiling [hi], clamped to
    [0 .. hi], times a non-negative weight [w]. *)
Section GapTerm.

Variables hi w : float.
Hypothesis hi_finite : is_finite hi = true.
Hypothesis hi_nonneg : (0 <=? hi)%float = true.
Hypothesis w_finite : is_finite w = true.
Hypothesis w_nonneg : (0 <=? w)%float = true.

Lemma gap_finite a :
  is_num a = true ->
  is_finite (clamp (hi - a) 0.0 hi) = true /\
  0 <= FV (clamp (hi - a) 0.0 hi) <= FV hi.
Proof.
  intros Ha. pose proof (FV_nonneg_of_leb _ hi_nonneg) as Hp.
  destruct (clamp_finite (hi - a)%float 0.0%float hi) as [F B]; try assumption.
  - apply sub_num; assumption.
  - reflexivity.
  - rewrite FV_zero in B. auto.
Qed.

Lemma gap_anti a a' :
  is_finite a = true -> is_finite a' = true -> FV a <= FV a' ->
  FV (clamp (hi - a') 0.0 hi) <= FV (clamp (hi - a) 0.0 hi).
Proof.
  intros Ha Ha' H. pose proof (FV_nonneg_of_leb _ hi_nonneg) as Hp.
  assert (N : is_num (hi - a) = true) by (apply sub_num; auto with b64).
  assert (N' : is_num (hi - a') = true) by (apply sub_num; auto with b64).
  assert (Z0 : FV 0 <= FV hi) by (rewrite FV_zero; assumption).
  destruct (clamp_FV (hi - a)%float 0.0%float hi N eq_refl (finite_num _ hi_finite) Z0)
    as [_ ->].
  destruct (clamp_FV (hi - a')%float 0.0%float hi N' eq_refl (finite_num _ hi_finite) Z0)
    as [_ ->].
  pose proof (sub_anti hi a a' hi_finite Ha Ha' H). lia.
Qed.

Lemma gap_term_finite a :
  is_finite (hi * w) = true ->
  is_num a = true ->
  is_finite (clamp (hi - a) 0.0 hi * w) = true /\
  0 <= FV (clamp (hi - a) 0.0 hi * w).
Proof.
  intros Hhw Ha.
  destruct (gap_finite a Ha) as [F B].
  pose proof (FV_nonneg_of_leb _ w_nonneg) as Hwp.
  assert (F0 : is_finite (0 * w) = true /\ FV (0 * w) = 0).
  { destruct (mul_FV 0.0 w eq_refl w_finite) as [Hn HV].
    rewrite FV_zero, Z.mul_0_l, Z.div_0_l in HV by (apply Z.pow_nonzero; lia).
    change (ROUND 0) with 0 in HV. split; [|assumption].
    apply finite_iff. split; [assumption|]. rewrite HV. pose proof INF_pos. lia. }
  destruct F0 as [F0 E0].
  assert (B0 : FV 0 <= FV (clamp (hi - a) 0.0 hi) <= FV hi) by (rewrite FV_zero; exact B).
  destruct (mul_finite_between (clamp (hi - a) 0.0 hi) w 0.0 hi
              F w_finite Hwp eq_refl hi_finite B0 F0 Hhw) as [F' B'].
  split; [assumption|]. rewrite E0 in B'. lia.
Qed.

Lemma gap_term_anti a a' :
  is_finite a = true -> is_finite a' = true -> FV a <= FV a' ->
  FV (clamp (hi - a') 0.0 hi * w) <= FV (clamp (hi - a) 0.0 hi * w).
Proof.
  intros Ha Ha' H.
  apply mul_mono; try assumption.
  - apply gap_finite; auto with b64.
  - apply gap_finite; auto with b64.
  - apply FV_nonneg_of_leb; assumption.
  - apply gap_anti; assumption.
Qed.

End GapTerm.

Lemma valid_record_iff s :
  valid_record s = true <->
  is_finite (days_inactive s) = true /\ is_finite (attendance_rate s) = true /\
  is_finite (engagement_score s) = true /\ is_finite (gpa s) = true /\
  is_finite (last_contact_days s) = true /\ is_finite (survey_score s) = true /\
  in_int_range (open_flags s) = true.
Proof.
  unfold valid_record, finite_signals. rewrite !andb_true_iff. tauto.
Qed.

Lemma weight_small_finite x c :
  is_finite x = true -> is_finite c = true ->
  (0 <=? c)%float = true -> (c <=? 1)%float = true ->
  is_finite (x * c) = true.
Proof.
  intros Hx Hc H0 H1. apply mul_finite_small; try assumption.
  split; [apply FV_nonneg_of_leb; assumption|].
  rewrite <- FV_one. apply FV_le_of_leb; assumption.
Qed.

Lemma flags_finite n :
  in_int_range n = true -> is_finite (double_of_int n * 6.0) = true.
Proof.
  intros Hn. destruct (double_of_int_FV n Hn) as [F E].
  destruct (double_of_int_FV int_min eq_refl) as [Fl El].
  destruct (double_of_int_FV int_max eq_refl) as [Fh Eh].
  unfold in_int_range in Hn. apply andb_true_iff in Hn. destruct Hn as [H1 H2].
  apply Z.leb_le in H1, H2. pose proof pow2148_pos.
  assert (H6 : 0 <= FV 6) by (apply FV_nonneg_of_leb; by_computation).
  assert (B : FV (double_of_int int_min) <= FV (double_of_int n) <= FV (double_of_int int_max)).
  { rewrite E, El, Eh. unfold int_min, int_max in *. nia. }
  assert (Fl6 : is_finite (double_of_int int_min * 6.0) = true) by by_computation.
  assert (Fh6 : is_finite (double_of_int int_max * 6.0) = true) by by_computation.
  apply (mul_finite_between (double_of_int n) 6.0 (double_of_int int_min) (double_of_int int_max)
           F eq_refl H6 Fl Fh B Fl6 Fh6).
Qed.

Lemma terms_finite s :
  valid_record s = true ->
  is_finite (inactivity s) = true /\ is_finite (contact_gap s) = true /\
  is_finite (attendance s) = true /\ is_finite (engagement s) = true /\
  is_finite (gpa_term s) = true /\ is_finite (survey s) = true /\
  is_finite (flags s) = true.
Proof.
  intros H. apply valid_record_iff in H.
  destruct H as (Hd & Ha & He & Hg & Hl & Hs & Hf).
  repeat split.
  - apply weight_small_finite; try assumption; by_computation.
  - apply weight_small_finite; try assumption; by_computation.
  - apply gap_term_finite; auto with b64; by_computation.
  - apply gap_term_finite; auto with b64; by_computation.
  - apply gap_term_finite; auto with b64; by_computation.
  - apply gap_term_finite; auto with b64; by_computation.
  - apply flags_finite; assumption.
Qed.

Lemma add_step a a' x x' :
  is_num a = true /\ is_num a' = true /\ FV a <= FV a' ->
  is_finite x = true -> is_finite x' = true -> FV x <= FV x' ->
  is_num (a + x) = true /\ is_num (a' + x') = true /\ FV (a + x) <= FV (a' + x').
Proof.
  intros (Ha & Ha' & H) Hx Hx' Hxx.
  split; [apply add_ext; assumption|]. split; [apply add_ext; assumption|].
  apply add_mono; assumption.
Qed.

Lemma risk_sum_mono t1 t2 t3 t4 t5 t6 t7 u1 u2 u3 u4 u5 u6 u7 :
  is_finite t1 = true -> is_finite u1 = true -> FV t1 <= FV u1 ->
  is_finite t2 = true -> is_finite u2 = true -> FV t2 <= FV u2 ->
  is_finite t3 = true -> is_finite u3 = true -> FV t3 <= FV u3 ->
  is_finite t4 = true -> is_finite u4 = true -> FV t4 <= FV u4 ->
  is_finite t5 = true -> is_finite u5 = true -> FV t5 <= FV u5 ->
  is_finite t6 = true -> is_finite u6 = true -> FV t6 <= FV u6 ->
  is_finite t7 = true -> is_finite u7 = true -> FV t7 <= FV u7 ->
  is_num (risk_sum t1 t2 t3 t4 t5 t6 t7) = true /\
  is_num (risk_sum u1 u2 u3 u4 u5 u6 u7) = true /\
  FV (risk_sum t1 t2 t3 t4 t5 t6 t7) <= FV (risk_sum u1 u2 u3 u4 u5 u6 u7).
Proof.
  intros. unfold risk_sum.
  repeat (apply add_step; try assumption).
  repeat split; reflexivity.
Qed.

Lemma compute_risk_range s :
  valid_record s = true ->
  is_num (compute_risk s) = true /\ 0 <= FV (compute_risk s) <= FV 100.
Proof.
  intros H. destruct (terms_finite s H) as (H1 & H2 & H3 & H4 & H5 & H6 & H7).
  rewrite compute_risk_terms.
  destruct (risk_sum_mono (inactivity s) (contact_gap s) (attendance s) (engagement s)
              (gpa_term s) (survey s) (flags s)
              (inactivity s) (contact_gap s) (attendance s) (engagement s)
              (gpa_term s) (survey s) (flags s)) as (Hn & _ & _); try assumption; try lia.
  assert (H100 : FV 0 <= FV 100) by (apply FV_le_of_leb; by_computation).
  destruct (clamp_FV _ 0.0%float 100.0%float Hn eq_refl eq_refl H100) as [Hc ->].
  split; [assumption|]. rewrite FV_zero in *. lia.
Qed.

Lemma compute_risk_mono s s' :
  valid_record s = true -> valid_record s' = true ->
  FV (inactivity s) <= FV (inactivity s') ->
  FV (contact_gap s) <= FV (contact_gap s') ->
  FV (attendance s) <= FV (attendance s') ->
  FV (engagement s) <= FV (engagement s') ->
  FV (gpa_term s) <= FV (gpa_term s') ->
  FV (survey s) <= FV (survey s') ->
  FV (flags s) <= FV (flags s') ->
  (compute_risk s <=? compute_risk s')%float = true.
Proof.
  intros H H' L1 L2 L3 L4 L5 L6 L7.
  destruct (terms_finite s H) as (H1 & H2 & H3 & H4 & H5 & H6 & H7).
  destruct (terms_finite s' H') as (H1' & H2' & H3' & H4' & H5' & H6' & H7').
  rewrite !compute_risk_terms.
  destruct (risk_sum_mono (inactivity s) (contact_gap s) (attendance s) (engagement s)
              (gpa_term s) (survey s) (flags s)
              (inactivity s') (contact_gap s') (attendance s') (engagement s')
              (gpa_term s') (survey s') (flags s')) as (Hn & Hn' & Hle); try assumption.
  assert (H100 : FV 0 <= FV 100) by (apply FV_le_of_leb; by_computation).
  destruct (clamp_FV _ 0.0%float 100.0%float Hn eq_refl eq_refl H100) as [Hc E].
  destruct (clamp_FV _ 0.0%float 100.0%float Hn' eq_refl eq_refl H100) as [Hc' E'].
  apply leb_iff. repeat split; try assumption. rewrite E, E'. lia.
Qed.

(** ** RiskModel: range, worked example, monotonicity *)

(** C1: for every record with finite signals (and an [int] flag count),
    the score computed by [compute_risk] is a number in the closed
    interval [0, 100]. *)
Theorem risk_score_bounded s :
  valid_record s = true ->
  (0 <=? compute_risk s)%float = true /\ (compute_risk s <=? 100)%float = true.
Proof.
  intros H. destruct (compute_risk_range s H) as [Hn B].
  split; apply leb_iff; repeat split; try assumption; try reflexivity.
  - rewrite FV_zero. lia.
  - lia.
Qed.

Lemma risk_score_bounded_witness :
  valid_record example_record = true /\
  (0 <=? compute_risk example_record)%float = true /\
  (compute_risk example_record <=? 100)%float = true.
Proof. split; [reflexivity | apply (risk_score_bounded example_record); reflexivity]. Defined.

(** C2: the record with days_inactive 40, attendance_rate 50,
    engagement_score 80, gpa 3.0, last_contact_days 10, survey_score 90 and
    open_flags 1 scores exactly 70.5, its tier is "medium" and its action
    is "re-engage outreach", whatever its identifier, name and cohort. *)
Theorem example_record_scored (i n c : string) (r : float) :
  let s := mkScholar i n c 40 50 80 3.0 10 90 1 r in
  compute_risk s = 70.5%float /\
  risk_tier (compute_risk s) = "medium"%string /\
  action_hint s = "re-engage outreach"%string.
Proof. cbv zeta. repeat split; vm_compute; reflexivity. Qed.

Lemma weight_mono x y c :
  is_finite x = true -> is_finite y = true ->
  is_finite c = true -> (0 <=? c)%float = true ->
  (x <=? y)%float = true -> FV (x * c) <= FV (y * c).
Proof.
  intros Hx Hy Hc H0 H. apply mul_mono; try assumption.
  - apply FV_nonneg_of_leb; assumption.
  - apply FV_le_of_leb; assumption.
Qed.

Ltac same_terms := try (apply Z.le_refl).

Ltac still_valid := apply valid_record_iff; repeat split; assumption.

Ltac gap_grows :=
  apply gap_term_anti;
  [ by_computation | by_computation | by_computation | by_computation
  | assumption | assumption | apply FV_le_of_leb; assumption ].

(** C8: with all other signals fixed, the score never decreases when
    days_inactive, last_contact_days or open_flags increases, nor when gpa,
    attendance_rate, engagement_score or survey_score decreases (records
    with finite signals). *)
Theorem risk_monotone s :
  valid_record s = true ->
  (forall v, is_finite v = true -> (days_inactive s <=? v)%float = true ->
     (compute_risk s <=? compute_risk (with_days_inactive s v))%float = true) /\
  (forall v, is_finite v = true -> (last_contact_days s <=? v)%float = true ->
     (compute_risk s <=? compute_risk (with_last_contact_days s v))%float = true) /\
  (forall n, in_int_range n = true -> open_flags s <= n ->
     (compute_risk s <=? compute_risk (with_open_flags s n))%float = true) /\
  (forall v, is_finite v = true -> (v <=? gpa s)%float = true ->
     (compute_risk s <=? compute_risk (with_gpa s v))%float = true) /\
  (forall v, is_finite v = true -> (v <=? attendance_rate s)%float = true ->
     (compute_risk s <=? compute_risk (with_attendance_rate s v))%float = true) /\
  (forall v, is_finite v = true -> (v <=? engagement_score s)%float = true ->
     (compute_risk s <=? compute_risk (with_engagement_score s v))%float = true) /\
  (forall v, is_finite v = true -> (v <=? survey_score s)%float = true ->
     (compute_risk s <=? compute_risk (with_survey_score s v))%float = true).
Proof.
  intros H. pose proof (proj1 (valid_record_iff s) H) as (Hd & Ha & He & Hg & Hl & Hs & Hf).
  repeat split; intros v Hv Hle.
  - apply compute_risk_mono; same_terms; [assumption | still_valid |].
    apply weight_mono; try assumption; by_computation.
  - apply compute_risk_mono; same_terms; [assumption | still_valid |].
    apply weight_mono; try assumption; by_computation.
  - apply compute_risk_mono; same_terms; [assumption | still_valid |].
    unfold flags. cbn [open_flags with_open_flags].
    destruct (double_of_int_FV (open_flags s) Hf) as [F1 E1].
    destruct (double_of_int_FV v Hv) as [F2 E2].
    apply mul_mono; try assumption; try reflexivity.
    + apply FV_nonneg_of_leb. by_computation.
    + rewrite E1, E2. pose proof pow2148_pos. nia.
  - apply compute_risk_mono; same_terms; [assumption | still_valid | gap_grows].
  - apply compute_risk_mono; same_terms; [assumption | still_valid | gap_grows].
  - apply compute_risk_mono; same_terms; [assumption | still_valid | gap_grows].
  - apply compute_risk_mono; same_terms; [assumption | still_valid | gap_grows].
Qed.

Lemma risk_monotone_witness :
  valid_record example_record = true /\
  (compute_risk example_record
   <=? compute_risk (with_days_inactive example_record 41))%float = true /\
  (compute_risk example_record
   <=? compute_risk (with_gpa example_record 2.5))%float = true.
Proof.
  split; [reflexivity|]. split.
  - apply (proj1 (risk_monotone example_record eq_refl)); reflexivity.
  - apply (proj1 (proj2 (proj2 (proj2 (risk_monotone example_record eq_refl))))); reflexivity.
Defined.

(** ** Sorting *)

Lemma ltb_trans x y z :
  (x <? y)%float = true -> (y <? z)%float = true -> (x <? z)%float = true.
Proof.
  rewrite !ltb_iff. intros (Hx & Hy & H1) (_ & Hz & H2). repeat split; try assumption. lia.
Qed.

Lemma ltb_asym x y : (x <? y)%float = true -> (y <? x)%float = false.
Proof.
  intros H. destruct (y <? x)%float eqn:E; [|reflexivity].
  apply ltb_iff in H, E. lia.
Qed.

Lemma StronglySorted_weaken {A} (R R' : A -> A -> Prop) l :
  (forall a b, R a b -> R' a b) -> StronglySorted R l -> StronglySorted R' l.
Proof.
  intros H. induction 1 as [|a l Hs IH Hf]; constructor; [assumption|].
  eapply Forall_impl; [|eassumption]. intros b. apply H.
Qed.

(** ** The merge sort: a permutation, sorted and stable under a total ordering *)

Section Msort.

Context {A : Type} (cmp : A -> A -> Z).

Lemma merge_nil_l b2 : merge cmp [] b2 = b2.
Proof. destruct b2; reflexivity. Qed.

Lemma merge_nil_r b1 : merge cmp b1 [] = b1.
Proof. destruct b1; reflexivity. Qed.

Lemma merge_cons x b1 y b2 :
  merge cmp (x :: b1) (y :: b2)
  = if cmp x y <=? 0 then x :: merge cmp b1 (y :: b2) else y :: merge cmp (x :: b1) b2.
Proof. reflexivity. Qed.

Lemma merge_perm b1 b2 : Permutation (b1 ++ b2) (merge cmp b1 b2).
Proof.
  revert b2. induction b1 as [|x b1 IH1]; intros b2; [rewrite merge_nil_l; reflexivity|].
  induction b2 as [|y b2 IH2]; [rewrite app_nil_r, merge_nil_r; reflexivity|].
  rewrite merge_cons. destruct (cmp x y <=? 0).
  - cbn [app]. apply perm_skip. apply IH1.
  - rewrite <- IH2. symmetry. apply (Permutation_middle (x :: b1) b2 y).
Qed.

Lemma halves_length (b : list A) :
  (2 <= List.length b)%nat ->
  (List.length (firstn (List.length b / 2) b) < List.length b)%nat /\
  (List.length (skipn (List.length b / 2) b) < List.length b)%nat.
Proof.
  intros H. rewrite length_firstn, length_skipn.
  assert (1 <= List.length b / 2)%nat by (apply Nat.div_le_lower_bound; lia).
  assert (List.length b / 2 < List.length b)%nat by (apply Nat.div_lt; lia).
  lia.
Qed.

(** Enough depth: the recursion never runs out, and the result does not
    depend on the depth given. *)
Lemma msort_depth d1 d2 b :
  (List.length b <= d1)%nat -> (List.length b <= d2)%nat ->
  msort_with_tmp cmp d1 b = msort_with_tmp cmp d2 b.
Proof.
  revert d2 b. induction d1 as [|d1 IH]; intros d2 b H1 H2.
  - destruct b; [|cbn in H1; lia]. destruct d2; reflexivity.
  - destruct d2 as [|d2].
    + destruct b; [reflexivity|cbn in H2; lia].
    + cbn [msort_with_tmp]. cbv zeta.
      destruct (Nat.leb_spec (List.length b) 1) as [|Hn]; [reflexivity|].
      destruct (halves_length b ltac:(lia)) as [Hf Hs].
      rewrite (IH d2 (firstn _ b)), (IH d2 (skipn _ b)) by lia. reflexivity.
Qed.

Lemma msort_eq b :
  msort cmp b
  = if (List.length b <=? 1)%nat then b
    else merge cmp (msort cmp (firstn (List.length b / 2) b))
                   (msort cmp (skipn (List.length b / 2) b)).
Proof.
  unfold msort at 1. destruct b as [|x b]; [reflexivity|].
  cbn [List.length msort_with_tmp]. cbv zeta.
  change (S (List.length b)) with (List.length (x :: b)).
  destruct (Nat.leb_spec (List.length (x :: b)) 1) as [|Hn]; [reflexivity|].
  destruct (halves_length (x :: b) ltac:(lia)) as [Hf Hs]. cbn [List.length] in Hf, Hs.
  unfold msort. f_equal; apply msort_depth; cbn [List.length]; lia.
Qed.

(** Induction along the recursion of [msort]. *)
Lemma msort_ind (P : list A -> list A -> Prop) :
  (forall b, (List.length b <= 1)%nat -> P b b) ->
  (forall b, (2 <= List.length b)%nat ->
     let b1 := firstn (List.length b / 2) b in
     let b2 := skipn (List.length b / 2) b in
     P b1 (msort cmp b1) -> P b2 (msort cmp b2) ->
     P b (merge cmp (msort cmp b1) (msort cmp b2))) ->
  forall b, P b (msort cmp b).
Proof.
  intros Hbase Hstep b.
  assert (H : forall n b, (List.length b <= n)%nat -> P b (msort cmp b)).
  { clear b. induction n as [|n IH]; intros b Hb.
    - rewrite msort_eq. destruct (Nat.leb_spec (List.length b) 1); [|lia].
      apply Hbase. lia.
    - rewrite msort_eq. destruct (Nat.leb_spec (List.length b) 1) as [|Hn].
      + apply Hbase. assumption.
      + destruct (halves_length b ltac:(lia)) as [Hf Hs].
        apply Hstep; [lia | apply IH; lia | apply IH; lia]. }
  apply (H (List.length b)). lia.
Qed.

Lemma msort_perm b : Permutation b (msort cmp b).
Proof.
  apply (msort_ind (fun b r => Permutation b r)); clear b.
  - reflexivity.
  - intros b _ b1 b2 H1 H2. rewrite <- merge_perm, <- H1, <- H2.
    subst b1 b2. rewrite firstn_skipn. reflexivity.
Qed.

Section Ordered.

(** The elements all lie in [l], on which [cmp] is a total ordering. *)
Variable l : list A.
Hypothesis Hord : total_order_on l cmp.

Let R := fun a b : A => cmp a b <= 0.

Lemma total_flip a b : In a l -> In b l -> ~ cmp a b <= 0 -> cmp b a <= 0.
Proof.
  intros Ha Hb H. destruct Hord as [Hs _]. specialize (Hs a b Ha Hb). lia.
Qed.

Lemma merge_sorted b1 b2 :
  incl b1 l -> incl b2 l ->
  StronglySorted R b1 -> StronglySorted R b2 -> StronglySorted R (merge cmp b1 b2).
Proof.
  intros I1 I2 S1. revert b2 I2. induction S1 as [|x b1 S1 IH1 F1]; intros b2 I2 S2.
  - destruct b2; assumption.
  - induction S2 as [|y b2 S2 IH2 F2]; [rewrite merge_nil_r; constructor; assumption|].
    rewrite merge_cons.
    assert (Hx : In x l) by (apply I1; left; reflexivity).
    assert (Hy : In y l) by (apply I2; left; reflexivity).
    assert (I1' : incl b1 l) by (intros z Hz; apply I1; right; assumption).
    assert (I2' : incl b2 l) by (intros z Hz; apply I2; right; assumption).
    destruct (Z.leb_spec (cmp x y) 0) as [Hle|Hgt].
    + constructor; [apply IH1; [assumption | assumption | constructor; assumption]|].
      apply Forall_forall. intros z Hz.
      apply (Permutation_in _ (Permutation_sym (merge_perm b1 (y :: b2)))) in Hz.
      rewrite Forall_forall in F1, F2.
      apply in_app_or in Hz. destruct Hz as [Hz|[<-|Hz]]; [apply F1; assumption|assumption|].
      destruct Hord as [_ Ht]. apply (Ht x y z); auto. apply F2; assumption.
    + constructor; [apply IH2; assumption|].
      assert (Hyx : cmp y x <= 0) by (apply total_flip; [assumption|assumption|lia]).
      apply Forall_forall. intros z Hz.
      apply (Permutation_in _ (Permutation_sym (merge_perm (x :: b1) b2))) in Hz.
      rewrite Forall_forall in F1, F2.
      apply in_app_or in Hz. destruct Hz as [[<-|Hz]|Hz]; [assumption| |apply F2; assumption].
      destruct Hord as [_ Ht]. apply (Ht y x z); auto. apply F1; assumption.
Qed.

Lemma incl_firstn (b : list A) n : incl b l -> incl (firstn n b) l.
Proof.
  intros H z Hz. apply H. rewrite <- (firstn_skipn n b). apply in_or_app. left. assumption.
Qed.

Lemma incl_skipn (b : list A) n : incl b l -> incl (skipn n b) l.
Proof.
  intros H z Hz. apply H. rewrite <- (firstn_skipn n b). apply in_or_app. right. assumption.
Qed.

Lemma msort_sorted_incl b : incl b l -> StronglySorted R (msort cmp b).
Proof.
  apply (msort_ind (fun b r => incl b l -> StronglySorted R r)); clear b.
  - intros b Hb _. destruct b as [|x [|y b]]; [constructor|repeat constructor|cbn in Hb; lia].
  - intros b _ b1 b2 H1 H2 Hi.
    assert (I1 : incl b1 l) by (apply incl_firstn; assumption).
    assert (I2 : incl b2 l) by (apply incl_skipn; assumption).
    apply merge_sorted; [| |apply H1; assumption|apply H2; assumption].
    + intros z Hz. apply I1. apply (Permutation_in _ (Permutation_sym (msort_perm b1))). assumption.
    + intros z Hz. apply I2. apply (Permutation_in _ (Permutation_sym (msort_perm b2))). assumption.
Qed.

(** Merging keeps the elements picked by [f] in order, first those of
    [b1], when elements picked by [f] compare equal. *)
Variable f : A -> bool.
Hypothesis f_class : forall a b, In a l -> In b l -> f a = true -> f b = true -> cmp a b <= 0.

Lemma merge_stable b1 b2 :
  incl b1 l -> incl b2 l -> StronglySorted R b1 ->
  filter f (merge cmp b1 b2) = filter f b1 ++ filter f b2.
Proof.
  intros I1 I2 S1. revert b2 I2. induction S1 as [|x b1 S1 IH1 F1]; intros b2 I2.
  - destruct b2; reflexivity.
  - assert (Hx : In x l) by (apply I1; left; reflexivity).
    assert (I1' : incl b1 l) by (intros z Hz; apply I1; right; assumption).
    induction b2 as [|y b2 IH2]; [rewrite merge_nil_r, app_nil_r; reflexivity|].
    assert (Hy : In y l) by (apply I2; left; reflexivity).
    assert (I2' : incl b2 l) by (intros z Hz; apply I2; right; assumption).
    rewrite merge_cons. destruct (Z.leb_spec (cmp x y) 0) as [Hle|Hgt].
    + cbn [filter]. rewrite IH1 by assumption. destruct (f x); reflexivity.
    + cbn [filter]. rewrite (IH2 I2'). cbn [filter].
      destruct (f y) eqn:Fy; [|reflexivity].
      (* nothing of [x :: b1] is picked by [f] *)
      assert (Hnone : forall z, In z (x :: b1) -> f z = false).
      { intros z Hz. destruct (f z) eqn:Fz; [exfalso|reflexivity].
        assert (Hzl : In z l) by (apply I1; assumption).
        assert (Hzy : cmp z y <= 0) by (apply f_class; assumption).
        destruct Hz as [<-|Hz]; [lia|].
        rewrite Forall_forall in F1. destruct Hord as [_ Ht].
        pose proof (Ht x z y Hx Hzl Hy (F1 z Hz) Hzy). lia. }
      assert (E : filter f (x :: b1) = []).
      { clear - Hnone. induction (x :: b1) as [|z r IH]; [reflexivity|].
        cbn [filter]. rewrite (Hnone z (or_introl eq_refl)). apply IH.
        intros w Hw. apply Hnone. right. assumption. }
      cbn [filter] in E. rewrite E. reflexivity.
Qed.

Lemma msort_stable_incl b : incl b l -> filter f (msort cmp b) = filter f b.
Proof.
  apply (msort_ind (fun b r => incl b l -> filter f r = filter f b)); clear b.
  - reflexivity.
  - intros b _ b1 b2 H1 H2 Hi.
    assert (I1 : incl b1 l) by (apply incl_firstn; assumption).
    assert (I2 : incl b2 l) by (apply incl_skipn; assumption).
    rewrite merge_stable.
    + rewrite H1, H2 by assumption. rewrite <- filter_app. subst b1 b2.
      rewrite firstn_skipn. reflexivity.
    + intros z Hz. apply I1. apply (Permutation_in _ (Permutation_sym (msort_perm b1))). assumption.
    + intros z Hz. apply I2. apply (Permutation_in _ (Permutation_sym (msort_perm b2))). assumption.
    + apply msort_sorted_incl. assumption.
Qed.

End Ordered.

Lemma msort_sorted b :
  total_order_on b cmp -> StronglySorted (fun a b => cmp a b <= 0) (msort cmp b).
Proof. intros H. apply (msort_sorted_incl b H). apply incl_refl. Qed.

Lemma msort_stable (f : A -> bool) b :
  total_order_on b cmp ->
  (forall x y, In x b -> In y b -> f x = true -> f y = true -> cmp x y <= 0) ->
  filter f (msort cmp b) = filter f b.
Proof. intros H Hf. apply (msort_stable_incl b H f Hf). apply incl_refl. Qed.

(** The merge sort meets the contract of [qsort]. *)
Lemma msort_post b : qsort_post cmp b (msort cmp b).
Proof. split; [apply msort_perm | apply msort_sorted]. Qed.

End Msort.

(** ** The comparators order numbers *)

Lemma compare_desc_FV {A} (key : A -> float) a b :
  is_num (key a) = true -> is_num (key b) = true ->
  compare_desc key a b = Z.sgn (FV (key b) - FV (key a)).
Proof.
  intros Ha Hb. unfold compare_desc. rewrite !ltb_FV by assumption.
  destruct (Z.ltb_spec (FV (key a)) (FV (key b))); [lia|].
  destruct (Z.ltb_spec (FV (key b)) (FV (key a))); lia.
Qed.

Lemma compare_desc_opp {A} (key : A -> float) a b :
  compare_desc key a b = - compare_desc key b a.
Proof.
  unfold compare_desc.
  destruct (key a <? key b)%float eqn:E1, (key b <? key a)%float eqn:E2; try reflexivity.
  apply ltb_asym in E1. congruence.
Qed.

Lemma compare_desc_consistent {A} (key : A -> float) :
  consistent_on (fun a => is_num (key a) = true) (compare_desc key).
Proof.
  split; [apply compare_desc_opp|]. split.
  - intros a b c Ha Hb Hc. rewrite !compare_desc_FV by assumption. lia.
  - intros a b c Ha Hb Hc. rewrite !compare_desc_FV by assumption. lia.
Qed.

Lemma compare_desc_le {A} (key : A -> float) a b :
  compare_desc key a b <= 0 <-> (key a <? key b)%float = false.
Proof.
  unfold compare_desc.
  destruct (key a <? key b)%float; [split; [lia|discriminate]|].
  destruct (key b <? key a)%float; split; intros; try reflexivity; lia.
Qed.

Lemma compare_desc_total_order {A} (key : A -> float) l :
  Forall (fun a => is_num (key a) = true) l -> total_order_on l (compare_desc key).
Proof.
  intros H. rewrite Forall_forall in H. split.
  - intros a b Ha Hb. rewrite !compare_desc_FV by auto. lia.
  - intros a b c Ha Hb Hc. rewrite !compare_desc_FV by auto. lia.
Qed.

Lemma eqb_FV x y :
  (x =? y)%float = true -> is_num x = true /\ is_num y = true /\ FV x = FV y.
Proof.
  rewrite eqb_spec, !is_num_spec. unfold SFeqb, FV. intros H.
  destruct (sf_num (Prim2SF x)) eqn:Nx.
  2:{ destruct (Prim2SF x); try discriminate Nx. cbn in H. discriminate. }
  destruct (sf_num (Prim2SF y)) eqn:Ny.
  2:{ destruct (Prim2SF y); try discriminate Ny. destruct (Prim2SF x); cbn in H; discriminate. }
  rewrite SFcompare_V in H by auto with b64.
  destruct (Z.compare_spec (V (Prim2SF x)) (V (Prim2SF y))); try discriminate. auto.
Qed.

(** On keys that are numbers, every result the contract allows is a
    permutation in descending order. *)
Lemma qsort_post_descending {A} (key : A -> float) l out :
  Forall (fun a => is_num (key a) = true) l ->
  qsort_post (compare_desc key) l out ->
  Permutation l out /\ descending key out.
Proof.
  intros Hn [Hp Hs]. split; [assumption|].
  unfold descending. eapply StronglySorted_weaken; [|apply Hs, compare_desc_total_order, Hn].
  intros a b. apply compare_desc_le.
Qed.

(** On keys that are numbers, the merge sort gives a descending order
    in which elements with equal keys keep their input order. *)
Lemma msort_descending_stable {A} (key : A -> float) l :
  Forall (fun a => is_num (key a) = true) l ->
  descending key (msort (compare_desc key) l) /\
  stable_order key l (msort (compare_desc key) l).
Proof.
  intros Hn. pose proof (compare_desc_total_order key l Hn) as Ht. split.
  - apply (qsort_post_descending key l); [assumption | apply msort_post].
  - intros k. apply msort_stable; [assumption|].
    intros x y Hx Hy Ex Ey. apply eqb_FV in Ex, Ey.
    destruct Ex as (Nx & _ & Ex). destruct Ey as (Ny & _ & Ey).
    rewrite compare_desc_FV by assumption. lia.
Qed.

Lemma ranked_same_rows :
  ranked (load None [row_a; row_b]) (load None [row_a; row_b]).
Proof.
  split.
  - apply Permutation_refl.
  - intros _. cbn [load]. repeat constructor. vm_compute. discriminate.
Qed.

Lemma tied_drivers_swapped :
  qsort_post compare_driver_desc (collect_drivers tied_record)
    (rev (collect_drivers tied_record)).
Proof.
  split.
  - apply Permutation_rev.
  - intros _. vm_compute. repeat constructor; discriminate.
Qed.

(** ** Ranker *)

Lemma ranked_numeric loaded scholars :
  Forall (fun s => is_num (risk_score s) = true) loaded ->
  ranked loaded scholars ->
  Permutation loaded scholars /\ descending risk_score scholars.
Proof. intros Hn Hr. apply (qsort_post_descending risk_score loaded scholars Hn Hr). Qed.

(** C4 (as amended): when the risk scores of the loaded scholars are
    numbers, every result of the ranking that the contract of qsort allows
    is a permutation of them in which no scholar has a lower risk_score
    than a later one; the merge sort of the GNU C library is such a
    result, and in it scholars with equal risk_score keep their input
    order. *)
Theorem ranker_descending loaded :
  Forall (fun s => is_num (risk_score s) = true) loaded ->
  (forall scholars,
     ranked loaded scholars ->
     Permutation loaded scholars /\ descending risk_score scholars) /\
  ranked loaded (msort compare_risk_desc loaded) /\
  stable_order risk_score loaded (msort compare_risk_desc loaded).
Proof.
  intros Hn. split; [intros scholars Hr; apply ranked_numeric; assumption|].
  split; [apply (msort_post compare_risk_desc)|].
  apply (msort_descending_stable risk_score loaded Hn).
Qed.

Lemma ranker_descending_witness :
  (forall scholars,
     ranked (load None sample_rows) scholars ->
     Permutation (load None sample_rows) scholars /\ descending risk_score scholars) /\
  ranked (load None sample_rows) (msort compare_risk_desc (load None sample_rows)) /\
  stable_order risk_score (load None sample_rows)
    (msort compare_risk_desc (load None sample_rows)).
Proof.
  apply (ranker_descending (load None sample_rows)).
  cbn [load sample_rows]. repeat constructor.
Defined.

(** The sample rows score 70.5, 0, 82.5 and 70.5: the scholar scoring 82.5
    comes first, the two scoring 70.5 follow in their input order. *)
Example ranker_sample_order :
  map risk_score (load None sample_rows) = [70.5; 0; 82.5; 70.5]%float /\
  map id (msort compare_risk_desc (load None sample_rows))
  = ["C-3"; "A-1"; "B-2"; "Z-0"]%string.
Proof. split; vm_compute; reflexivity. Qed.

Lemma nan_rows_no_order :
  ~ total_order_on (load None nan_rows) compare_risk_desc.
Proof.
  intros [_ Ht]. cbn [load nan_rows] in Ht.
  specialize (Ht _ _ _ (or_introl eq_refl) (or_intror (or_introl eq_refl))
                (or_intror (or_intror (or_introl eq_refl)))).
  vm_compute in Ht. apply Ht; [discriminate | discriminate | reflexivity].
Qed.

(** C4 as stated fails: a loaded scholar whose score is NaN compares equal
    to every other one, so the comparator is no total ordering; the
    contract then allows, and the merge sort produces, the ranking in
    which the scores 0, NaN, 82.5 stay in their input order: 0 comes
    before 82.5. *)
Lemma ranker_nan_not_descending :
  map risk_score (load None nan_rows) = [0; nan; 82.5]%float /\
  ranked (load None nan_rows) (load None nan_rows) /\
  msort compare_risk_desc (load None nan_rows) = load None nan_rows /\
  ~ descending risk_score (load None nan_rows).
Proof.
  split; [vm_compute; reflexivity|].
  split; [split; [reflexivity | intros Ht; contradiction (nan_rows_no_order Ht)]|].
  split; [vm_compute; reflexivity|].
  unfold descending. cbn [load nan_rows]. intros H.
  apply StronglySorted_inv in H. destruct H as [_ H].
  apply Forall_inv_tail, Forall_inv in H. vm_compute in H. discriminate.
Qed.

(** ** DriverAnalyzer *)

Lemma collect_drivers_filter s :
  collect_drivers s = filter material (driver_terms s).
Proof.
  unfold collect_drivers, push_driver, driver_terms, material. cbn [filter value app].
  destruct (0.1 <? inactivity s)%float, (0.1 <? contact_gap s)%float,
    (0.1 <? attendance s)%float, (0.1 <? engagement s)%float,
    (0.1 <? gpa_term s)%float, (0.1 <? survey s)%float, (0.1 <? flags s)%float;
    reflexivity.
Qed.

Lemma numeric_record_iff s :
  numeric_record s = true <->
  is_num (days_inactive s) = true /\ is_num (attendance_rate s) = true /\
  is_num (engagement_score s) = true /\ is_num (gpa s) = true /\
  is_num (last_contact_days s) = true /\ is_num (survey_score s) = true /\
  in_int_range (open_flags s) = true.
Proof.
  unfold numeric_record, numeric_signals. rewrite !andb_true_iff. tauto.
Qed.

Lemma FV_nonzero_of_ltb c : (0 <? c)%float = true -> FV c <> 0.
Proof. intros H. apply ltb_iff in H. rewrite FV_zero in H. lia. Qed.

Lemma terms_num s :
  numeric_record s = true ->
  Forall (fun d => is_num (value d) = true) (driver_terms s).
Proof.
  intros H. apply numeric_record_iff in H.
  destruct H as (Hd & Ha & He & Hg & Hl & Hs & Hf).
  unfold driver_terms. repeat constructor; cbn [value].
  - apply mul_num; [assumption | by_computation | apply FV_nonzero_of_ltb; by_computation].
  - apply mul_num; [assumption | by_computation | apply FV_nonzero_of_ltb; by_computation].
  - apply finite_num.
    apply gap_term_finite; [by_computation .. | assumption].
  - apply finite_num.
    apply gap_term_finite; [by_computation .. | assumption].
  - apply finite_num.
    apply gap_term_finite; [by_computation .. | assumption].
  - apply finite_num.
    apply gap_term_finite; [by_computation .. | assumption].
  - apply finite_num. apply flags_finite. assumption.
Qed.

Lemma not_material_le v :
  is_num v = true -> (0.1 <? v)%float = false <-> (v <=? 0.1)%float = true.
Proof.
  intros Hv. rewrite ltb_FV, leb_FV by (try assumption; reflexivity).
  rewrite Z.ltb_ge, Z.leb_le. tauto.
Qed.

Lemma material_not_le v :
  (0.1 <? v)%float = true -> (v <=? 0.1)%float = false.
Proof.
  intros H. destruct (ltb_true_num _ _ H) as [H1 Hv].
  rewrite ltb_FV in H by assumption. rewrite leb_FV by assumption.
  apply Z.ltb_lt in H. apply Z.leb_gt. assumption.
Qed.

Lemma filter_nil_iff {A} (f : A -> bool) l :
  filter f l = [] <-> Forall (fun x => f x = false) l.
Proof.
  induction l as [|x l IH]; simpl.
  - split; constructor.
  - destruct (f x) eqn:E; split; intros H.
    + discriminate.
    + inversion H; congruence.
    + constructor; [assumption | apply IH; assumption].
    + inversion H; subst. apply IH; assumption.
Qed.

Lemma in_firstn {A} (x : A) n l : In x (firstn n l) -> In x l.
Proof.
  revert l. induction n as [|n IH]; intros [|y l]; simpl; try tauto.
  intros [H|H]; [left; assumption | right; apply IH; assumption].
Qed.

Lemma collect_drivers_num s :
  Forall (fun d => is_num (value d) = true) (collect_drivers s).
Proof.
  rewrite collect_drivers_filter. apply Forall_forall. intros d Hd.
  apply filter_In in Hd. destruct Hd as [_ Hm]. unfold material in Hm.
  apply ltb_true_num in Hm. apply Hm.
Qed.

Lemma sorted_drivers s sorted :
  qsort_post compare_driver_desc (collect_drivers s) sorted ->
  Permutation (collect_drivers s) sorted /\ descending value sorted.
Proof. apply (qsort_post_descending value), collect_drivers_num. Qed.

Lemma collect_nil_iff s :
  collect_drivers s = [] <->
  Forall (fun d => (0.1 <? value d)%float = false) (driver_terms s).
Proof. rewrite collect_drivers_filter. apply filter_nil_iff. Qed.

Lemma format_stable_only s r :
  collect_drivers s = [] -> format_drivers s r -> r = Stable.
Proof. intros E Hr. destruct Hr as [_|sorted Hne _]; [reflexivity|contradiction]. Qed.

Lemma format_drivers_total s : exists r, format_drivers s r.
Proof.
  destruct (collect_drivers s) as [|d l] eqn:E.
  - exists Stable. apply format_stable. assumption.
  - eexists. apply format_listed with (sorted := msort compare_driver_desc (collect_drivers s)).
    + rewrite E. discriminate.
    + apply msort_post.
Qed.

Lemma format_tied_swapped :
  format_drivers tied_record (Listed (rev (collect_drivers tied_record))).
Proof.
  refine (format_listed tied_record (rev (collect_drivers tied_record)) _ tied_drivers_swapped).
  vm_compute. discriminate.
Qed.

(** C5: the qualifying terms are collected in the declaration order
    inactivity, contact gap, attendance, engagement, gpa, survey, open
    flags; every result of sorting them that the contract of qsort allows
    is a permutation of them in which no term has a smaller magnitude than
    a later one; the merge sort of the GNU C library is such a result, and
    in it terms of equal magnitude keep the declaration order. *)
Theorem drivers_descending s :
  map label (driver_terms s)
  = ["inactivity"; "contact gap"; "attendance"; "engagement"; "gpa"; "survey";
     "open flags"]%string /\
  collect_drivers s = filter material (driver_terms s) /\
  (forall sorted,
     qsort_post compare_driver_desc (collect_drivers s) sorted ->
     Permutation (collect_drivers s) sorted /\ descending value sorted) /\
  qsort_post compare_driver_desc (collect_drivers s)
    (msort compare_driver_desc (collect_drivers s)) /\
  stable_order value (collect_drivers s)
    (msort compare_driver_desc (collect_drivers s)).
Proof.
  split; [reflexivity|].
  split; [apply collect_drivers_filter|].
  split; [intros sorted; apply sorted_drivers|].
  split; [apply (msort_post compare_driver_desc)|].
  apply (msort_descending_stable value), collect_drivers_num.
Qed.

(** The inactivity and the open-flags term of [tied_record] are both 6.0:
    "inactivity", declared first, is listed first. *)
Example tied_drivers_order :
  map value (collect_drivers tied_record) = [6.0; 6.0]%float /\
  map label (msort compare_driver_desc (collect_drivers tied_record))
  = ["inactivity"; "open flags"]%string.
Proof. split; vm_compute; reflexivity. Qed.

(** C6 (as amended): for every record, the result is "stable" exactly
    when none of the seven terms exceeds 0.1, and otherwise a list of at
    least one driver, each above 0.1 and so not at most 0.1; for a record
    whose signals are numbers, no term exceeds 0.1 exactly when all seven
    are at most 0.1. *)
Theorem drivers_material s :
  (Forall (fun d => (0.1 <? value d)%float = false) (driver_terms s) ->
   format_drivers s Stable /\ (forall r, format_drivers s r -> r = Stable)) /\
  (~ Forall (fun d => (0.1 <? value d)%float = false) (driver_terms s) ->
   (exists shown, format_drivers s (Listed shown)) /\
   (forall r, format_drivers s r ->
      exists shown, r = Listed shown /\ shown <> [] /\
        Forall (fun d => (0.1 <? value d)%float = true /\
                         (value d <=? 0.1)%float = false) shown)) /\
  (numeric_record s = true ->
   (Forall (fun d => (0.1 <? value d)%float = false) (driver_terms s) <->
    Forall (fun d => (value d <=? 0.1)%float = true) (driver_terms s))).
Proof.
  split; [|split].
  - intros Hnone. apply collect_nil_iff in Hnone. split.
    + apply format_stable. assumption.
    + intros r. apply format_stable_only. assumption.
  - intros Hsome.
    assert (Hne : collect_drivers s <> []).
    { intros E. apply Hsome. apply collect_nil_iff. assumption. }
    split.
    + eexists. apply (format_listed s _ Hne (msort_post compare_driver_desc _)).
    + intros r Hr. destruct Hr as [Hc|sorted _ [Hp _]]; [contradiction|].
      exists (firstn 3 sorted). split; [reflexivity|]. split.
      * destruct sorted as [|d sorted]; [|discriminate].
        apply Permutation_sym, Permutation_nil in Hp. contradiction.
      * apply Forall_forall. intros d Hd. apply in_firstn in Hd.
        apply (Permutation_in _ (Permutation_sym Hp)) in Hd.
        rewrite collect_drivers_filter in Hd. apply filter_In in Hd.
        destruct Hd as [_ Hm]. unfold material in Hm.
        split; [assumption | apply material_not_le; assumption].
  - intros Hs. pose proof (terms_num s Hs) as Hnum.
    rewrite !Forall_forall in *. split; intros H d Hd.
    + apply not_material_le; [apply Hnum; assumption | apply H; assumption].
    + apply not_material_le; [apply Hnum; assumption | apply H; assumption].
Qed.

Lemma drivers_material_witness :
  (format_drivers row_zero Stable /\
   (forall r, format_drivers row_zero r -> r = Stable)) /\
  ((exists shown, format_drivers tied_record (Listed shown)) /\
   (forall r, format_drivers tied_record r ->
      exists shown, r = Listed shown /\ shown <> [] /\
        Forall (fun d => (0.1 <? value d)%float = true /\
                         (value d <=? 0.1)%float = false) shown)).
Proof.
  split.
  - apply (proj1 (drivers_material row_zero)).
    unfold driver_terms. repeat constructor.
  - apply (proj1 (proj2 (drivers_material tied_record))).
    unfold driver_terms. intros H. apply Forall_inv in H. vm_compute in H. discriminate.
Defined.

(** C6 as stated fails: the inactivity term of a record whose
    days_inactive is NaN is NaN, which is neither above 0.1 nor at most
    0.1; with all other terms zero the result is "stable" although not all
    seven terms are at most 0.1. *)
Lemma nan_record_is_stable :
  format_drivers row_nan Stable /\
  (forall r, format_drivers row_nan r -> r = Stable) /\
  ~ Forall (fun d => (value d <=? 0.1)%float = true) (driver_terms row_nan).
Proof.
  assert (E : collect_drivers row_nan = []) by (vm_compute; reflexivity).
  split; [apply format_stable; assumption|].
  split; [intros r; apply format_stable_only; assumption|].
  unfold driver_terms. intros H. apply Forall_inv in H. vm_compute in H. discriminate.
Qed.

(** ** Classifier *)

Example risk_tier_bands :
  risk_tier 75 = "high"%string /\ risk_tier 74.9 = "medium"%string /\
  risk_tier 50 = "medium"%string /\ risk_tier 49.9 = "low"%string.
Proof. repeat split; vm_compute; reflexivity. Qed.

(** C7: the recommended action is the first matching rule of the ordered
    decision list (days_inactive >= 30, attendance_rate < 70, gpa < 2.5,
    open_flags > 0, engagement_score < 60), else "lightweight check-in". *)
Theorem action_hint_decision_list s :
  action_hint s = first_match action_rules "lightweight check-in" s.
Proof.
  unfold action_hint, action_rules, first_match.
  destruct (30.0 <=? days_inactive s)%float; [reflexivity|].
  destruct (attendance_rate s <? 70.0)%float; [reflexivity|].
  destruct (gpa s <? 2.5)%float; [reflexivity|].
  destruct (0 <? open_flags s); [reflexivity|].
  destruct (engagement_score s <? 60.0)%float; reflexivity.
Qed.

(** ** CohortAggregator *)

Lemma fold_record_tally cohorts s :
  fold_record cohorts s = tally (cohort s) (risk_score s) cohorts.
Proof.
  unfold fold_record, find_or_create_cohort.
  induction cohorts as [|cs rest IH]; [reflexivity|].
  cbn [find_cohort tally].
  destruct (cs_name cs =? cohort s)%string; [reflexivity|].
  destruct (find_cohort rest (cohort s)) as [i|]; cbn [option_map].
  - cbn [update_at]. f_equal. exact IH.
  - cbn [app List.length update_at]. f_equal. exact IH.
Qed.

Lemma add_record_name r cs : cs_name (add_record r cs) = cs_name cs.
Proof.
  unfold add_record.
  destruct (risk_tier r =? "high")%string; [reflexivity|].
  destruct (risk_tier r =? "medium")%string; reflexivity.
Qed.

Lemma add_record_counts r cs :
  total (add_record r cs) = total cs + 1 /\
  high (add_record r cs) + medium (add_record r cs) + low (add_record r cs)
  = high cs + medium cs + low cs + 1.
Proof.
  unfold add_record.
  destruct (risk_tier r =? "high")%string; [cbn; lia|].
  destruct (risk_tier r =? "medium")%string; cbn; lia.
Qed.

Lemma tally_names n r cohorts :
  map cs_name (tally n r cohorts)
  = if in_dec string_dec n (map cs_name cohorts)
    then map cs_name cohorts
    else map cs_name cohorts ++ [n].
Proof.
  induction cohorts as [|cs rest IH].
  - cbn. rewrite add_record_name. reflexivity.
  - cbn [tally map]. destruct (String.eqb_spec (cs_name cs) n) as [E|NE].
    + cbn [map]. rewrite add_record_name. clear IH.
      destruct (in_dec string_dec n (cs_name cs :: map cs_name rest)) as [_|NI]; [reflexivity|].
      contradiction NI. left. assumption.
    + cbn [map]. rewrite IH.
      destruct (in_dec string_dec n (map cs_name rest)) as [I|NI];
        destruct (in_dec string_dec n (cs_name cs :: map cs_name rest)) as [I'|NI'];
        try reflexivity.
      * contradiction NI'. right. assumption.
      * destruct I' as [E|I']; [contradiction|contradiction].
Qed.

Lemma tally_Forall (P P' : CohortSummary -> Prop) n r cohorts :
  NoDup (map cs_name cohorts) ->
  Forall P cohorts ->
  (forall cs, P cs -> cs_name cs = n -> P' (add_record r cs)) ->
  (forall cs, P cs -> cs_name cs <> n -> P' cs) ->
  (~ In n (map cs_name cohorts) -> P' (add_record r (mkCohortSummary n 0 0 0 0 0.0))) ->
  Forall P' (tally n r cohorts).
Proof.
  intros Hnd HP Hhit Hmiss Hnew.
  induction cohorts as [|cs rest IH].
  - cbn. constructor; [|constructor]. apply Hnew. intros [].
  - cbn [tally]. inversion HP as [|? ? Pcs Prest]; subst.
    cbn [map] in Hnd. inversion Hnd as [|? ? Hnotin Hnd']; subst.
    destruct (String.eqb_spec (cs_name cs) n) as [E|NE].
    + constructor; [apply Hhit; assumption|].
      rewrite Forall_forall in *. intros cs' Hin. apply Hmiss; [apply Prest; assumption|].
      intros E'. apply Hnotin. rewrite E, <- E'. apply in_map. assumption.
    + constructor; [apply Hmiss; assumption|].
      apply IH; try assumption.
      intros NI. apply Hnew. cbn [map]. intros [E|I]; [contradiction|contradiction].
Qed.

Lemma cohort_size_snoc n l s :
  cohort_size n (l ++ [s]) = cohort_size n l + (if (cohort s =? n)%string then 1 else 0).
Proof.
  unfold cohort_size. rewrite filter_app, length_app. cbn [filter].
  destruct (cohort s =? n)%string; cbn [List.length]; lia.
Qed.

Lemma cohort_size_absent n l :
  (forall s, In s l -> cohort s <> n) -> cohort_size n l = 0.
Proof.
  intros H. unfold cohort_size.
  induction l as [|s l IH]; [reflexivity|]. cbn [filter].
  destruct (String.eqb_spec (cohort s) n) as [E|NE].
  - exfalso. apply (H s); [left; reflexivity | assumption].
  - apply IH. intros s' Hs'. apply H. right. assumption.
Qed.

Lemma agg_inv_step l cohorts s :
  agg_inv l cohorts -> agg_inv (l ++ [s]) (fold_record cohorts s).
Proof.
  intros (Hnd & Hok & Hcov). rewrite fold_record_tally.
  split; [|split].
  - rewrite tally_names. destruct (in_dec _ _ _) as [I|NI]; [assumption|].
    apply NoDup_app; [assumption | repeat constructor; intros [] | ].
    intros x Hx [E|[]]. subst x. contradiction.
  - apply tally_Forall with (P := summary_ok l); try assumption.
    + intros cs [H1 H2] E. unfold summary_ok.
      rewrite add_record_name, cohort_size_snoc, E, String.eqb_refl.
      rewrite E in H2.
      destruct (add_record_counts (risk_score s) cs) as [T S]. lia.
    + intros cs [H1 H2] NE. unfold summary_ok.
      rewrite cohort_size_snoc.
      destruct (String.eqb_spec (cohort s) (cs_name cs)) as [E|_]; [congruence|lia].
    + intros NI. unfold summary_ok.
      rewrite add_record_name. cbn [cs_name].
      rewrite cohort_size_snoc, String.eqb_refl.
      rewrite cohort_size_absent.
      2:{ intros s' Hs' E. apply NI. rewrite <- E. apply Hcov. assumption. }
      destruct (add_record_counts (risk_score s) (mkCohortSummary (cohort s) 0 0 0 0 0.0)) as [T S].
      cbn [total high medium low] in T, S. lia.
  - intros s' Hs'. rewrite tally_names.
    apply in_app_or in Hs'. destruct Hs' as [Hs'|[E|[]]].
    + destruct (in_dec _ _ _); [|apply in_or_app; left]; apply Hcov; assumption.
    + subst s'. destruct (in_dec _ _ _) as [I|NI]; [assumption|].
      apply in_or_app. right. left. reflexivity.
Qed.

Lemma aggregate_snoc l s : aggregate (l ++ [s]) = fold_record (aggregate l) s.
Proof. unfold aggregate. rewrite fold_left_app. reflexivity. Qed.

Lemma aggregate_inv l : agg_inv l (aggregate l).
Proof.
  induction l as [|s l IH] using rev_ind.
  - repeat split; [constructor | constructor | intros s []].
  - rewrite aggregate_snoc. apply agg_inv_step. assumption.
Qed.

Example aggregate_three_scores :
  aggregate [with_risk row_a 80; with_risk row_b 60; with_risk example_record 40]
  = [mkCohortSummary "alpha" 3 1 1 1 180].
Proof. vm_compute. reflexivity. Qed.

(** C3: in every summary produced by folding a sequence of scored records,
    high + medium + low equals total, and total is the number of folded
    records of that cohort. *)
Theorem cohort_counts scholars :
  Forall (fun cs =>
            high cs + medium cs + low cs = total cs /\
            total cs = cohort_size (cs_name cs) scholars)
         (aggregate scholars).
Proof. apply (aggregate_inv scholars). Qed.

(** ** main: the no-records exit, the export and the action queue *)

Lemma export_rows_filter threshold scholars :
  export_rows threshold scholars = filter (at_or_above threshold) scholars.
Proof.
  unfold at_or_above. induction scholars as [|s rest IH]; [reflexivity|].
  cbn [export_rows filter]. destruct (risk_score s <? threshold)%float; cbn [negb].
  - exact IH.
  - f_equal. exact IH.
Qed.

Lemma action_queue_from_firstn lim threshold scholars printed :
  action_queue_from lim threshold scholars printed
  = firstn (Z.to_nat (lim - printed)) (export_rows threshold scholars).
Proof.
  revert printed. induction scholars as [|s rest IH]; intros printed.
  - cbn. rewrite firstn_nil. reflexivity.
  - cbn [action_queue_from export_rows].
    destruct (Z.ltb_spec printed lim) as [Hlt|Hge].
    + destruct (risk_score s <? threshold)%float.
      * apply IH.
      * rewrite IH.
        replace (Z.to_nat (lim - printed)) with (S (Z.to_nat (lim - (printed + 1)))) by lia.
        reflexivity.
    + replace (Z.to_nat (lim - printed)) with O by lia. reflexivity.
Qed.

(** C10 (as amended): the export and the action queue apply the same
    threshold test to the same ranked sequence; only the action queue
    applies the limit, so the queue is the first N rows of the export
    selection (none when N <= 0). *)
Theorem queue_is_limited_export lim threshold scholars :
  export_rows threshold scholars = filter (at_or_above threshold) scholars /\
  action_queue lim threshold scholars
  = firstn (Z.to_nat lim) (export_rows threshold scholars).
Proof.
  split; [apply export_rows_filter|].
  unfold action_queue. rewrite action_queue_from_firstn. rewrite Z.sub_0_r. reflexivity.
Qed.

(** C10 as stated fails: with limit 1 and threshold 0 the queue holds one
    of the two ranked scholars, the export both. *)
Lemma queue_differs_from_export :
  ranked (load None [row_a; row_b]) (load None [row_a; row_b]) /\
  action_queue 1 0.0 (load None [row_a; row_b])
  <> export_rows 0.0 (load None [row_a; row_b]).
Proof. split; [apply ranked_same_rows|]. vm_compute. discriminate. Qed.

Lemma export_rows_none threshold scholars :
  Forall (fun s => (risk_score s <? threshold)%float = true) scholars ->
  export_rows threshold scholars = [].
Proof.
  induction 1 as [|s rest Hs _ IH]; [reflexivity|].
  cbn [export_rows]. rewrite Hs. exact IH.
Qed.

Lemma load_nil_iff filter rows :
  load filter rows = [] <-> Forall (fun r => excluded filter r = true) rows.
Proof.
  induction rows as [|row rows IH]; cbn [load]; [split; constructor|]. cbv zeta.
  destruct filter as [c|]; cbn [excluded cohort with_risk] in *.
  - destruct (negb (cohort row =? c)%string) eqn:E.
    + rewrite IH. split; intros H; [constructor; assumption|].
      apply Forall_inv_tail in H. assumption.
    + split; [discriminate|]. intros H. apply Forall_inv in H. congruence.
  - split; [discriminate|]. intros H. apply Forall_inv in H. discriminate.
Qed.

Lemma main_run_total o fs rows : exists out, main_run o fs rows out.
Proof.
  destruct (load (cohort_filter o) rows) as [|s l] eqn:E.
  { exists NoRecordsLoaded. apply run_no_records. assumption. }
  assert (Hne : load (cohort_filter o) rows <> []) by (rewrite E; discriminate).
  clear E s l.
  pose proof (msort_post compare_risk_desc (load (cohort_filter o) rows)) as Hr.
  destruct (export o && negb (export_opens fs)) eqn:Ee.
  { apply andb_true_iff in Ee. destruct Ee as [E1 E2]. apply negb_true_iff in E2.
    exists ExportFailed. apply run_export_failed; assumption. }
  assert (He : export o = true -> export_opens fs = true).
  { intros E1. rewrite E1 in Ee. destruct (export_opens fs); [reflexivity|discriminate]. }
  destruct (summary o && negb (summary_opens fs)) eqn:Es.
  { apply andb_true_iff in Es. destruct Es as [E1 E2]. apply negb_true_iff in E2.
    eexists. apply (run_summary_failed o fs rows _ Hne Hr He E1 E2). }
  assert (Hs : summary o = true -> summary_opens fs = true).
  { intros E1. rewrite E1 in Es. destruct (summary_opens fs); [reflexivity|discriminate]. }
  eexists. apply (run_report o fs rows _ Hne Hr He Hs).
Qed.

(** The run on two rows that both score 70.5, with threshold 99. *)
Lemma strict_run :
  main_run strict_options open_files [row_a; row_b]
    (Report (Z.of_nat (List.length (load None [row_a; row_b])))
       (exported_rows strict_options (load None [row_a; row_b]))
       (action_queue 10 99.0 (load None [row_a; row_b]))
       (negb (json strict_options) &&
        (List.length (action_queue 10 99.0 (load None [row_a; row_b])) =? 0)%nat)).
Proof.
  apply (run_report strict_options open_files [row_a; row_b] _
           ltac:(cbn; discriminate) ranked_same_rows); intros; reflexivity.
Qed.

(** C9 (as amended): every run has an outcome; it is "No records loaded"
    exactly when the cohort filter drops every row (or there is none);
    when rows remain and none reaches the minimum risk the outcome is
    another one: the export or the summary file cannot be opened and the
    run ends with that error, or else the run completes with an empty
    export, an empty action queue and, in the text report, the no-match
    line. *)
Theorem no_records_outcome o fs rows :
  (exists out, main_run o fs rows out) /\
  (forall out,
     main_run o fs rows out ->
     (out = NoRecordsLoaded <->
      Forall (fun r => excluded (cohort_filter o) r = true) rows) /\
     (load (cohort_filter o) rows <> [] ->
      Forall (fun s => (risk_score s <? min_risk o)%float = true)
        (load (cohort_filter o) rows) ->
      out = if export o && negb (export_opens fs) then ExportFailed
            else if summary o && negb (summary_opens fs)
            then SummaryFailed (if export o then Some [] else None)
            else Report (Z.of_nat (List.length (load (cohort_filter o) rows)))
                   (if export o then Some [] else None) [] (negb (json o)))).
Proof.
  split; [apply main_run_total|].
  intros out Hrun.
  assert (Hnone : forall scholars,
            ranked (load (cohort_filter o) rows) scholars ->
            Forall (fun s => (risk_score s <? min_risk o)%float = true)
              (load (cohort_filter o) rows) ->
            export_rows (min_risk o) scholars = [] /\
            List.length scholars = List.length (load (cohort_filter o) rows)).
  { intros scholars [Hp _] Hall. split; [|symmetry; apply Permutation_length; assumption].
    apply export_rows_none. rewrite Forall_forall in *. intros s Hin. apply Hall.
    apply Permutation_in with scholars; [apply Permutation_sym|]; assumption. }
  rewrite <- load_nil_iff.
  destruct Hrun as [Hnil | Hne He Ho | scholars Hne Hrk He Hs Ho | scholars Hne Hrk He Hs].
  - split; [tauto|]. intros Hne. contradiction.
  - split; [split; [discriminate | intros E; contradiction]|].
    intros _ _. rewrite He, Ho. reflexivity.
  - split; [split; [discriminate | intros E; contradiction]|].
    intros _ Hall. destruct (Hnone scholars Hrk Hall) as [Ex _].
    unfold exported_rows. rewrite Ex, Hs, Ho.
    destruct (export o); [rewrite He by reflexivity|]; reflexivity.
  - split; [split; [discriminate | intros E; contradiction]|].
    intros _ Hall. destruct (Hnone scholars Hrk Hall) as [Ex El].
    unfold exported_rows, action_queue. rewrite action_queue_from_firstn, Ex, El, firstn_nil.
    cbn [List.length Nat.eqb]. rewrite andb_true_r.
    destruct (export o); [rewrite He by reflexivity|];
      (destruct (summary o); [rewrite Hs by reflexivity|]); reflexivity.
Qed.

Lemma no_records_outcome_witness :
  Report (Z.of_nat (List.length (load None [row_a; row_b])))
    (exported_rows strict_options (load None [row_a; row_b]))
    (action_queue 10 99.0 (load None [row_a; row_b]))
    (negb (json strict_options) &&
     (List.length (action_queue 10 99.0 (load None [row_a; row_b])) =? 0)%nat)
  = Report 2 None [] true.
Proof.
  refine (proj2 (proj2 (no_records_outcome strict_options open_files [row_a; row_b]) _
            strict_run) _ _).
  - cbn. discriminate.
  - cbn [load]. repeat constructor; vm_compute; reflexivity.
Defined.

(** C9 as stated fails: two rows exist and the cohort filter excludes both;
    the only outcome is "No records loaded", the outcome of a run on no
    rows at all. *)
Lemma cohort_filter_reports_no_records :
  [row_a; row_b] <> [] /\
  load (cohort_filter other_cohort_options) [row_a; row_b] = [] /\
  main_run other_cohort_options open_files [row_a; row_b] NoRecordsLoaded /\
  (forall out, main_run other_cohort_options open_files [row_a; row_b] out ->
     out = NoRecordsLoaded) /\
  main_run other_cohort_options open_files [] NoRecordsLoaded.
Proof.
  split; [discriminate|]. split; [reflexivity|].
  split; [apply run_no_records; reflexivity|].
  split; [|apply run_no_records; reflexivity].
  intros out Hrun.
  destruct Hrun as [|Hne _ _|scholars Hne _ _ _ _|scholars Hne _ _ _];
    [reflexivity | | |]; contradiction Hne; reflexivity.
Qed.

(** ** Division rounds a two-bit refinement of the quotient *)

Lemma loc_code_range l : 0 <= loc_code l < 4.
Proof. destruct l as [|[]]; cbn; lia. Qed.

Lemma shr_record_of_code q l :
  shr_record_of_loc q l = shr_closed (4 * q + loc_code l) 2.
Proof.
  pose proof (loc_code_range l) as B.
  unfold shr_closed. change (2 ^ 2) with 4. change (2 ^ (2 - 1)) with 2.
  assert (E4 : (4 * q + loc_code l) / 4 = q).
  { symmetry. apply Z.div_unique with (loc_code l); lia. }
  assert (E2 : (4 * q + loc_code l) / 2 = 2 * q + loc_code l / 2).
  { replace (4 * q + loc_code l) with (loc_code l + (2 * q) * 2) by lia.
    rewrite Z.div_add by lia. lia. }
  assert (M2 : (4 * q + loc_code l) mod 2 = loc_code l mod 2).
  { replace (4 * q + loc_code l) with (loc_code l + (2 * q) * 2) by lia.
    apply Z.mod_add; lia. }
  rewrite E4, E2, M2.
  replace (2 * q + loc_code l / 2) with (loc_code l / 2 + 2 * q) by lia.
  rewrite Z.odd_add_mul_2.
  destruct l as [|[]]; reflexivity.
Qed.

Lemma Zdigits2_log2 z : 0 < z -> Zdigits2 z = Z.log2 z + 1.
Proof. destruct z as [|p|p]; try lia. intros _. apply digits2_log2. Qed.

Lemma log2_code q c : 0 < q -> 0 <= c < 4 -> Z.log2 (4 * q + c) = Z.log2 q + 2.
Proof.
  intros Hq Hc. pose proof (log2_bounds q ltac:(lia)) as [Hu Hl]. specialize (Hl Hq).
  pose proof (Z.log2_nonneg q).
  apply Z.log2_unique; [lia|].
  replace (Z.succ (Z.log2 q + 2)) with (Z.log2 q + 1 + 2) by lia.
  rewrite !Z.pow_add_r in * by lia. change (2 ^ 2) with 4. change (2 ^ 1) with 2 in *. lia.
Qed.

Lemma shr_fexp_inexact q e l :
  0 <= q -> 0 < 4 * q + loc_code l ->
  e <= fexp prec emax (Zdigits2 q + e) ->
  shr_fexp prec emax q e l
  = shr_fexp prec emax (4 * q + loc_code l) (e - 2) loc_Exact
  /\ e - 2 <= fexp prec emax (Zdigits2 (4 * q + loc_code l) + (e - 2)).
Proof.
  intros Hq HN He. pose proof (loc_code_range l) as B.
  set (N := 4 * q + loc_code l) in *.
  assert (Hf : fexp prec emax (Zdigits2 N + (e - 2)) = fexp prec emax (Zdigits2 q + e)).
  { rewrite !fexp_eq in *. rewrite (Zdigits2_log2 N) by assumption.
    destruct (Z.eq_dec q 0) as [->|Hq0].
    - cbn [Zdigits2] in *.
      assert (Z.log2 N <= 1).
      { destruct (Z_le_gt_dec (Z.log2 N) 1); [assumption|].
        pose proof (log2_bounds N ltac:(lia)) as [_ Hl]. specialize (Hl HN).
        assert (2 ^ 2 <= 2 ^ Z.log2 N) by (apply Z.pow_le_mono_r; lia).
        change (2 ^ 2) with 4 in *. lia. }
      lia.
    - rewrite (Zdigits2_log2 q) by lia. subst N. rewrite log2_code by lia. lia. }
  split; [|rewrite Hf; lia].
  unfold shr_fexp. rewrite Hf. rewrite shr_record_of_code. fold N.
  set (n := fexp prec emax (Zdigits2 q + e) - e).
  assert (Hn : 0 <= n) by (subst n; lia).
  replace (fexp prec emax (Zdigits2 q + e) - (e - 2)) with (n + 2) by (subst n; lia).
  change (shr_record_of_loc N loc_Exact) with (Build_shr_record N false false).
  unfold shr. destruct n as [|p|p]; [| |lia].
  - cbn [Z.add]. rewrite iter_pos_nat. change (Pos.to_nat 2) with 2%nat.
    rewrite shr_iter by lia. f_equal. lia.
  - change (Z.pos p + 2) with (Z.pos (p + 2)). rewrite !iter_pos_nat.
    rewrite Pos2Nat.inj_add. change (Pos.to_nat 2) with 2%nat.
    rewrite Nat.iter_add. rewrite shr_iter by lia. f_equal. lia.
Qed.

Lemma bra_inexact s q e l :
  0 <= q -> 0 < 4 * q + loc_code l ->
  e <= fexp prec emax (Zdigits2 q + e) -> -2146 <= e ->
  binary_round_aux prec emax s q e l <> S754_nan /\
  V (binary_round_aux prec emax s q e l)
  = cond_Zopp s (round_pos ((4 * q + loc_code l) * 2 ^ (e + 2146))).
Proof.
  intros Hq HN He Hlo.
  destruct (shr_fexp_inexact q e l Hq HN He) as [E Hal].
  assert (Eb : binary_round_aux prec emax s q e l
               = binary_round_aux prec emax s (4 * q + loc_code l) (e - 2) loc_Exact).
  { unfold binary_round_aux. rewrite E. reflexivity. }
  rewrite Eb. destruct (4 * q + loc_code l) as [|p|p] eqn:EN; try lia.
  cbn [Zdigits2] in Hal.
  destruct (bra_spec s p (e - 2) Hal ltac:(lia)) as [Hn HV].
  split; [exact Hn|]. rewrite HV.
  replace (e - 2 + 2148) with (e + 2146) by lia. reflexivity.
Qed.

Lemma new_location_code m r :
  0 < m -> 0 <= r < m ->
  let c := loc_code (new_location m r) in
  (r = 0 /\ c = 0) \/ (0 < 2 * r < m /\ c = 1) \/ (2 * r = m /\ c = 2) \/ (m < 2 * r /\ c = 3).
Proof.
  intros Hm Hr. cbv zeta. unfold new_location, new_location_even, new_location_odd.
  destruct (Z.even m) eqn:Ev.
  - destruct (Z.eqb_spec r 0) as [->|Hr0]; [left; split; reflexivity|].
    right. destruct (Z.compare_spec (2 * r) m); cbn [loc_code]; lia.
  - destruct (Z.eqb_spec r 0) as [->|Hr0]; [left; split; reflexivity|].
    right.
    assert (Hne : 2 * r <> m).
    { intros <-. rewrite Z.even_mul in Ev. discriminate. }
    destruct (Z.compare_spec (2 * r + 1) m); cbn [loc_code]; lia.
Qed.

Lemma pow2_pos k : 0 <= k -> 0 < 2 ^ k.
Proof. intros. apply Z.pow_pos_nonneg; lia. Qed.

(** The quotient of a [d1]-digit by a [d2]-digit number, the dividend
    shifted by [s], has at least [d1 - d2 + s] digits. *)
Lemma quotient_digits m1 m2 q r d1 d2 s :
  2 ^ (d1 - 1) <= m1 -> 0 < m2 < 2 ^ d2 -> 1 <= d1 -> 1 <= d2 -> 0 <= s ->
  m1 * 2 ^ s = m2 * q + r -> 0 <= r < m2 -> 0 < d1 - d2 + s ->
  2 ^ (d1 - d2 + s - 1) <= q.
Proof.
  intros H1 H2 Hd1 Hd2 Hs E Hr Hk.
  pose proof (pow2_pos s Hs) as Ps.
  pose proof (pow2_pos (d1 - d2 + s - 1) ltac:(lia)) as PA.
  assert (EAB : 2 ^ (d1 - 1) * 2 ^ s = 2 ^ (d1 - d2 + s - 1) * 2 ^ d2).
  { rewrite <- !Z.pow_add_r by lia. f_equal. lia. }
  set (A := 2 ^ (d1 - d2 + s - 1)) in *. set (B := 2 ^ d2) in *.
  assert (Hlow : A * B <= m2 * q + r).
  { rewrite <- E, <- EAB. apply Z.mul_le_mono_nonneg_r; lia. }
  destruct (Z_le_gt_dec A q) as [|Hlt]; [assumption|exfalso].
  assert (m2 * (q + 1) <= m2 * A) by (apply Z.mul_le_mono_nonneg_l; lia).
  assert (A * m2 < A * B) by (apply Z.mul_lt_mono_pos_l; lia).
  lia.
Qed.

(** The refined quotient [4 q + code] does not exceed a multiple of four
    that the exact quotient does not exceed. *)
Lemma refined_quotient_le m q r c P :
  0 < m -> 0 <= r < m -> m * q + r <= m * P ->
  0 <= c <= 3 -> (r = 0 -> c = 0) ->
  4 * q + c <= 4 * P.
Proof.
  intros Hm Hr Hle Hc H0.
  destruct (Z.eq_dec r 0) as [->|Hr0].
  - rewrite H0 by reflexivity.
    assert (q <= P); [|lia].
    apply Z.mul_le_mono_pos_l with m; lia.
  - assert (q < P); [|lia].
    destruct (Z_lt_le_dec q P) as [|Hge]; [assumption|exfalso].
    assert (m * P <= m * q) by (apply Z.mul_le_mono_nonneg_l; lia). lia.
Qed.

(** Both operands on the scale of the quotient's exponent [e']. *)
Lemma rescale_quotient mx my c ex ey e' s :
  s = ex - ey - e' -> 0 <= s -> e' <= 0 -> 0 <= ex + 2148 -> 0 <= ey + 2148 ->
  0 < my -> 0 < c ->
  mx * 2 ^ (ex + 2148) <= c * (my * 2 ^ (ey + 2148)) ->
  mx * 2 ^ s <= c * my * 2 ^ (- e').
Proof.
  intros Es Hs He Hx Hy Hmy Hc Hle.
  assert (E1 : 2 ^ (ex + 2148) * 2 ^ (- e') = 2 ^ s * 2 ^ (ey + 2148)).
  { rewrite <- !Z.pow_add_r by lia. f_equal. lia. }
  pose proof (pow2_pos (- e') ltac:(lia)) as PE.
  pose proof (pow2_pos (ey + 2148) Hy) as PY.
  apply Z.mul_le_mono_pos_r with (2 ^ (ey + 2148)); [assumption|].
  replace (mx * 2 ^ s * 2 ^ (ey + 2148)) with (mx * 2 ^ (ex + 2148) * 2 ^ (- e'))
    by (rewrite <- !Z.mul_assoc, E1; reflexivity).
  replace (c * my * 2 ^ (- e') * 2 ^ (ey + 2148))
    with (c * (my * 2 ^ (ey + 2148)) * 2 ^ (- e')) by ring.
  apply Z.mul_le_mono_nonneg_r; lia.
Qed.

(** A quotient of at most [c] has few digits. *)
Lemma quotient_magnitude mx my c d1 d2 ex ey :
  2 ^ (d1 - 1) <= mx -> 0 < my < 2 ^ d2 -> 1 <= d1 -> 1 <= d2 ->
  0 <= ex + 2148 -> 0 <= ey + 2148 -> 0 < c < 2 ^ 50 ->
  mx * 2 ^ (ex + 2148) <= c * (my * 2 ^ (ey + 2148)) ->
  d1 + ex - (d2 + ey) <= 50.
Proof.
  intros H1 H2 Hd1 Hd2 Hx Hy Hc Hle.
  destruct (Z_le_gt_dec (d1 + ex - (d2 + ey)) 50) as [|Hgt]; [assumption|exfalso].
  pose proof (pow2_pos (ex + 2148) Hx) as PX.
  pose proof (pow2_pos (ey + 2148) Hy) as PY.
  pose proof (pow2_pos d2 ltac:(lia)) as PD.
  assert (L : 2 ^ (d1 - 1 + (ex + 2148)) <= mx * 2 ^ (ex + 2148)).
  { rewrite Z.pow_add_r by lia. apply Z.mul_le_mono_nonneg_r; lia. }
  assert (U : c * (my * 2 ^ (ey + 2148)) < 2 ^ (50 + (d2 + (ey + 2148)))).
  { rewrite (Z.pow_add_r 2 50), (Z.pow_add_r 2 d2) by lia.
    assert (my * 2 ^ (ey + 2148) < 2 ^ d2 * 2 ^ (ey + 2148))
      by (apply Z.mul_lt_mono_pos_r; lia).
    assert (0 < 2 ^ d2 * 2 ^ (ey + 2148)) by (apply Z.mul_pos_pos; assumption).
    apply Z.le_lt_trans with (c * (2 ^ d2 * 2 ^ (ey + 2148))).
    - apply Z.mul_le_mono_nonneg_l; lia.
    - apply Z.mul_lt_mono_pos_r; lia. }
  assert (2 ^ (50 + (d2 + (ey + 2148))) <= 2 ^ (d1 - 1 + (ex + 2148)))
    by (apply Z.pow_le_mono_r; lia).
  lia.
Qed.

Lemma round_pos_int c : 0 < c < 2 ^ 53 -> round_pos (c * 2 ^ 2148) = c * 2 ^ 2148.
Proof.
  intros Hc.
  pose proof (log2_bounds c ltac:(lia)) as [Hcu Hcl]. specialize (Hcl ltac:(lia)).
  pose proof (Z.log2_nonneg c).
  assert (Z.log2 c < 53) by (apply Z.log2_lt_pow2; lia).
  pose proof (pow2_pos 2148 ltac:(lia)) as P.
  assert (Eg : grid (c * 2 ^ 2148) = Z.max (Z.log2 c + 2096) 1074).
  { unfold grid. rewrite log2_mul_pow2 by lia. f_equal. lia. }
  apply round_pos_id with (c * 2 ^ (2148 - Z.max (Z.log2 c + 2096) 1074)).
  - apply Z.mul_nonneg_nonneg; lia.
  - rewrite Eg. rewrite <- Z.mul_assoc, <- Z.pow_add_r by lia. do 2 f_equal. lia.
  - unfold INF. apply pow_bound_lt with 53; lia.
Qed.

(** A quotient that is at most the integer [c] in exact arithmetic is at
    most [c] after rounding. *)
Lemma SFdiv_le x y c :
  valid_binary x = true -> valid_binary y = true ->
  sf_finite x = true -> sf_finite y = true ->
  0 < V x -> 0 < V y -> 0 < c < 2 ^ 50 -> V x <= c * V y ->
  SFdiv prec emax x y <> S754_nan /\ 0 <= V (SFdiv prec emax x y) <= c * 2 ^ 2148.
Proof.
  intros Vx Vy Fx Fy Px Py Hc Hle.
  destruct x as [sx|sx| |sx mx ex]; try discriminate; cbn [V] in Px; try lia.
  destruct y as [sy|sy| |sy my ey]; try discriminate; cbn [V] in Py; try lia.
  change (valid_binary (S754_finite sx mx ex)) with (valid_binary (S754_finite false mx ex)) in Vx.
  change (valid_binary (S754_finite sy my ey)) with (valid_binary (S754_finite false my ey)) in Vy.
  pose proof (V_finite_pos_bounds mx ex Vx) as [Bx _].
  pose proof (V_finite_pos_bounds my ey Vy) as [By _].
  apply valid_finite_inv in Vx, Vy. cbv zeta in Vx, Vy.
  destruct Vx as (Hc1 & Hb1 & Hm1 & Hd1). destruct Vy as (Hc2 & Hb2 & Hm2 & Hd2).
  destruct sx; cbn [cond_Zopp] in Px; [lia|].
  destruct sy; cbn [cond_Zopp] in Py; [lia|].
  cbn [V cond_Zopp] in Hle. clear Px Py Bx By Fx Fy.
  unfold SFdiv, SFdiv_core_binary. cbn [Zdigits2 xorb].
  rewrite !digits2_log2, fexp_eq.
  set (d1 := Z.log2 (Z.pos mx) + 1) in *. set (d2 := Z.log2 (Z.pos my) + 1) in *.
  set (D := d1 + ex - (d2 + ey)).
  set (e' := Z.min (Z.max (D - 53) (-1074)) (ex - ey)).
  set (s := ex - ey - e').
  assert (Hs : 0 <= s) by (subst s e'; lia).
  assert (HD : D <= 50).
  { subst D. apply (quotient_magnitude (Z.pos mx) (Z.pos my) c); lia. }
  assert (He'hi : e' <= -3) by (subst e'; lia).
  assert (He'lo : -2045 <= e') by (subst e'; lia).
  set (m' := match s with Zpos _ => Z.shiftl (Z.pos mx) s | Z0 => Z.pos mx | Zneg _ => 0 end).
  assert (Em' : m' = Z.pos mx * 2 ^ s).
  { subst m'. destruct s as [|p|p]; [cbn; lia|apply Z.shiftl_mul_pow2; lia|lia]. }
  assert (Hm'le : m' <= c * Z.pos my * 2 ^ (- e')).
  { rewrite Em'. apply (rescale_quotient _ _ _ ex ey); lia. }
  assert (Hm'pos : 0 < m').
  { rewrite Em'. apply Z.mul_pos_pos; [lia|]. apply pow2_pos; assumption. }
  pose proof (Z_div_mod m' (Z.pos my) ltac:(lia)) as Hdiv.
  destruct (Z.div_eucl m' (Z.pos my)) as [q r]. destruct Hdiv as [Eqr Hr].
  assert (Hq : 0 <= q).
  { destruct (Z_le_gt_dec 0 q) as [|Hneg]; [assumption|exfalso].
    assert (Z.pos my * q <= Z.pos my * (-1)) by (apply Z.mul_le_mono_nonneg_l; lia). lia. }
  pose proof (new_location_code (Z.pos my) r ltac:(lia) Hr) as Hcode. cbv zeta in Hcode.
  set (l := new_location (Z.pos my) r) in *.
  pose proof (loc_code_range l) as Hl.
  assert (Hl0 : r = 0 -> loc_code l = 0) by (clear - Hcode; lia).
  assert (HN : 0 < 4 * q + loc_code l).
  { destruct (Z.eq_dec q 0) as [Eq0|Nq0]; [|lia].
    rewrite Eq0, Z.mul_0_r, Z.add_0_l in Eqr. clear - Hcode Eqr Hm'pos Eq0. lia. }
  assert (Hdig : D - e' <= Zdigits2 q).
  { replace (D - e') with (d1 - d2 + s) by (subst D s; lia).
    destruct (Z_le_gt_dec (d1 - d2 + s) 0) as [Hk|Hk].
    - destruct q as [|p|p]; cbn [Zdigits2]; lia.
    - assert (Hq' : 2 ^ (d1 - d2 + s - 1) <= q).
      { apply (quotient_digits (Z.pos mx) (Z.pos my) q r d1 d2 s);
          [lia | lia | lia | lia | assumption | rewrite <- Em'; exact Eqr | assumption | lia]. }
      pose proof (pow2_pos (d1 - d2 + s - 1) ltac:(lia)) as PA.
      rewrite Zdigits2_log2 by lia.
      assert (d1 - d2 + s - 1 <= Z.log2 q); [|lia].
      apply Z.log2_le_pow2; lia. }
  assert (Hal : e' <= fexp prec emax (Zdigits2 q + e')).
  { rewrite fexp_eq. subst e'. lia. }
  destruct (bra_inexact false q e' l Hq HN Hal ltac:(lia)) as [Hn HV].
  split; [exact Hn|]. rewrite HV. cbn [cond_Zopp].
  set (T := e' + 2146) in *.
  assert (HT : 0 <= T <= 2143) by (subst T; lia).
  pose proof (pow2_pos T ltac:(lia)) as HpT.
  set (N := 4 * q + loc_code l) in *.
  assert (HNT : 0 < N * 2 ^ T) by (apply Z.mul_pos_pos; assumption).
  split; [apply round_pos_nonneg; lia|].
  assert (HNK : N <= 4 * (c * 2 ^ (- e'))).
  { subst N. apply (refined_quotient_le (Z.pos my) q r);
      [lia | assumption | | lia | assumption].
    rewrite <- Eqr. replace (Z.pos my * (c * 2 ^ (- e'))) with (c * Z.pos my * 2 ^ (- e')) by ring.
    exact Hm'le. }
  assert (EKT : 4 * (c * 2 ^ (- e')) * 2 ^ T = c * 2 ^ 2148).
  { replace 4 with (2 ^ 2) by reflexivity.
    replace (2 ^ 2 * (c * 2 ^ (- e')) * 2 ^ T) with (c * (2 ^ 2 * 2 ^ (- e') * 2 ^ T)) by ring.
    rewrite <- !Z.pow_add_r by lia. do 2 f_equal. subst T. lia. }
  rewrite <- (round_pos_int c) by (assert (2 ^ 50 < 2 ^ 53) by reflexivity; lia).
  apply round_pos_mono. split; [lia|].
  rewrite <- EKT. apply Z.mul_le_mono_nonneg_r; lia.
Qed.

(** ** CohortAggregator: what each summary holds *)

Lemma risk_tier_cases r :
  risk_tier r = "high"%string \/ risk_tier r = "medium"%string \/ risk_tier r = "low"%string.
Proof.
  unfold risk_tier. destruct (75.0 <=? r)%float; [auto|].
  destruct (50.0 <=? r)%float; auto.
Qed.

Lemma add_record_fields r cs :
  cs_name (add_record r cs) = cs_name cs /\
  total (add_record r cs) = total cs + 1 /\
  high (add_record r cs) = high cs + (if (risk_tier r =? "high")%string then 1 else 0) /\
  medium (add_record r cs) = medium cs + (if (risk_tier r =? "medium")%string then 1 else 0) /\
  low (add_record r cs) = low cs + (if (risk_tier r =? "low")%string then 1 else 0) /\
  avg_risk (add_record r cs) = (avg_risk cs + r)%float.
Proof.
  unfold add_record.
  destruct (risk_tier_cases r) as [E|[E|E]]; rewrite E; cbn; repeat split; lia.
Qed.

Lemma tier_size_snoc n t l s :
  tier_size n t (l ++ [s])
  = tier_size n t l
    + (if (cohort s =? n)%string && (risk_tier (risk_score s) =? t)%string then 1 else 0).
Proof.
  unfold tier_size. rewrite filter_app, length_app. cbn [filter].
  destruct ((cohort s =? n)%string && _); cbn [List.length]; lia.
Qed.

Lemma cohort_scores_snoc n l s :
  cohort_scores n (l ++ [s])
  = cohort_scores n l ++ (if (cohort s =? n)%string then [risk_score s] else []).
Proof.
  unfold cohort_scores. rewrite filter_app, map_app. cbn [filter].
  destruct (cohort s =? n)%string; reflexivity.
Qed.

Lemma float_sum_snoc l r : float_sum (l ++ [r]) = (float_sum l + r)%float.
Proof. unfold float_sum. rewrite fold_left_app. reflexivity. Qed.

Lemma filter_absent {A} (f : A -> bool) l :
  (forall x, In x l -> f x = false) -> filter f l = [].
Proof.
  induction l as [|x l IH]; [reflexivity|]. intros H. cbn [filter].
  rewrite (H x (or_introl eq_refl)). apply IH. intros y Hy. apply H. right. assumption.
Qed.

Lemma summary_exact_step l cohorts s :
  agg_inv l cohorts ->
  Forall (summary_exact l) cohorts ->
  Forall (summary_exact (l ++ [s])) (fold_record cohorts s).
Proof.
  intros (Hnd & Hok & Hcov) Hex. rewrite fold_record_tally.
  apply tally_Forall with (P := fun cs => summary_exact l cs /\ 0 <= total cs);
    try assumption.
  - rewrite Forall_forall in *. intros cs Hcs. split; [apply Hex; assumption|].
    destruct (Hex cs Hcs) as (_ & _ & _ & _ & H). lia.
  - intros cs [(Hh & Hm & Hl & Ha & Ht) _] E.
    destruct (add_record_fields (risk_score s) cs) as (En & Et & Eh & Em & El & Ea).
    unfold summary_exact. rewrite En, Et, Eh, Em, El, Ea.
    rewrite !tier_size_snoc, cohort_scores_snoc, E, String.eqb_refl. cbn [andb].
    rewrite float_sum_snoc. rewrite E in *. repeat split; try congruence; lia.
  - intros cs [(Hh & Hm & Hl & Ha & Ht) _] NE.
    unfold summary_exact.
    rewrite !tier_size_snoc, cohort_scores_snoc.
    destruct (String.eqb_spec (cohort s) (cs_name cs)) as [E|_]; [congruence|].
    cbn [andb]. rewrite app_nil_r. repeat split; try assumption; lia.
  - intros NI.
    destruct (add_record_fields (risk_score s) (mkCohortSummary (cohort s) 0 0 0 0 0.0))
      as (En & Et & Eh & Em & El & Ea).
    unfold summary_exact. rewrite En, Et, Eh, Em, El, Ea. cbn [cs_name total high medium low avg_risk].
    rewrite !tier_size_snoc, cohort_scores_snoc, String.eqb_refl. cbn [andb].
    assert (Habs : forall t, tier_size (cohort s) t l = 0).
    { intros t. unfold tier_size. rewrite filter_absent; [reflexivity|].
      intros x Hx. destruct (String.eqb_spec (cohort x) (cohort s)) as [E|NE]; [|reflexivity].
      exfalso. apply NI. rewrite <- E. apply Hcov. assumption. }
    assert (Hsc : cohort_scores (cohort s) l = []).
    { unfold cohort_scores. rewrite filter_absent; [reflexivity|].
      intros x Hx. destruct (String.eqb_spec (cohort x) (cohort s)) as [E|NE]; [|reflexivity].
      exfalso. apply NI. rewrite <- E. apply Hcov. assumption. }
    rewrite !Habs, Hsc. repeat split; lia || reflexivity.
Qed.

Lemma aggregate_exact l : Forall (summary_exact l) (aggregate l).
Proof.
  induction l as [|s l IH] using rev_ind.
  - constructor.
  - rewrite aggregate_snoc. apply summary_exact_step; [apply aggregate_inv | assumption].
Qed.

(** ** CohortAggregator: order of the summaries, totals, cohort focus *)

Lemma existsb_eqb_In n seen :
  existsb (String.eqb n) seen = true <-> In n seen.
Proof.
  rewrite existsb_exists. split.
  - intros (x & Hx & E). apply String.eqb_eq in E. subst. assumption.
  - intros H. exists n. split; [assumption | apply String.eqb_refl].
Qed.

Lemma fold_names l cohorts :
  map cs_name (fold_left fold_record l cohorts)
  = first_seen (map cs_name cohorts) (map cohort l).
Proof.
  revert cohorts. induction l as [|s l IH]; intros cohorts; [reflexivity|].
  cbn [fold_left map first_seen]. rewrite IH, fold_record_tally, tally_names.
  destruct (in_dec string_dec (cohort s) (map cs_name cohorts)) as [I|NI].
  - rewrite (proj2 (existsb_eqb_In _ _) I). reflexivity.
  - destruct (existsb (String.eqb (cohort s)) (map cs_name cohorts)) eqn:E;
      [apply existsb_eqb_In in E; contradiction | reflexivity].
Qed.

(** X19: summaries are listed by first appearance of their cohort in
    the ranked records, each name once. *)
Theorem cohorts_in_first_seen_order scholars :
  map cs_name (aggregate scholars) = first_seen [] (map cohort scholars) /\
  NoDup (map cs_name (aggregate scholars)).
Proof.
  split; [apply (fold_names scholars [])|]. apply (aggregate_inv scholars).
Qed.

(** X20: each summary's high, medium and low counters are the numbers
    of its cohort's records in that tier, and no summary is empty. *)
Theorem cohort_tier_counts scholars :
  Forall (fun cs =>
            high cs = tier_size (cs_name cs) "high" scholars /\
            medium cs = tier_size (cs_name cs) "medium" scholars /\
            low cs = tier_size (cs_name cs) "low" scholars /\
            1 <= total cs)
         (aggregate scholars).
Proof.
  eapply Forall_impl; [|apply aggregate_exact].
  intros cs (Hh & Hm & Hl & _ & Ht). auto.
Qed.

(** X21: each summary's [avg_risk] accumulator is the binary64 sum of
    its cohort's scores, added left to right in ranked order from 0.0. *)
Theorem cohort_sum_in_input_order scholars :
  Forall (fun cs => avg_risk cs = float_sum (cohort_scores (cs_name cs) scholars))
         (aggregate scholars).
Proof.
  eapply Forall_impl; [|apply aggregate_exact].
  intros cs (_ & _ & _ & Ha & _). exact Ha.
Qed.

Lemma sum_of_tally (f : CohortSummary -> Z) delta n r cohorts :
  (forall cs, f (add_record r cs) = f cs + delta) ->
  f (mkCohortSummary n 0 0 0 0 0.0) = 0 ->
  sum_of f (tally n r cohorts) = sum_of f cohorts + delta.
Proof.
  intros Hadd Hnew. induction cohorts as [|cs rest IH].
  - cbn. rewrite Hadd, Hnew. lia.
  - cbn [tally]. destruct (cs_name cs =? n)%string.
    + cbn [sum_of fold_right]. rewrite Hadd. lia.
    + cbn [sum_of fold_right] in *. unfold sum_of in IH. rewrite IH. lia.
Qed.

Lemma summarize_snoc l s : summarize (l ++ [s]) = count_record (summarize l) s.
Proof. unfold summarize. rewrite fold_left_app. reflexivity. Qed.

(** X23: the overall tier counters are the column sums of the cohort
    summaries and add up to the record count, as do the cohort totals; the
    overall risk accumulator is the left-to-right sum of all scores. *)
Theorem totals_match_cohorts scholars :
  let t := summarize scholars in
  cohorts t = aggregate scholars /\
  total_risk t = float_sum (map risk_score scholars) /\
  high_count t + medium_count t + low_count t = Z.of_nat (List.length scholars) /\
  high_count t = sum_of high (aggregate scholars) /\
  medium_count t = sum_of medium (aggregate scholars) /\
  low_count t = sum_of low (aggregate scholars) /\
  sum_of total (aggregate scholars) = Z.of_nat (List.length scholars).
Proof.
  cbv zeta. induction scholars as [|s l IH] using rev_ind.
  - cbn. repeat split; reflexivity.
  - destruct IH as (Hc & Hr & Hn & Hh & Hm & Hl & Ht).
    rewrite summarize_snoc, aggregate_snoc, map_app, length_app. cbn [map].
    rewrite float_sum_snoc.
    rewrite fold_record_tally.
    rewrite (sum_of_tally high (if (risk_tier (risk_score s) =? "high")%string then 1 else 0));
      [|intros cs; apply add_record_fields|reflexivity].
    rewrite (sum_of_tally medium (if (risk_tier (risk_score s) =? "medium")%string then 1 else 0));
      [|intros cs; apply add_record_fields|reflexivity].
    rewrite (sum_of_tally low (if (risk_tier (risk_score s) =? "low")%string then 1 else 0));
      [|intros cs; apply add_record_fields|reflexivity].
    rewrite (sum_of_tally total 1); [|intros cs; apply add_record_fields|reflexivity].
    unfold count_record. cbn [cohorts total_risk high_count medium_count low_count List.length].
    rewrite Hc, Hr, <- Hh, <- Hm, <- Hl, Ht, fold_record_tally.
    destruct (risk_tier_cases (risk_score s)) as [E|[E|E]]; rewrite E; cbn;
      repeat split; try reflexivity; lia.
Qed.

Lemma filter_length_perm {A} (f : A -> bool) l l' :
  Permutation l l' -> List.length (filter f l) = List.length (filter f l').
Proof.
  induction 1 as [|x l l' _ IH|x y l|l l' l'' _ IH1 _ IH2]; cbn [filter].
  - reflexivity.
  - destruct (f x); cbn [List.length]; congruence.
  - destruct (f x), (f y); reflexivity.
  - congruence.
Qed.

Lemma summary_has_record l cs :
  In cs (aggregate l) -> exists s, In s l /\ cohort s = cs_name cs.
Proof.
  intros Hin.
  pose proof (aggregate_exact l) as Hex. destruct (aggregate_inv l) as (_ & Hok & _).
  rewrite Forall_forall in Hex, Hok.
  destruct (Hex cs Hin) as (_ & _ & _ & _ & Ht). destruct (Hok cs Hin) as [_ Hsz].
  unfold cohort_size in Hsz.
  destruct (filter (fun s => (cohort s =? cs_name cs)%string) l) as [|s r] eqn:E.
  - cbn in Hsz. lia.
  - assert (Hs : In s (filter (fun s => (cohort s =? cs_name cs)%string) l))
      by (rewrite E; left; reflexivity).
    apply filter_In in Hs. destruct Hs as [Hs Hn]. apply String.eqb_eq in Hn. eauto.
Qed.

(** X22: the counters of a cohort do not depend on the order of the
    records: for a permuted input the same cohort has the same total and
    tier counts. *)
Theorem counts_independent_of_order l l' :
  Permutation l l' ->
  forall cs, In cs (aggregate l) ->
  exists cs', In cs' (aggregate l') /\
    cs_name cs' = cs_name cs /\ total cs' = total cs /\
    high cs' = high cs /\ medium cs' = medium cs /\ low cs' = low cs.
Proof.
  intros Hp cs Hin.
  destruct (summary_has_record l cs Hin) as (s & Hs & En).
  destruct (aggregate_inv l') as (_ & _ & Hcov).
  assert (Hn : In (cs_name cs) (map cs_name (aggregate l'))).
  { rewrite <- En. apply Hcov. apply Permutation_in with l; assumption. }
  apply in_map_iff in Hn. destruct Hn as (cs' & En' & Hin').
  exists cs'. split; [assumption|]. split; [assumption|].
  pose proof (aggregate_exact l) as Hex. destruct (aggregate_inv l) as (_ & Hok & _).
  pose proof (aggregate_exact l') as Hex'. destruct (aggregate_inv l') as (_ & Hok' & _).
  rewrite Forall_forall in Hex, Hok, Hex', Hok'.
  destruct (Hex cs Hin) as (Hh & Hm & Hl & _ & _). destruct (Hok cs Hin) as [_ Ht].
  destruct (Hex' cs' Hin') as (Hh' & Hm' & Hl' & _ & _). destruct (Hok' cs' Hin') as [_ Ht'].
  rewrite Hh, Hm, Hl, Ht, Hh', Hm', Hl', Ht', En'.
  unfold tier_size, cohort_size.
  rewrite !(filter_length_perm _ l l' Hp). repeat split; reflexivity.
Qed.

Lemma counts_independent_of_order_witness :
  exists cs', In cs' (aggregate [with_risk example_record 40; with_risk row_a 80]) /\
    cs_name cs' = "alpha"%string /\ total cs' = 2 /\
    high cs' = 1 /\ medium cs' = 0 /\ low cs' = 1.
Proof.
  apply (counts_independent_of_order
           [with_risk row_a 80; with_risk example_record 40]
           [with_risk example_record 40; with_risk row_a 80]
           (perm_swap _ _ _)
           (mkCohortSummary "alpha" 2 1 0 1 120)).
  left. reflexivity.
Defined.

Lemma find_cohort_spec cohorts n :
  match find_cohort cohorts n with
  | Some i =>
      (exists cs, nth_error cohorts i = Some cs /\ cs_name cs = n) /\
      (forall j cs, (j < i)%nat -> nth_error cohorts j = Some cs -> cs_name cs <> n)
  | None => ~ In n (map cs_name cohorts)
  end.
Proof.
  induction cohorts as [|cs rest IH]; cbn [find_cohort].
  - intros [].
  - destruct (String.eqb_spec (cs_name cs) n) as [E|NE].
    + split; [exists cs; split; [reflexivity|assumption]|]. intros j c Hj. lia.
    + destruct (find_cohort rest n) as [i|]; cbn [option_map].
      * destruct IH as [(c & Hc & En) Hfirst]. split; [exists c; auto|].
        intros [|j] c' Hj Hn; cbn in Hn.
        -- injection Hn as <-. assumption.
        -- apply (Hfirst j); [lia|assumption].
      * cbn [map]. intros [E|I]; contradiction.
Qed.

Lemma find_cohort_app_new cohorts n cs :
  find_cohort cohorts n = None -> cs_name cs = n ->
  find_cohort (cohorts ++ [cs]) n = Some (List.length cohorts).
Proof.
  intros H E. induction cohorts as [|c rest IH]; cbn [find_cohort app List.length] in *.
  - rewrite E, String.eqb_refl. reflexivity.
  - destruct (cs_name c =? n)%string; [discriminate|].
    destruct (find_cohort rest n); [discriminate|]. rewrite IH by reflexivity. reflexivity.
Qed.

(** X18: [find_or_create_cohort] returns the index of the first
    summary with the given name; existing summaries are never changed or
    moved, and a fresh all-zero summary is appended exactly when the name
    is new. *)
Theorem find_or_create_cohort_lookup cohorts n :
  let '(cohorts', i) := find_or_create_cohort cohorts n in
  find_cohort cohorts' n = Some i /\
  (exists cs, nth_error cohorts' i = Some cs /\ cs_name cs = n) /\
  firstn (List.length cohorts) cohorts' = cohorts /\
  (In n (map cs_name cohorts) -> cohorts' = cohorts) /\
  (~ In n (map cs_name cohorts) ->
   cohorts' = cohorts ++ [mkCohortSummary n 0 0 0 0 0.0]).
Proof.
  unfold find_or_create_cohort.
  pose proof (find_cohort_spec cohorts n) as H.
  destruct (find_cohort cohorts n) as [i|] eqn:E.
  - destruct H as [(cs & Hcs & En) _]. rewrite E.
    split; [reflexivity|]. split; [eauto|]. split; [apply firstn_all|].
    split; [reflexivity|]. intros NI. exfalso. apply NI. rewrite <- En.
    apply in_map. eapply nth_error_In. eassumption.
  - split; [apply find_cohort_app_new; [assumption|reflexivity]|].
    split.
    + exists (mkCohortSummary n 0 0 0 0 0.0). split; [|reflexivity].
      rewrite nth_error_app2 by lia.
      rewrite Nat.sub_diag. reflexivity.
    + split; [rewrite firstn_app, Nat.sub_diag, firstn_all; cbn; apply app_nil_r|].
      split; [intros I; contradiction | reflexivity].
Qed.

(** In a strongly sorted list every element of a prefix is related to
    every element of the rest. *)
Lemma sorted_prefix_dominates {A} (R : A -> A -> Prop) (l : list A) n a b :
  StronglySorted R l -> In a (firstn n l) -> In b (skipn n l) -> R a b.
Proof.
  intros Hs. revert n. induction Hs as [|x l Hs IH Hf]; intros n Ha Hb.
  - rewrite firstn_nil in Ha. contradiction.
  - destruct n as [|n]; [contradiction|]. cbn [firstn skipn] in *.
    destruct Ha as [<-|Ha].
    + rewrite Forall_forall in Hf. apply Hf.
      rewrite <- (firstn_skipn n l). apply in_or_app. right. assumption.
    + apply (IH n); assumption.
Qed.

(** X26: when the mean risks of the cohorts are numbers, the merge sort
    produces a cohort focus, and every focus that the contract of qsort
    allows lists min (3, number of cohorts) summaries in descending order
    of mean risk, none with a lower mean than a cohort left out. *)
Theorem focus_is_top_three cohorts :
  Forall (fun cs => is_num (cohort_mean cs) = true) cohorts ->
  focus_sorted cohorts (msort compare_cohort_avg_desc cohorts) /\
  (forall focus,
     focus_sorted cohorts focus ->
     Permutation cohorts focus /\
     descending cohort_mean focus /\
     List.length (focus_shown focus) = Nat.min 3 (List.length cohorts) /\
     (forall a b, In a (focus_shown focus) -> In b cohorts -> ~ In b (focus_shown focus) ->
        (cohort_mean a <? cohort_mean b)%float = false)).
Proof.
  intros Hn. split; [apply (msort_post compare_cohort_avg_desc)|].
  intros focus Hf.
  destruct (qsort_post_descending cohort_mean cohorts focus Hn Hf) as [Hp Hd].
  split; [assumption|]. split; [assumption|]. split.
  - unfold focus_shown. rewrite length_firstn, (Permutation_length Hp). reflexivity.
  - intros a b Ha Hb Hnb. unfold focus_shown in *.
    apply (sorted_prefix_dominates _ focus 3 a b Hd Ha).
    apply (Permutation_in _ Hp) in Hb.
    rewrite <- (firstn_skipn 3 focus) in Hb. apply in_app_or in Hb.
    destruct Hb; [contradiction|assumption].
Qed.

Lemma focus_is_top_three_witness :
  focus_sorted sample_cohorts (msort compare_cohort_avg_desc sample_cohorts) /\
  (forall focus,
     focus_sorted sample_cohorts focus ->
     Permutation sample_cohorts focus /\
     descending cohort_mean focus /\
     List.length (focus_shown focus) = Nat.min 3 (List.length sample_cohorts) /\
     (forall a b, In a (focus_shown focus) -> In b sample_cohorts ->
        ~ In b (focus_shown focus) ->
        (cohort_mean a <? cohort_mean b)%float = false)).
Proof.
  apply (focus_is_top_three sample_cohorts).
  vm_compute. repeat constructor.
Defined.

(** Of the four sample cohorts the three with the highest means are
    shown, highest first. *)
Example focus_sample_shown :
  map cs_name sample_cohorts = ["beta"; "alpha"; "delta"; "gamma"]%string /\
  map cohort_mean sample_cohorts = [82.5; 70.5; 27; 0]%float /\
  map cs_name (focus_shown (msort compare_cohort_avg_desc sample_cohorts))
  = ["beta"; "alpha"; "delta"]%string.
Proof. repeat split; vm_compute; reflexivity. Qed.

(** ** Means stay within the score range *)

Lemma div_le x y c :
  is_finite x = true -> is_finite y = true ->
  0 <= FV x -> 0 < FV y -> 0 < c < 2 ^ 50 -> FV x <= c * FV y ->
  is_num (x / y) = true /\ 0 <= FV (x / y) <= c * 2 ^ 2148.
Proof.
  rewrite !is_finite_spec, is_num_spec. unfold FV. rewrite div_spec. unfold SF64div.
  intros Fx Fy Hx Hy Hc Hle.
  pose proof (Prim2SF_valid x) as Vx. pose proof (Prim2SF_valid y) as Vy.
  assert (0 < 2 ^ 2148) by (apply Z.pow_pos_nonneg; lia).
  destruct (Z.eq_dec (V (Prim2SF x)) 0) as [E0|N0].
  - destruct (Prim2SF x) as [sx|sx| |sx mx ex]; try discriminate.
    + destruct (Prim2SF y) as [sy|sy| |sy my ey]; try discriminate; cbn [V] in Hy; try lia.
      cbn [SFdiv V sf_num]. split; [reflexivity|nia].
    + exfalso. cbn [V] in E0.
      assert (0 < Z.pos mx * 2 ^ (ex + 2148)).
      { change (valid_binary (S754_finite sx mx ex))
          with (valid_binary (S754_finite false mx ex)) in Vx.
        apply V_finite_pos_bounds; assumption. }
      destruct sx; cbn [cond_Zopp] in E0; lia.
  - destruct (SFdiv_le (Prim2SF x) (Prim2SF y) c) as [Hn HV]; try assumption; try lia.
    split; [|exact HV]. destruct (SFdiv _ _ _ _); try reflexivity. congruence.
Qed.

Lemma ROUND_int n : 0 <= n < 2 ^ 53 -> ROUND (n * 2 ^ 2148) = n * 2 ^ 2148.
Proof.
  intros Hn. destruct (Z.eq_dec n 0) as [->|N0]; [reflexivity|].
  assert (0 < 2 ^ 2148) by (apply Z.pow_pos_nonneg; lia).
  rewrite ROUND_pos by nia.
  pose proof (log2_bounds n ltac:(lia)) as [Hu Hl]. specialize (Hl ltac:(lia)).
  pose proof (Z.log2_nonneg n).
  assert (Z.log2 n < 53) by (apply Z.log2_lt_pow2; lia).
  assert (Eg : grid (n * 2 ^ 2148) = Z.max (Z.log2 n + 2096) 1074).
  { unfold grid. rewrite log2_mul_pow2 by lia. f_equal. lia. }
  apply round_pos_id with (n * 2 ^ (2148 - Z.max (Z.log2 n + 2096) 1074)).
  - nia.
  - rewrite Eg. rewrite <- Z.mul_assoc, <- Z.pow_add_r by lia. do 2 f_equal. lia.
  - unfold INF. apply pow_bound_lt with 53; lia.
Qed.

Lemma FV_hundred : FV 100%float = 100 * 2 ^ 2148.
Proof. vm_compute. reflexivity. Qed.

Lemma score_in_range_iff r :
  score_in_range r = true <-> is_num r = true /\ 0 <= FV r <= 100 * 2 ^ 2148.
Proof.
  unfold score_in_range. rewrite andb_true_iff, !leb_iff, FV_zero, FV_hundred.
  assert (is_num 0%float = true) by reflexivity.
  assert (is_num 100%float = true) by reflexivity.
  intuition.
Qed.

Lemma in_range_finite r : score_in_range r = true -> is_finite r = true.
Proof.
  intros H. apply score_in_range_iff in H. destruct H as [Hn B].
  apply finite_iff. split; [assumption|].
  assert (100 * 2 ^ 2148 < INF) by (unfold INF; apply pow_bound_lt with 7; lia).
  lia.
Qed.

(** A left-to-right sum of [n] scores stays within [0 .. 100 n]. *)
Lemma float_sum_bound l :
  Forall (fun r => score_in_range r = true) l ->
  Z.of_nat (List.length l) < 2 ^ 46 ->
  is_finite (float_sum l) = true /\
  0 <= FV (float_sum l) <= 100 * Z.of_nat (List.length l) * 2 ^ 2148.
Proof.
  induction l as [|r l IH] using rev_ind; intros Hall Hlen.
  - split; [reflexivity|]. change (float_sum []) with 0%float. rewrite FV_zero. cbn. lia.
  - apply Forall_app in Hall. destruct Hall as [Hl Hr].
    apply Forall_inv in Hr. rewrite length_app in *. cbn [List.length] in *.
    destruct IH as [Fs Bs]; [assumption|lia|].
    pose proof (in_range_finite r Hr) as Fr.
    apply score_in_range_iff in Hr. destruct Hr as [_ Br].
    rewrite float_sum_snoc.
    destruct (add_FV (float_sum l) r Fs Fr) as [Hn E].
    set (n := Z.of_nat (List.length l)) in *.
    replace (Z.of_nat (List.length l + 1)) with (n + 1) by (subst n; lia).
    assert (Hup : ROUND (FV (float_sum l) + FV r) <= 100 * (n + 1) * 2 ^ 2148).
    { rewrite <- (ROUND_int (100 * (n + 1))).
      - apply ROUND_mono. lia.
      - assert (2 ^ 46 * 100 < 2 ^ 53) by reflexivity. lia. }
    assert (Hlo : 0 <= ROUND (FV (float_sum l) + FV r)).
    { change 0 with (ROUND 0) at 1. apply ROUND_mono. lia. }
    rewrite E. split; [|lia].
    apply finite_iff. split; [assumption|]. rewrite E.
    assert (100 * (n + 1) * 2 ^ 2148 < INF).
    { unfold INF. apply pow_bound_lt with 53; lia. }
    pose proof INF_pos. lia.
Qed.

Lemma mean_in_range l n :
  Forall (fun r => score_in_range r = true) l ->
  n = Z.of_nat (List.length l) -> 1 <= n <= int_max ->
  score_in_range (float_sum l / double_of_int n) = true.
Proof.
  intros Hall -> Hn. unfold int_max in Hn.
  assert (2 ^ 31 < 2 ^ 46) by reflexivity.
  destruct (float_sum_bound l Hall ltac:(lia)) as [Fs Bs].
  destruct (double_of_int_FV (Z.of_nat (List.length l))) as [Fn En].
  { unfold in_int_range, int_min, int_max. apply andb_true_iff.
    split; apply Z.leb_le; lia. }
  assert (0 < 2 ^ 2148) by (apply Z.pow_pos_nonneg; lia).
  apply score_in_range_iff.
  apply (div_le _ _ 100); try assumption; lia.
Qed.

Lemma load_in_range filter rows :
  Forall (fun s => valid_record s = true) rows ->
  Forall (fun s => score_in_range (risk_score s) = true) (load filter rows).
Proof.
  induction 1 as [|row rows Hv _ IH]; cbn [load]; [constructor|]. cbv zeta.
  assert (Hs : score_in_range (risk_score (with_risk row (compute_risk row))) = true).
  { cbn [risk_score with_risk]. apply score_in_range_iff.
    destruct (compute_risk_range row Hv) as [Hn B]. rewrite FV_hundred in B. auto. }
  destruct filter as [c|]; [destruct (negb _)|]; try assumption; constructor; assumption.
Qed.

Lemma load_length filter rows : (List.length (load filter rows) <= List.length rows)%nat.
Proof.
  induction rows as [|row rows IH]; cbn [load List.length]; [lia|]. cbv zeta.
  destruct filter as [c|]; [destruct (negb _)|]; cbn [List.length]; lia.
Qed.

Lemma ranked_in_range filter rows scholars :
  Forall (fun s => valid_record s = true) rows ->
  ranked (load filter rows) scholars ->
  Forall (fun s => score_in_range (risk_score s) = true) scholars
  /\ (List.length scholars <= List.length rows)%nat.
Proof.
  intros Hv [Hp _]. split.
  - eapply Permutation_Forall; [exact Hp|]. apply load_in_range; assumption.
  - rewrite <- (Permutation_length Hp). apply load_length.
Qed.

Lemma Forall_filter_map {A B} (P : B -> Prop) (g : A -> B) (f : A -> bool) l :
  Forall (fun a => P (g a)) l -> Forall P (map g (filter f l)).
Proof.
  induction 1 as [|a l Ha _ IH]; cbn [filter map]; [constructor|].
  destruct (f a); cbn [map]; [constructor|]; assumption.
Qed.

Lemma filter_length_le {A} (f : A -> bool) l : (List.length (filter f l) <= List.length l)%nat.
Proof. induction l as [|a l IH]; cbn [filter]; [lia|]. destruct (f a); cbn [List.length]; lia. Qed.

(** X24: for valid input rows (fewer than 2^31), every cohort's
    reported mean risk is a number between 0 and 100. *)
Theorem cohort_means_in_range filter rows scholars :
  Forall (fun s => valid_record s = true) rows ->
  Z.of_nat (List.length rows) <= int_max ->
  ranked (load filter rows) scholars ->
  Forall (fun cs => score_in_range (cohort_mean cs) = true) (aggregate scholars).
Proof.
  intros Hv Hlen Hr.
  destruct (ranked_in_range filter rows scholars Hv Hr) as [Hall Hl].
  pose proof (aggregate_exact scholars) as Hex.
  destruct (aggregate_inv scholars) as (_ & Hok & _).
  rewrite Forall_forall in *. intros cs Hin.
  destruct (Hex cs Hin) as (_ & _ & _ & Ha & H1).
  destruct (Hok cs Hin) as [_ Ht].
  unfold cohort_mean. rewrite Ha.
  apply mean_in_range.
  - unfold cohort_scores. apply Forall_filter_map. apply Forall_forall. exact Hall.
  - rewrite Ht. unfold cohort_size, cohort_scores. rewrite length_map. reflexivity.
  - split; [assumption|]. rewrite Ht. unfold cohort_size.
    pose proof (filter_length_le (fun s => (cohort s =? cs_name cs)%string) scholars). lia.
Qed.

Lemma cohort_means_in_range_witness :
  Forall (fun cs => score_in_range (cohort_mean cs) = true)
    (aggregate (load None [row_a; row_b])).
Proof.
  apply (cohort_means_in_range None [row_a; row_b]).
  - repeat constructor.
  - vm_compute. discriminate.
  - exact ranked_same_rows.
Defined.

Lemma total_risk_sum scholars :
  total_risk (summarize scholars) = float_sum (map risk_score scholars).
Proof.
  induction scholars as [|s l IH] using rev_ind; [reflexivity|].
  rewrite summarize_snoc, map_app. cbn [map]. rewrite float_sum_snoc, <- IH. reflexivity.
Qed.

(** X25: for valid input rows (fewer than 2^31) of which at least one
    is loaded, the reported overall average risk is a number between 0 and
    100. *)
Theorem average_risk_in_range filter rows scholars :
  Forall (fun s => valid_record s = true) rows ->
  Z.of_nat (List.length rows) <= int_max ->
  load filter rows <> [] ->
  ranked (load filter rows) scholars ->
  score_in_range (average_risk scholars) = true.
Proof.
  intros Hv Hlen Hne Hr.
  destruct (ranked_in_range filter rows scholars Hv Hr) as [Hall Hl].
  unfold average_risk. rewrite total_risk_sum.
  apply mean_in_range.
  - rewrite Forall_map. exact Hall.
  - rewrite length_map. reflexivity.
  - destruct Hr as [Hp _]. apply Permutation_length in Hp.
    destruct (load filter rows); [congruence|]. cbn [List.length] in Hp. lia.
Qed.

Lemma average_risk_in_range_witness :
  score_in_range (average_risk (load None [row_a; row_b])) = true.
Proof.
  apply (average_risk_in_range None [row_a; row_b]).
  - repeat constructor.
  - vm_compute. discriminate.
  - cbn. discriminate.
  - exact ranked_same_rows.
Defined.

(** ** main: what the export and the action queue hold *)

Lemma StronglySorted_filter {A} (R : A -> A -> Prop) (f : A -> bool) l :
  StronglySorted R l -> StronglySorted R (filter f l).
Proof.
  induction 1 as [|x l Hs IH Hf]; cbn [filter]; [constructor|].
  destruct (f x); [|assumption]. constructor; [assumption|].
  rewrite Forall_forall in *. intros y Hy. apply Hf. apply filter_In in Hy. apply Hy.
Qed.

Lemma StronglySorted_firstn {A} (R : A -> A -> Prop) n l :
  StronglySorted R l -> StronglySorted R (firstn n l).
Proof.
  intros Hs. revert n. induction Hs as [|x l Hs IH Hf]; intros [|n]; cbn [firstn];
    try constructor.
  - apply IH.
  - rewrite Forall_forall in *. intros y Hy. apply Hf. apply in_firstn in Hy. assumption.
Qed.

Lemma in_firstn_short {A} (x : A) n l :
  (List.length (firstn n l) < n)%nat -> In x l -> In x (firstn n l).
Proof.
  intros H Hin. rewrite firstn_all2; [assumption|].
  rewrite length_firstn in H. lia.
Qed.

Lemma filter_perm {A} (f : A -> bool) l l' :
  Permutation l l' -> Permutation (filter f l) (filter f l').
Proof.
  induction 1 as [|x l l' _ IH|x y l|l l' l'' _ IH1 _ IH2]; cbn [filter].
  - constructor.
  - destruct (f x); [apply perm_skip|]; assumption.
  - destruct (f x), (f y); try reflexivity. apply perm_swap.
  - eapply Permutation_trans; eassumption.
Qed.

(** A completed run, as the merge sort ranks the loaded rows. *)
Lemma msort_run o fs rows :
  load (cohort_filter o) rows <> [] ->
  (export o = true -> export_opens fs = true) ->
  (summary o = true -> summary_opens fs = true) ->
  main_run o fs rows
    (Report
       (Z.of_nat (List.length (msort compare_risk_desc (load (cohort_filter o) rows))))
       (exported_rows o (msort compare_risk_desc (load (cohort_filter o) rows)))
       (action_queue (limit o) (min_risk o)
          (msort compare_risk_desc (load (cohort_filter o) rows)))
       (negb (json o) &&
        (List.length
           (action_queue (limit o) (min_risk o)
              (msort compare_risk_desc (load (cohort_filter o) rows))) =? 0)%nat)).
Proof.
  intros Hne He Hs.
  apply (run_report o fs rows _ Hne (msort_post compare_risk_desc _) He Hs).
Qed.

(** The sample rows score 70.5, 0, 82.5, 70.5; the threshold is 50.  The
    export holds the three rows that reach it; with limit 5 the queue holds
    the same three, with limit 2 the first two. *)
Example sample_selection :
  map id sample_ranked = ["C-3"; "A-1"; "B-2"; "Z-0"]%string /\
  option_map (map id) (exported_rows roomy_options sample_ranked)
  = Some ["C-3"; "A-1"; "B-2"]%string /\
  map id (action_queue 5 50.0 sample_ranked) = ["C-3"; "A-1"; "B-2"]%string /\
  map id (action_queue 2 50.0 sample_ranked) = ["C-3"; "A-1"]%string.
Proof. repeat split; vm_compute; reflexivity. Qed.

(** X15: the reported count is the number of loaded rows; without an
    export path nothing is exported; with one, the file could be opened
    and holds exactly the loaded scholars not below the threshold, in
    descending order of score when the scores are numbers. *)
Theorem export_is_complete o fs rows count exported queue flag :
  main_run o fs rows (Report count exported queue flag) ->
  count = Z.of_nat (List.length (load (cohort_filter o) rows)) /\
  (export o = false -> exported = None) /\
  (export o = true ->
   export_opens fs = true /\
   exists rows_out,
     exported = Some rows_out /\
     Permutation rows_out (filter (at_or_above (min_risk o)) (load (cohort_filter o) rows)) /\
     (Forall (fun s => is_num (risk_score s) = true) (load (cohort_filter o) rows) ->
      descending risk_score rows_out)).
Proof.
  intros Hrun. inversion Hrun as [| | |scholars Hne Hrk He Hs]; subst.
  pose proof Hrk as [Hp _].
  split; [rewrite (Permutation_length Hp); reflexivity|].
  unfold exported_rows.
  split; intros E; rewrite E; [reflexivity|].
  split; [apply He; assumption|].
  eexists. split; [reflexivity|]. rewrite export_rows_filter. split.
  - apply Permutation_sym, filter_perm. assumption.
  - intros Hn. apply StronglySorted_filter.
    apply (ranked_numeric _ _ Hn Hrk).
Qed.

Lemma export_is_complete_witness :
  Z.of_nat (List.length sample_ranked) = Z.of_nat (List.length (load None sample_rows)) /\
  (export roomy_options = false -> exported_rows roomy_options sample_ranked = None) /\
  (export roomy_options = true ->
   export_opens open_files = true /\
   exists rows_out,
     exported_rows roomy_options sample_ranked = Some rows_out /\
     Permutation rows_out (filter (at_or_above 50.0) (load None sample_rows)) /\
     (Forall (fun s => is_num (risk_score s) = true) (load None sample_rows) ->
      descending risk_score rows_out)).
Proof.
  apply (export_is_complete roomy_options open_files sample_rows _ _ _ _
           (msort_run roomy_options open_files sample_rows
              ltac:(cbn; discriminate) (fun _ => eq_refl) (fun _ => eq_refl))).
Defined.

(** X16: the action queue never exceeds the limit, holds only loaded
    scholars at or above the threshold, holds all of them when it is
    shorter than the limit, and the text report prints the no-match line
    exactly when the queue is empty. *)
Theorem queue_within_limit o fs rows count exported queue flag :
  main_run o fs rows (Report count exported queue flag) ->
  Z.of_nat (List.length queue) <= Z.max 0 (limit o) /\
  (forall s, In s queue ->
     In s (load (cohort_filter o) rows) /\ (risk_score s <? min_risk o)%float = false) /\
  (Z.of_nat (List.length queue) < limit o ->
   forall s, In s (load (cohort_filter o) rows) ->
     (risk_score s <? min_risk o)%float = false -> In s queue) /\
  (flag = true <-> json o = false /\ queue = []).
Proof.
  intros Hrun. inversion Hrun as [| | |scholars Hne Hrk He Hs]; subst.
  destruct Hrk as [Hp _].
  unfold action_queue. rewrite action_queue_from_firstn, Z.sub_0_r, export_rows_filter.
  set (q := firstn (Z.to_nat (limit o)) (filter (at_or_above (min_risk o)) scholars)).
  split; [|split; [|split]].
  - subst q. rewrite length_firstn. lia.
  - intros s Hin. subst q. apply in_firstn in Hin. apply filter_In in Hin.
    destruct Hin as [Hin Ha]. split.
    + apply Permutation_in with scholars; [apply Permutation_sym|]; assumption.
    + unfold at_or_above in Ha. apply negb_true_iff in Ha. assumption.
  - intros Hlt s Hin Ha. subst q. apply in_firstn_short; [lia|].
    apply filter_In. split; [apply (Permutation_in _ Hp); assumption|].
    unfold at_or_above. rewrite Ha. reflexivity.
  - destruct (json o); cbn [negb andb].
    + split; [discriminate | intros [? _]; discriminate].
    + destruct q; cbn; split; intuition (try discriminate; auto).
Qed.

Lemma queue_within_limit_witness :
  Z.of_nat (List.length (action_queue 5 50.0 sample_ranked)) <= Z.max 0 5 /\
  (forall s, In s (action_queue 5 50.0 sample_ranked) ->
     In s (load None sample_rows) /\ (risk_score s <? 50.0)%float = false) /\
  (Z.of_nat (List.length (action_queue 5 50.0 sample_ranked)) < 5 ->
   forall s, In s (load None sample_rows) ->
     (risk_score s <? 50.0)%float = false -> In s (action_queue 5 50.0 sample_ranked)) /\
  (negb (json roomy_options) &&
   (List.length (action_queue 5 50.0 sample_ranked) =? 0)%nat = true <->
   json roomy_options = false /\ action_queue 5 50.0 sample_ranked = []).
Proof.
  apply (queue_within_limit roomy_options open_files sample_rows _ _ _ _
           (msort_run roomy_options open_files sample_rows
              ltac:(cbn; discriminate) (fun _ => eq_refl) (fun _ => eq_refl))).
Defined.

(** X17: when the scores of the loaded scholars are numbers, the action
    queue is in descending order of score and holds the top scorers: no
    queued scholar has a lower score than a qualifying scholar left out. *)
Theorem queue_holds_top_scorers o fs rows count exported queue flag :
  main_run o fs rows (Report count exported queue flag) ->
  Forall (fun s => is_num (risk_score s) = true) (load (cohort_filter o) rows) ->
  descending risk_score queue /\
  (forall a b, In a queue -> In b (load (cohort_filter o) rows) ->
     (risk_score b <? min_risk o)%float = false -> ~ In b queue ->
     (risk_score a <? risk_score b)%float = false).
Proof.
  intros Hrun Hn. inversion Hrun as [| | |scholars Hne Hrk He Hs]; subst.
  destruct (ranked_numeric _ _ Hn Hrk) as [Hp Hd].
  unfold action_queue. rewrite action_queue_from_firstn, Z.sub_0_r, export_rows_filter.
  assert (Hf : descending risk_score (filter (at_or_above (min_risk o)) scholars))
    by (apply StronglySorted_filter; assumption).
  split; [apply StronglySorted_firstn; assumption|].
  intros a b Ha Hb Hq Hnb.
  apply (sorted_prefix_dominates _ _ _ a b Hf Ha).
  assert (Hb' : In b (filter (at_or_above (min_risk o)) scholars)).
  { apply filter_In. split; [apply (Permutation_in _ Hp); assumption|].
    unfold at_or_above. rewrite Hq. reflexivity. }
  rewrite <- (firstn_skipn (Z.to_nat (limit o))) in Hb'. apply in_app_or in Hb'.
  destruct Hb'; [contradiction|assumption].
Qed.

Lemma queue_holds_top_scorers_witness :
  descending risk_score (action_queue 2 50.0 sample_ranked) /\
  (forall a b, In a (action_queue 2 50.0 sample_ranked) ->
     In b (load None sample_rows) ->
     (risk_score b <? 50.0)%float = false -> ~ In b (action_queue 2 50.0 sample_ranked) ->
     (risk_score a <? risk_score b)%float = false).
Proof.
  apply (queue_holds_top_scorers tight_options open_files sample_rows _ _ _ _
           (msort_run tight_options open_files sample_rows
              ltac:(cbn; discriminate) (fun _ => eq_refl) (fun _ => eq_refl))).
  cbn [load sample_rows cohort_filter tight_options]. repeat constructor.
Defined.

(* ----- drivers ----- *)

Lemma NoDup_map_filter {A B} (g : A -> B) (f : A -> bool) l :
  NoDup (map g l) -> NoDup (map g (filter f l)).
Proof.
  induction l as [|x l IH]; cbn [map filter]; [trivial|].
  intros H. inversion H as [|? ? Hn Hr]; subst.
  destruct (f x); [|apply IH; assumption].
  cbn [map]. constructor; [|apply IH; assumption].
  intros Hin. apply Hn. apply in_map_iff in Hin. destruct Hin as (y & E & Hy).
  apply in_map_iff. exists y. split; [assumption|]. apply filter_In in Hy. apply Hy.
Qed.

Lemma NoDup_firstn_local {A} n (l : list A) : NoDup l -> NoDup (firstn n l).
Proof.
  intros H. rewrite <- (firstn_skipn n l) in H. apply NoDup_app_remove_r in H. assumption.
Qed.

Lemma driver_labels_distinct s : NoDup (map label (driver_terms s)).
Proof.
  unfold driver_terms. cbn [map label].
  repeat (constructor; [cbn [In]; intuition discriminate|]). constructor.
Qed.

Lemma format_listed_inv s shown :
  format_drivers s (Listed shown) ->
  exists sorted,
    collect_drivers s <> [] /\
    qsort_post compare_driver_desc (collect_drivers s) sorted /\
    shown = firstn 3 sorted.
Proof.
  intros H. remember (Listed shown) as r eqn:E.
  destruct H as [|sorted Hne Hq]; [discriminate|].
  exists sorted. repeat split; try assumption; try apply Hq. congruence.
Qed.

(** X13: a driver list has one to three entries, as many as the
    qualifying terms allow, each a distinct one of the seven terms and
    above the materiality threshold. *)
Theorem listed_drivers_shape s shown :
  format_drivers s (Listed shown) ->
  List.length shown = Nat.min 3 (List.length (filter material (driver_terms s))) /\
  (1 <= List.length shown <= 3)%nat /\
  NoDup (map label shown) /\
  (forall d, In d shown -> In d (driver_terms s) /\ material d = true).
Proof.
  intros H. destruct (format_listed_inv s shown H) as (sorted & Hne & [Hp Hs] & ->).
  rewrite collect_drivers_filter in *.
  assert (Hlen : List.length sorted = List.length (filter material (driver_terms s)))
    by (symmetry; apply Permutation_length; assumption).
  split; [rewrite length_firstn, Hlen; reflexivity|].
  split.
  - rewrite length_firstn, Hlen.
    destruct (filter material (driver_terms s)); [contradiction|]. cbn [List.length]. lia.
  - split.
    + rewrite <- firstn_map. apply NoDup_firstn_local.
      apply (Permutation_NoDup (Permutation_map label Hp)).
      apply NoDup_map_filter. apply driver_labels_distinct.
    + intros d Hd. apply in_firstn in Hd.
      apply (Permutation_in _ (Permutation_sym Hp)) in Hd.
      apply filter_In in Hd. assumption.
Qed.

Lemma listed_drivers_shape_witness :
  List.length (rev (collect_drivers tied_record))
  = Nat.min 3 (List.length (filter material (driver_terms tied_record))).
Proof. apply (listed_drivers_shape tied_record _ format_tied_swapped). Defined.



(** ** RiskModel and Classifier at the edges *)

(* ----- NaN propagation ----- *)

Lemma not_num_nan x : is_num x = false <-> Prim2SF x = S754_nan.
Proof.
  rewrite is_num_spec. destruct (Prim2SF x); cbn; split; congruence.
Qed.

Lemma nan_mul_l x y : is_num x = false -> is_num (x * y) = false.
Proof.
  rewrite !not_num_nan, mul_spec. intros ->. reflexivity.
Qed.

Lemma nan_add_l x y : is_num x = false -> is_num (x + y) = false.
Proof.
  rewrite !not_num_nan, add_spec. intros ->. reflexivity.
Qed.

Lemma nan_add_r x y : is_num y = false -> is_num (x + y) = false.
Proof.
  rewrite !not_num_nan, add_spec. intros ->. unfold SF64add, SFadd.
  destruct (Prim2SF x); reflexivity.
Qed.

Lemma nan_sub_r x y : is_num y = false -> is_num (x - y) = false.
Proof.
  rewrite !not_num_nan, sub_spec. intros ->. unfold SF64sub, SFsub.
  destruct (Prim2SF x); reflexivity.
Qed.

Lemma ltb_nan_l x y : is_num x = false -> (x <? y)%float = false.
Proof.
  intros H. destruct (x <? y)%float eqn:E; [|reflexivity].
  apply ltb_true_num in E. destruct E. congruence.
Qed.

Lemma ltb_nan_r x y : is_num y = false -> (x <? y)%float = false.
Proof.
  intros H. destruct (x <? y)%float eqn:E; [|reflexivity].
  apply ltb_true_num in E. destruct E. congruence.
Qed.

Lemma leb_nan_r x y : is_num y = false -> (x <=? y)%float = false.
Proof.
  intros H. destruct (x <=? y)%float eqn:E; [|reflexivity].
  apply leb_true_num in E. destruct E. congruence.
Qed.

(** [clamp] hands a NaN through unchanged. *)
Lemma clamp_nan v lo hi : is_num v = false -> clamp v lo hi = v.
Proof.
  intros H. unfold clamp. rewrite ltb_nan_l, ltb_nan_r by assumption. reflexivity.
Qed.

Lemma nan_gap_term hi w a :
  is_num a = false -> is_num (clamp (hi - a) 0.0 hi * w) = false.
Proof.
  intros H. apply nan_mul_l. rewrite clamp_nan; apply nan_sub_r; assumption.
Qed.

Lemma risk_sum_nan t1 t2 t3 t4 t5 t6 t7 :
  is_num t1 = false \/ is_num t2 = false \/ is_num t3 = false \/ is_num t4 = false \/
  is_num t5 = false \/ is_num t6 = false \/ is_num t7 = false ->
  is_num (risk_sum t1 t2 t3 t4 t5 t6 t7) = false.
Proof.
  unfold risk_sum.
  intros [H|[H|[H|[H|[H|[H|H]]]]]];
    repeat first [ apply nan_add_r; exact H | apply nan_add_l ].
Qed.

(** X10: a NaN among the six real-valued signals makes the score NaN,
    which the clamp lets through and the classifier puts in the low tier. *)
Theorem nan_signal_poisons_score s :
  numeric_signals s = false ->
  is_nan (compute_risk s) = true /\ risk_tier (compute_risk s) = "low"%string.
Proof.
  intros H.
  assert (Hs : is_num (risk_sum (inactivity s) (contact_gap s) (attendance s)
                         (engagement s) (gpa_term s) (survey s) (flags s)) = false).
  { apply risk_sum_nan. unfold numeric_signals in H.
    unfold inactivity, contact_gap, attendance, engagement, gpa_term, survey,
      attendance_gap, engagement_gap, gpa_gap, survey_gap.
    destruct (is_num (days_inactive s)) eqn:E1; [|left; apply nan_mul_l; assumption].
    destruct (is_num (attendance_rate s)) eqn:E2;
      [|right; right; left; apply nan_gap_term; assumption].
    destruct (is_num (engagement_score s)) eqn:E3;
      [|right; right; right; left; apply nan_gap_term; assumption].
    destruct (is_num (gpa s)) eqn:E4;
      [|right; right; right; right; left; apply nan_gap_term; assumption].
    destruct (is_num (last_contact_days s)) eqn:E5;
      [|right; left; apply nan_mul_l; assumption].
    destruct (is_num (survey_score s)) eqn:E6;
      [|right; right; right; right; right; left; apply nan_gap_term; assumption].
    discriminate. }
  assert (Hn : is_num (compute_risk s) = false).
  { rewrite compute_risk_terms, clamp_nan by assumption. assumption. }
  split.
  - unfold is_num in Hn. apply negb_false_iff in Hn. assumption.
  - unfold risk_tier. rewrite !leb_nan_r by assumption. reflexivity.
Qed.

Lemma nan_signal_poisons_score_witness :
  is_nan (compute_risk (with_gpa example_record nan)) = true /\
  risk_tier (compute_risk (with_gpa example_record nan)) = "low"%string.
Proof. apply (nan_signal_poisons_score (with_gpa example_record nan)). reflexivity. Defined.

(* ----- tiers ----- *)

Lemma leb_trans x y z :
  (x <=? y)%float = true -> (y <=? z)%float = true -> (x <=? z)%float = true.
Proof.
  rewrite !leb_iff. intros (Hx & Hy & H1) (_ & Hz & H2). repeat split; try assumption. lia.
Qed.

(** X12: a higher score never gets a lower tier. *)
Theorem risk_tier_monotone r1 r2 :
  (r1 <=? r2)%float = true ->
  (risk_tier r1 = "high"%string -> risk_tier r2 = "high"%string) /\
  (risk_tier r2 = "low"%string -> risk_tier r1 = "low"%string).
Proof.
  intros H. unfold risk_tier. split.
  - destruct (75.0 <=? r1)%float eqn:E1.
    + rewrite (leb_trans _ _ _ E1 H). reflexivity.
    + destruct (50.0 <=? r1)%float; discriminate.
  - destruct (75.0 <=? r2)%float eqn:E2; [discriminate|].
    destruct (50.0 <=? r2)%float eqn:E3; [discriminate|]. intros _.
    destruct (75.0 <=? r1)%float eqn:E1; [rewrite (leb_trans _ _ _ E1 H) in E2; discriminate|].
    destruct (50.0 <=? r1)%float eqn:E4; [rewrite (leb_trans _ _ _ E4 H) in E3; discriminate|].
    reflexivity.
Qed.

Lemma risk_tier_monotone_witness :
  (risk_tier 80 = "high"%string -> risk_tier 90 = "high"%string) /\
  (risk_tier 90 = "low"%string -> risk_tier 80 = "low"%string).
Proof. apply (risk_tier_monotone 80 90). reflexivity. Defined.

(* ----- the score covers every term ----- *)

Lemma add_nonneg_ge a x :
  is_num a = true -> 0 <= FV a -> is_finite x = true -> 0 <= FV x ->
  is_num (a + x) = true /\ FV a <= FV (a + x) /\ FV x <= FV (a + x).
Proof.
  intros Ha Ha0 Hx Hx0. destruct (add_ext a x Ha Hx) as [Hn E].
  split; [assumption|]. rewrite E.
  destruct (is_finite a) eqn:Fa.
  - rewrite <- (ROUND_FV a Fa) at 1. rewrite <- (ROUND_FV x Hx) at 2.
    split; apply ROUND_mono; lia.
  - split; [lia|]. destruct (infinite_FV a Ha Fa) as [E'|E']; rewrite E' in *.
    + pose proof (FV_range x). lia.
    + pose proof INF_pos. lia.
Qed.

Lemma risk_sum_covers t1 t2 t3 t4 t5 t6 t7 :
  Forall (fun t => is_finite t = true /\ 0 <= FV t) [t1; t2; t3; t4; t5; t6; t7] ->
  is_num (risk_sum t1 t2 t3 t4 t5 t6 t7) = true /\
  Forall (fun t => FV t <= FV (risk_sum t1 t2 t3 t4 t5 t6 t7)) [t1; t2; t3; t4; t5; t6; t7].
Proof.
  intros H. unfold risk_sum.
  repeat match goal with
  | H : Forall _ (_ :: _) |- _ => inversion H; clear H; subst
  | H : _ /\ _ |- _ => destruct H
  end.
  assert (S0 : is_num 0%float = true /\ 0 <= FV 0%float) by (split; [reflexivity | rewrite FV_zero; lia]).
  destruct S0 as [N0 P0].
  destruct (add_nonneg_ge _ t1 N0 P0) as (N1 & A1 & B1); try assumption.
  destruct (add_nonneg_ge _ t2 N1 ltac:(lia)) as (N2 & A2 & B2); try assumption.
  destruct (add_nonneg_ge _ t3 N2 ltac:(lia)) as (N3 & A3 & B3); try assumption.
  destruct (add_nonneg_ge _ t4 N3 ltac:(lia)) as (N4 & A4 & B4); try assumption.
  destruct (add_nonneg_ge _ t5 N4 ltac:(lia)) as (N5 & A5 & B5); try assumption.
  destruct (add_nonneg_ge _ t6 N5 ltac:(lia)) as (N6 & A6 & B6); try assumption.
  destruct (add_nonneg_ge _ t7 N6 ltac:(lia)) as (N7 & A7 & B7); try assumption.
  split; [assumption|]. repeat constructor; lia.
Qed.

Lemma weight_nonneg x c :
  is_finite x = true -> (0 <=? x)%float = true ->
  is_finite c = true -> (0 <=? c)%float = true ->
  0 <= FV (x * c).
Proof.
  intros Hx Hx0 Hc Hc0.
  destruct (mul_FV x c Hx Hc) as [_ ->].
  apply FV_nonneg_of_leb in Hx0, Hc0.
  change 0 with (ROUND 0) at 1. apply ROUND_mono.
  apply Z.div_pos; [nia | apply pow2148_pos].
Qed.

(** X11: for a valid record with non-negative day counts and flag
    count, the score is at least every one of the seven terms, unless it is
    capped at 100. *)
Theorem score_covers_each_term s :
  valid_record s = true ->
  (0 <=? days_inactive s)%float = true ->
  (0 <=? last_contact_days s)%float = true ->
  0 <= open_flags s ->
  Forall (fun d => (value d <=? compute_risk s)%float = true \/
                   (100 <=? compute_risk s)%float = true)
         (driver_terms s).
Proof.
  intros Hv Hd0 Hl0 Hf0.
  destruct (terms_finite s Hv) as (F1 & F2 & F3 & F4 & F5 & F6 & F7).
  pose proof (proj1 (valid_record_iff s) Hv) as (Hd & Ha & He & Hg & Hl & Hs & Hf).
  assert (Hterms : Forall (fun t => is_finite t = true /\ 0 <= FV t)
            [inactivity s; contact_gap s; attendance s; engagement s;
             gpa_term s; survey s; flags s]).
  { repeat constructor; try assumption.
    - apply weight_nonneg; try assumption; by_computation.
    - apply weight_nonneg; try assumption; by_computation.
    - apply gap_term_finite; [by_computation .. | auto with b64].
    - apply gap_term_finite; [by_computation .. | auto with b64].
    - apply gap_term_finite; [by_computation .. | auto with b64].
    - apply gap_term_finite; [by_computation .. | auto with b64].
    - unfold flags. destruct (double_of_int_FV (open_flags s) Hf) as [Fi Ei].
      destruct (mul_FV (double_of_int (open_flags s)) 6.0 Fi eq_refl) as [_ ->].
      change 0 with (ROUND 0) at 1. apply ROUND_mono.
      assert (0 <= FV 6) by (apply FV_nonneg_of_leb; by_computation).
      apply Z.div_pos; [|apply pow2148_pos]. rewrite Ei. pose proof pow2148_pos. nia. }
  destruct (risk_sum_covers _ _ _ _ _ _ _ Hterms) as [Hn Hcov].
  assert (H100 : FV 0 <= FV 100) by (apply FV_le_of_leb; by_computation).
  destruct (clamp_FV _ 0.0%float 100.0%float Hn eq_refl eq_refl H100) as [Hc E].
  rewrite <- compute_risk_terms in Hc, E.
  assert (Hgen : forall t, is_finite t = true ->
            FV t <= FV (risk_sum (inactivity s) (contact_gap s) (attendance s)
                          (engagement s) (gpa_term s) (survey s) (flags s)) ->
            (t <=? compute_risk s)%float = true \/ (100 <=? compute_risk s)%float = true).
  { intros t Ft Ht. destruct (Z_le_gt_dec (FV t) (FV 100)) as [Hle|Hgt].
    - left. apply leb_iff. split; [auto with b64|]. split; [assumption|].
      rewrite E. rewrite FV_zero in *. lia.
    - right. apply leb_iff. split; [reflexivity|]. split; [assumption|].
      rewrite E. rewrite FV_zero in *. lia. }
  unfold driver_terms.
  repeat match goal with
  | H : Forall _ (_ :: _) |- _ => inversion H; clear H; subst
  end.
  repeat (apply Forall_cons; [cbn [value]; apply Hgen; assumption|]). apply Forall_nil.
Qed.

Lemma score_covers_each_term_witness :
  Forall (fun d => (value d <=? compute_risk example_record)%float = true \/
                   (100 <=? compute_risk example_record)%float = true)
         (driver_terms example_record).
Proof.
  apply (score_covers_each_term example_record); try reflexivity. discriminate.
Defined.

(** ** Input: [trim] *)

Lemma skip_space_split s :
  exists pre, s = pre ++ skip_space s /\ forallb isspace pre = true.
Proof.
  induction s as [|c r (pre & E & Hp)]; [exists []; auto|].
  cbn [skip_space]. destruct (isspace c) eqn:Ec.
  - exists (c :: pre). cbn [app forallb]. rewrite Ec, Hp. split; [f_equal; assumption|reflexivity].
  - exists []. auto.
Qed.

Lemma skip_space_head s c r : skip_space s = c :: r -> isspace c = false.
Proof.
  induction s as [|d t IH]; cbn [skip_space]; [discriminate|].
  destruct (isspace d) eqn:Ed; [assumption|]. intros E. injection E as <- _. assumption.
Qed.

Lemma skip_space_id s c r : s = c :: r -> isspace c = false -> skip_space s = s.
Proof. intros -> H. cbn [skip_space]. rewrite H. reflexivity. Qed.

Lemma scan_back_spec s e :
  let k := scan_back s e in
  (k <= e)%nat /\
  (forall j, (k < j <= e)%nat -> isspace (nth j s Ascii.zero) = true) /\
  (k = O \/ isspace (nth k s Ascii.zero) = false).
Proof.
  induction e as [|e IH]; cbn [scan_back].
  - split; [lia|]. split; [intros j Hj; lia | left; reflexivity].
  - destruct (isspace (nth (S e) s Ascii.zero)) eqn:E.
    + destruct IH as (H1 & H2 & H3). split; [lia|]. split; [|assumption].
      intros j Hj. destruct (Nat.eq_dec j (S e)) as [->|]; [assumption | apply H2; lia].
    + split; [lia|]. split; [intros j Hj; lia | right; assumption].
Qed.

Lemma forallb_skipn_nth s k :
  (forall j, (k <= j < List.length s)%nat -> isspace (nth j s Ascii.zero) = true) ->
  forallb isspace (skipn k s) = true.
Proof.
  revert k. induction s as [|c r IH]; intros k H; [destruct k; reflexivity|].
  destruct k as [|k]; cbn [skipn].
  - cbn [forallb]. pose proof (H O ltac:(cbn; lia)) as H0. cbn [nth] in H0.
    rewrite H0. cbn [andb].
    apply (IH O). intros j Hj. apply (H (S j)). cbn. lia.
  - apply IH. intros j Hj. apply (H (S j)). cbn. lia.
Qed.

Lemma last_firstn_nth (s : list ascii) k d :
  (k < List.length s)%nat -> last (firstn (S k) s) d = nth k s d.
Proof.
  revert k. induction s as [|c r IH]; intros k H; [cbn in H; lia|].
  destruct k as [|k]; [destruct r; reflexivity|].
  cbn [List.length] in H. specialize (IH k ltac:(lia)).
  change (firstn (S (S k)) (c :: r)) with (c :: firstn (S k) r).
  destruct r as [|c' r']; [cbn in H; lia|].
  change (firstn (S k) (c' :: r')) with (c' :: firstn k r') in *.
  cbn [last nth] in *. exact IH.
Qed.

(** What [trim] does to the characters. *)
Lemma trim_chars_spec s :
  exists pre post,
    s = pre ++ trim_chars s ++ post /\
    forallb isspace pre = true /\ forallb isspace post = true /\
    (trim_chars s = [] \/
     isspace (hd Ascii.zero (trim_chars s)) = false /\
     isspace (last (trim_chars s) Ascii.zero) = false).
Proof.
  destruct (skip_space_split s) as (pre & E & Hpre).
  unfold trim_chars. cbv zeta.
  destruct (skip_space s) as [|c r] eqn:Es.
  - exists pre, []. repeat split; auto.
  - pose proof (skip_space_head _ _ _ Es) as Hc.
    set (t := c :: r) in *.
    pose proof (scan_back_spec t (List.length t - 1)) as (H1 & H2 & H3). cbv zeta in *.
    set (k := scan_back t (List.length t - 1)) in *.
    assert (Hlen : (0 < List.length t)%nat) by (subst t; cbn; lia).
    exists pre, (skipn (S k) t). split; [rewrite firstn_skipn; assumption|].
    split; [assumption|]. split.
    + apply forallb_skipn_nth. intros j Hj. apply H2. lia.
    + right. split.
      * subst t. cbn [firstn hd]. assumption.
      * rewrite last_firstn_nth by lia. destruct H3 as [E0|H3]; [|assumption].
        rewrite E0. subst t. assumption.
Qed.

Lemma scan_back_fixed s e :
  (e < List.length s)%nat -> isspace (nth e s Ascii.zero) = false -> scan_back s e = e.
Proof. intros _ H. destruct e; cbn [scan_back]; [reflexivity|]. rewrite H. reflexivity. Qed.

Lemma nth_last (s : list ascii) d : s <> [] -> nth (List.length s - 1) s d = last s d.
Proof.
  induction s as [|c r IH]; [congruence|]. intros _.
  destruct r as [|c' r']; [reflexivity|].
  change (last (c :: c' :: r') d) with (last (c' :: r') d).
  replace (List.length (c :: c' :: r') - 1)%nat with (S (List.length (c' :: r') - 1))
    by (cbn [List.length]; lia).
  cbn [nth]. apply IH. discriminate.
Qed.

Lemma trim_chars_fixed s :
  s <> [] -> isspace (hd Ascii.zero s) = false -> isspace (last s Ascii.zero) = false ->
  trim_chars s = s.
Proof.
  intros Hne Hh Hl. destruct s as [|c r]; [congruence|].
  unfold trim_chars. cbv zeta. rewrite (skip_space_id (c :: r) c r eq_refl Hh).
  rewrite scan_back_fixed.
  - replace (S (List.length (c :: r) - 1)) with (List.length (c :: r)) by (cbn; lia).
    apply firstn_all.
  - cbn. lia.
  - rewrite nth_last by discriminate. assumption.
Qed.

Lemma string_of_list_ascii_app a b :
  string_of_list_ascii (a ++ b)
  = (string_of_list_ascii a ++ string_of_list_ascii b)%string.
Proof. induction a as [|c a IH]; cbn; [reflexivity|]. rewrite IH. reflexivity. Qed.

(** X3: [trim] removes exactly the surrounding white space: the
    argument is white space, then the result, then white space, and the
    result is empty or begins and ends with a character that is not white
    space. *)
Theorem trim_removes_surrounding_space s :
  exists pre post,
    s = (pre ++ trim s ++ post)%string /\
    all_space pre = true /\ all_space post = true /\
    (trim s = ""%string \/
     exists c body, trim s = String c body /\ isspace c = false /\
       isspace (last (list_ascii_of_string (trim s)) Ascii.zero) = false).
Proof.
  destruct (trim_chars_spec (list_ascii_of_string s)) as (pre & post & E & Hpre & Hpost & Hends).
  exists (string_of_list_ascii pre), (string_of_list_ascii post).
  unfold trim, all_space. rewrite !list_ascii_of_string_of_list_ascii.
  split.
  - rewrite <- !string_of_list_ascii_app, <- E. symmetry. apply string_of_list_ascii_of_string.
  - split; [assumption|]. split; [assumption|].
    destruct Hends as [E0|[Hh Hl]]; [left; rewrite E0; reflexivity|].
    destruct (trim_chars (list_ascii_of_string s)) as [|c r]; [left; reflexivity|].
    right. exists c, (string_of_list_ascii r). repeat split; assumption.
Qed.

(** X4: trimming a trimmed string changes nothing. *)
Theorem trim_idempotent s : trim (trim s) = trim s.
Proof.
  unfold trim. rewrite list_ascii_of_string_of_list_ascii. f_equal.
  destruct (trim_chars_spec (list_ascii_of_string s)) as (_ & _ & _ & _ & _ & [E|[Hh Hl]]).
  - rewrite E. reflexivity.
  - destruct (trim_chars (list_ascii_of_string s)) as [|c r]; [reflexivity|].
    apply trim_chars_fixed; [discriminate | assumption | assumption].
Qed.

Lemma skip_space_all s : forallb isspace s = true -> skip_space s = [].
Proof.
  induction s as [|c r IH]; [reflexivity|]. cbn [forallb skip_space].
  intros H. apply andb_true_iff in H. destruct H as [-> H]. apply IH. assumption.
Qed.

Lemma trim_blank s : trim s = ""%string <-> all_space s = true.
Proof.
  unfold trim, all_space. split.
  - intros E.
    destruct (trim_chars_spec (list_ascii_of_string s)) as (pre & post & Es & Hpre & Hpost & _).
    assert (Et : trim_chars (list_ascii_of_string s) = []).
    { destruct (trim_chars (list_ascii_of_string s)); [reflexivity|discriminate]. }
    rewrite Et in Es. rewrite Es. cbn [app]. rewrite forallb_app, Hpre, Hpost. reflexivity.
  - intros H. unfold trim_chars. cbv zeta. rewrite skip_space_all by assumption. reflexivity.
Qed.

(** ** Input: fields and the reading loop *)

Lemma split_fields_length room s :
  List.length (split_fields room (Some s))
  = Nat.min room (S (count_commas (c_string s))).
Proof.
  revert s. induction room as [|room IH]; intros s; [reflexivity|].
  cbn [split_fields].
  assert (H : forall s, List.length (split_fields room (snd (strsep s)))
                        = Nat.min room (count_commas (c_string s))).
  { clear s. induction s as [|c r IHs]; cbn [strsep c_string].
    - cbn [snd count_commas]. destruct room; reflexivity.
    - destruct (Ascii.eqb c NUL); [cbn [snd count_commas]; destruct room; reflexivity|].
      cbn [count_commas]. destruct (Ascii.eqb c ","); cbn [snd].
      + apply IH.
      + destruct (strsep r) as [tok cur]. cbn [snd] in *. exact IHs. }
  specialize (H s). destruct (strsep s) as [tok cur]. cbn [snd] in H.
  cbn [List.length]. rewrite H. reflexivity.
Qed.

(** X5: a line yields one field per comma of its C string plus one, at
    most sixteen; it is accepted as a record exactly when its C string has
    at least nine commas. *)
Theorem field_count_and_acceptance line :
  List.length (fields_of_line line) = Nat.min 16 (S (count_commas (c_string line))) /\
  (accepted line = true <-> (9 <= count_commas (c_string line))%nat).
Proof.
  assert (H : List.length (fields_of_line line)
              = Nat.min 16 (S (count_commas (c_string line))))
    by apply split_fields_length.
  split; [assumption|]. unfold accepted. rewrite H, Nat.leb_le. lia.
Qed.

Lemma strsep_no_comma s :
  count_commas s = O -> c_string s = s -> strsep s = (s, None).
Proof.
  induction s as [|c r IH]; cbn [strsep count_commas c_string]; [reflexivity|].
  destruct (Ascii.eqb c NUL); [discriminate|].
  destruct (Ascii.eqb c ","); [discriminate|]. intros H E.
  rewrite IH; [reflexivity | assumption | congruence].
Qed.

Lemma strsep_append f rest :
  count_commas f = O -> c_string f = f ->
  strsep (f ++ String "," rest) = (f, Some rest).
Proof.
  induction f as [|c r IH]; cbn [strsep count_commas c_string append].
  - intros _ _. reflexivity.
  - destruct (Ascii.eqb c NUL); [discriminate|].
    destruct (Ascii.eqb c ","); [discriminate|]. intros H E.
    rewrite IH; [reflexivity | assumption | congruence].
Qed.

(** A line whose first field holds a NUL ends there for the C library:
    it has one field and is skipped; a first line that begins with NUL is
    no header. *)
Example nul_line_is_skipped :
  fields_of_line (String "X" (String NUL "Y,b,alpha,1,2,3,4,5,6,7")) = ["X"]%string /\
  accepted (String "X" (String NUL "Y,b,alpha,1,2,3,4,5,6,7")) = false /\
  contains "scholar_id" (String NUL "scholar_id,name") = false.
Proof. repeat split; vm_compute; reflexivity. Qed.

(** X6: fields without commas, NUL or surrounding white space, joined
    by commas, are read back unchanged (up to sixteen of them). *)
Theorem fields_round_trip fields :
  fields <> [] -> (List.length fields <= 16)%nat ->
  Forall (fun f => count_commas f = O /\ c_string f = f /\ trim f = f) fields ->
  fields_of_line (String.concat "," fields) = fields.
Proof.
  unfold fields_of_line, MAX_FIELDS. generalize 16%nat as room.
  intros room Hne Hlen Hall. revert room Hlen.
  induction Hall as [|f rest (Hc & Hz & Ht) Hall IH]; [congruence|]. intros room Hlen.
  destruct room as [|room]; [cbn in Hlen; lia|].
  cbn [List.length] in Hlen. cbn [split_fields].
  destruct rest as [|g rest'].
  - cbn [String.concat]. rewrite strsep_no_comma by assumption.
    rewrite Ht. destruct room; reflexivity.
  - change (String.concat "," (f :: g :: rest'))
      with (f ++ String "," (String.concat "," (g :: rest')))%string.
    rewrite strsep_append by assumption. rewrite Ht. f_equal.
    apply IH; [discriminate | cbn [List.length] in *; lia].
Qed.

Lemma fields_round_trip_witness :
  fields_of_line (String.concat "," ["S-1"; "Ada Lovelace"; "alpha"; "40"; "50"; "80";
                                    "3.0"; "10"; "90"; "1"]%string)
  = ["S-1"; "Ada Lovelace"; "alpha"; "40"; "50"; "80"; "3.0"; "10"; "90"; "1"]%string.
Proof.
  apply fields_round_trip.
  - discriminate.
  - cbn. lia.
  - repeat constructor; vm_compute; reflexivity.
Defined.

Section ReaderFacts.

Variable atof : string -> float.
Variable atoi : string -> Z.

(** X7: a numeric field that is empty or all white space is read as
    zero, whatever [atof] and [atoi] would make of it. *)
Theorem blank_field_is_zero s :
  all_space s = true ->
  parse_double atof (trim s) = 0.0%float /\ parse_int atoi (trim s) = 0.
Proof.
  intros H. apply trim_blank in H. rewrite H. split; reflexivity.
Qed.

Lemma read_lines_acc filter line_no lines scholars skipped :
  0 < line_no ->
  read_lines atof atoi filter line_no lines scholars skipped
  = (scholars ++ load filter (map (fun line => scholar_of_fields atof atoi (fields_of_line line))
                                 (List.filter accepted lines)),
     skipped + Z.of_nat (List.length (List.filter (fun l => negb (accepted l)) lines))).
Proof.
  revert line_no scholars skipped.
  induction lines as [|line rest IH]; intros line_no scholars skipped Hn.
  - cbn. rewrite app_nil_r. apply f_equal. lia.
  - cbn [read_lines]. cbv zeta.
    destruct (Z.eqb_spec (line_no + 1) 1) as [E|_]; [lia|]. cbn [andb].
    cbn [List.filter]. rewrite Nat.ltb_antisym. fold (accepted line).
    destruct (accepted line); cbn [negb].
    2:{ rewrite IH by lia. cbn [List.length]. apply f_equal. lia. }
    + cbn [map load]. cbv zeta.
      destruct filter as [c|].
      * cbn [cohort with_risk].
        destruct (negb _); rewrite IH by lia; [reflexivity|].
        rewrite <- app_assoc. reflexivity.
      * rewrite IH by lia. rewrite <- app_assoc. reflexivity.
Qed.

Lemma read_file_load filter lines :
  read_file atof atoi filter lines
  = (load filter (rows_of atof atoi lines),
     Z.of_nat (List.length (List.filter (fun l => negb (accepted l)) (data_lines lines)))).
Proof.
  unfold read_file, rows_of, data_lines. destruct lines as [|first rest]; [reflexivity|].
  cbn [read_lines]. cbv zeta. change (0 + 1 =? 1) with true. cbn [andb].
  destruct (contains "scholar_id" first) eqn:Eh.
  - rewrite read_lines_acc by lia. reflexivity.
  - (* the first line is a data line: same steps as any later line *)
    cbn [List.filter map]. rewrite Nat.ltb_antisym. fold (accepted first).
    destruct (accepted first); cbn [negb].
    2:{ rewrite read_lines_acc by lia. cbn [List.length app]. apply f_equal. lia. }
    + cbn [map load]. cbv zeta.
      destruct filter as [c|].
      * cbn [cohort with_risk].
        destruct (negb _); rewrite read_lines_acc by lia; reflexivity.
      * rewrite read_lines_acc by lia. reflexivity.
Qed.

(** X8: the reading loop is [load] applied to the accepted data
    lines, in file order, and [skipped] counts the data lines with fewer
    than ten fields; a first line that mentions scholar_id is neither. *)
Theorem read_file_is_load filter lines :
  read_file atof atoi filter lines
  = (load filter (rows_of atof atoi lines),
     Z.of_nat (List.length (List.filter (fun l => negb (accepted l)) (data_lines lines)))).
Proof. apply read_file_load. Qed.

(** X9: every line is accounted for: with no cohort filter, loaded
    rows, skipped rows and the header make up the file. *)
Theorem read_file_accounts_for_lines lines :
  let '(scholars, skipped) := read_file atof atoi None lines in
  Z.of_nat (List.length scholars) + skipped
  + (match lines with
     | first :: _ => if contains "scholar_id" first then 1 else 0
     | [] => 0
     end)
  = Z.of_nat (List.length lines).
Proof.
  rewrite read_file_load.
  assert (Hload : forall rows, List.length (load None rows) = List.length rows).
  { induction rows as [|r rows IH]; cbn [load List.length]; congruence. }
  rewrite Hload. unfold rows_of. rewrite length_map.
  assert (Hpart : forall l, (List.length (List.filter accepted l)
            + List.length (List.filter (fun x => negb (accepted x)) l) = List.length l)%nat).
  { induction l as [|x l IH]; [reflexivity|]. cbn [List.filter].
    destruct (accepted x); cbn [negb List.length]; lia. }
  pose proof (Hpart (data_lines lines)) as H. revert H.
  unfold data_lines. destruct lines as [|first rest]; [reflexivity|].
  destruct (contains "scholar_id" first); cbn [List.length]; lia.
Qed.

End ReaderFacts.

Lemma blank_field_is_zero_witness :
  parse_double (fun _ => 1%float) (trim "  ") = 0%float /\
  parse_int (fun _ => 1) (trim "  ") = 0.
Proof. apply blank_field_is_zero. reflexivity. Defined.

(** ** Command line *)

Section CliFacts.

Variable atof : string -> float.
Variable atoi : string -> Z.

Lemma flag_json arg a :
  (Cli.json_full a = true -> Cli.json a = true) ->
  Cli.json_full (Cli.flag arg a) = true -> Cli.json (Cli.flag arg a) = true.
Proof.
  unfold Cli.flag. intros H.
  repeat (destruct (_ =? _)%string; [cbn; auto|]). destruct (Cli.positional arg); cbn; auto.
Qed.

Lemma flag_path arg a p :
  Cli.path (Cli.flag arg a) = Some p ->
  Cli.path a = Some p \/ (p = arg /\ Cli.positional p = true).
Proof.
  unfold Cli.flag.
  repeat (destruct (_ =? _)%string; [cbn; auto|]).
  destruct (Cli.positional arg) eqn:E; cbn; auto.
  intros [= <-]. auto.
Qed.

Lemma parse_args_step arg v rest a :
  Cli.parse_args atof atoi (arg :: v :: rest) a
  = if (arg =? "-limit")%string then
      Cli.parse_args atof atoi rest
        (Cli.mkArgs (Cli.path a) (atoi v) (Cli.min_risk a) (Cli.json a) (Cli.json_full a)
           (Cli.drivers a) (Cli.cohort_filter a) (Cli.export_path a) (Cli.summary_path a))
    else if (arg =? "-min-risk")%string then
      Cli.parse_args atof atoi rest
        (Cli.mkArgs (Cli.path a) (Cli.limit a) (parse_double atof v) (Cli.json a)
           (Cli.json_full a) (Cli.drivers a) (Cli.cohort_filter a) (Cli.export_path a)
           (Cli.summary_path a))
    else if (arg =? "-cohort")%string then
      Cli.parse_args atof atoi rest
        (Cli.mkArgs (Cli.path a) (Cli.limit a) (Cli.min_risk a) (Cli.json a) (Cli.json_full a)
           (Cli.drivers a) (Some v) (Cli.export_path a) (Cli.summary_path a))
    else if (arg =? "-export")%string then
      Cli.parse_args atof atoi rest
        (Cli.mkArgs (Cli.path a) (Cli.limit a) (Cli.min_risk a) (Cli.json a) (Cli.json_full a)
           (Cli.drivers a) (Cli.cohort_filter a) (Some v) (Cli.summary_path a))
    else if (arg =? "-summary")%string then
      Cli.parse_args atof atoi rest
        (Cli.mkArgs (Cli.path a) (Cli.limit a) (Cli.min_risk a) (Cli.json a) (Cli.json_full a)
           (Cli.drivers a) (Cli.cohort_filter a) (Cli.export_path a) (Some v))
    else Cli.parse_args atof atoi (v :: rest) (Cli.flag arg a).
Proof. reflexivity. Qed.

(** X2: after the argument loop, [json_full] is set only together
    with [json]. *)
Theorem json_full_implies_json args :
  let a := Cli.parse_args atof atoi args Cli.initial in
  Cli.json_full a = true -> Cli.json a = true.
Proof.
  cbv zeta.
  assert (H : forall n args a, (List.length args <= n)%nat ->
            (Cli.json_full a = true -> Cli.json a = true) ->
            Cli.json_full (Cli.parse_args atof atoi args a) = true ->
            Cli.json (Cli.parse_args atof atoi args a) = true).
  { induction n as [|n IH]; intros l a Hl Ha.
    - destruct l; [exact Ha|cbn in Hl; lia].
    - destruct l as [|arg [|v rest]]; [exact Ha|apply flag_json; exact Ha|].
      cbn [List.length] in Hl. rewrite parse_args_step.
      repeat (destruct (_ =? _)%string; [apply IH; [lia|exact Ha]|]).
      apply IH; [cbn [List.length]; lia|]. apply flag_json. exact Ha. }
  apply (H (List.length args)); [lia|]. cbn. discriminate.
Qed.

(** X1: the input path found by the argument loop is one of the
    arguments and does not begin with a dash; without such an argument no
    path is found. *)
Theorem path_is_positional_argument args p :
  Cli.path (Cli.parse_args atof atoi args Cli.initial) = Some p ->
  In p args /\ Cli.positional p = true.
Proof.
  assert (H : forall n args a, (List.length args <= n)%nat ->
            Cli.path (Cli.parse_args atof atoi args a) = Some p ->
            Cli.path a = Some p \/ (In p args /\ Cli.positional p = true)).
  { induction n as [|n IH]; intros l a Hl Hp.
    - destruct l; [left; exact Hp|cbn in Hl; lia].
    - destruct l as [|arg [|v rest]]; [left; exact Hp| |].
      + apply flag_path in Hp. destruct Hp as [Hp|[-> Hp]]; [auto|].
        right. split; [left; reflexivity|assumption].
      + cbn [List.length] in Hl. rewrite parse_args_step in Hp.
        assert (Hrest : forall a', Cli.path a' = Cli.path a ->
                  Cli.path (Cli.parse_args atof atoi rest a') = Some p ->
                  Cli.path a = Some p \/ (In p (arg :: v :: rest) /\ Cli.positional p = true)).
        { intros a' Ea H'. apply IH in H'; [|lia].
          destruct H' as [H'|[Hin Hpos]]; [left; congruence|].
          right. split; [right; right; exact Hin|assumption]. }
        repeat (destruct (_ =? _)%string; [eapply Hrest; [|exact Hp]; reflexivity|]).
        apply IH in Hp; [|cbn [List.length]; lia].
        destruct Hp as [Hp|[Hin Hpos]].
        * apply flag_path in Hp. destruct Hp as [Hp|[-> Hp]]; [auto|].
          right. split; [left; reflexivity|assumption].
        * right. split; [right; exact Hin|assumption]. }
  intros Hp. destruct (H (List.length args) args Cli.initial ltac:(lia) Hp) as [Hi|Hr].
  - cbn in Hi. discriminate.
  - exact Hr.
Qed.

End CliFacts.

Lemma json_full_implies_json_witness :
  Cli.json (Cli.parse_args (fun _ => 0%float) (fun _ => 0)
              ["data.csv"; "-json-full"]%string Cli.initial) = true.
Proof.
  apply (json_full_implies_json (fun _ => 0%float) (fun _ => 0) ["data.csv"; "-json-full"]%string).
  reflexivity.
Defined.

Lemma path_is_positional_argument_witness :
  In "data.csv"%string ["-cohort"; "alpha"; "data.csv"; "-limit"]%string
  /\ Cli.positional "data.csv" = true.
Proof.
  apply (path_is_positional_argument (fun _ => 0%float) (fun _ => 0)).
  reflexivity.
Defined.

(** ** The comparators and [clamp] *)

(** X27: the three comparators handed to [qsort] are antisymmetric, and
    transitive on elements whose key is a number, as [qsort] requires; on
    scores that may be NaN [compare_risk_desc] is not transitive. *)
Theorem comparators_consistent :
  consistent_on (fun s => is_num (risk_score s) = true) compare_risk_desc /\
  consistent_on (fun d => is_num (value d) = true) compare_driver_desc /\
  consistent_on (fun cs => is_num (cohort_mean cs) = true) compare_cohort_avg_desc /\
  ~ consistent_on (fun _ => True) compare_risk_desc.
Proof.
  split; [apply (compare_desc_consistent risk_score)|].
  split; [apply (compare_desc_consistent value)|].
  split; [apply (compare_desc_consistent cohort_mean)|].
  intros (_ & Htrans & _).
  assert (H : compare_risk_desc (with_risk example_record 1) (with_risk example_record 2) <= 0).
  { apply (Htrans _ (with_risk example_record nan)); try exact I; vm_compute; discriminate. }
  vm_compute in H. apply H. reflexivity.
Qed.

(** X28: for a number [v] and bounds [lo <= hi], [clamp] returns a
    value within the bounds, returns [v] itself when it is within them, and
    is idempotent. *)
Theorem clamp_within_bounds v lo hi :
  is_num v = true -> (lo <=? hi)%float = true ->
  (lo <=? clamp v lo hi)%float = true /\ (clamp v lo hi <=? hi)%float = true /\
  ((lo <=? v)%float = true -> (v <=? hi)%float = true -> clamp v lo hi = v) /\
  clamp (clamp v lo hi) lo hi = clamp v lo hi.
Proof.
  intros Hv Hb. pose proof (proj1 (leb_iff _ _) Hb) as (Hl & Hh & Hle).
  unfold clamp.
  destruct (v <? lo)%float eqn:E1.
  - pose proof (proj1 (ltb_iff _ _) E1) as (_ & _ & H1).
    rewrite leb_FV, Z.leb_refl by assumption. rewrite Hb.
    assert (E3 : (lo <? lo)%float = false) by (rewrite ltb_FV by assumption; apply Z.ltb_irrefl).
    assert (E4 : (hi <? lo)%float = false) by (rewrite ltb_FV by assumption; apply Z.ltb_ge; lia).
    rewrite E3, E4.
    repeat split; try reflexivity.
    intros H _. apply leb_iff in H. lia.
  - rewrite ltb_FV in E1 by assumption. apply Z.ltb_ge in E1.
    destruct (hi <? v)%float eqn:E2.
    + pose proof (proj1 (ltb_iff _ _) E2) as (_ & _ & H2).
      assert (E3 : (hi <? lo)%float = false) by (rewrite ltb_FV by assumption; apply Z.ltb_ge; lia).
      assert (E4 : (hi <? hi)%float = false) by (rewrite ltb_FV by assumption; apply Z.ltb_irrefl).
      rewrite E3, E4, Hb. rewrite (leb_FV hi hi), Z.leb_refl by assumption.
      repeat split; try reflexivity.
      intros _ H. apply leb_iff in H. lia.
    + rewrite ltb_FV in E2 by assumption. apply Z.ltb_ge in E2.
      assert (E3 : (v <? lo)%float = false) by (rewrite ltb_FV by assumption; apply Z.ltb_ge; lia).
      assert (E4 : (hi <? v)%float = false) by (rewrite ltb_FV by assumption; apply Z.ltb_ge; lia).
      rewrite E3, E4. rewrite !leb_FV by assumption.
      repeat split; try reflexivity; apply Z.leb_le; assumption.
Qed.

Lemma clamp_within_bounds_witness :
  (0 <=? clamp 140.5 0 100)%float = true /\ (clamp 140.5 0 100 <=? 100)%float = true.
Proof.
  destruct (clamp_within_bounds 140.5 0 100 eq_refl eq_refl) as (H1 & H2 & _).
  split; assumption.
Defined.
